(** * youtube_miner: the comparison core and the repetition remover

    A shallow embedding of the text normalizer ([src/comparator/normalizer.py]),
    the WER/CER calculators ([src/comparator/wer.py], [src/comparator/cer.py]),
    the semantic-similarity wrapper ([src/comparator/semantic.py]), the hybrid
    scorer ([src/comparator/hybrid.py]), the comparison record
    ([src/models/comparison.py]) and the n-gram deduplicator
    ([src/deduplicator/ngram.py]).

    Conventions.
    - A Python [str] is a [string]; its characters are the code points
      U+0000..U+00FF, and the character classes ([str.isspace], the regular
      expression classes [\s] and [\w], [str.lower]) are Python's on that range.
    - A Python [float] is a kernel binary64 [float]; [min], [max] and [round]
      are written out with Python's argument order and tie rules.
    - A [while] loop over an index is a fixpoint on fuel that returns [None]
      when the fuel runs out; the callers pass fuel that suffices whenever the
      Python loop terminates. *)

From Stdlib Require Import Bool Arith ZArith List String Ascii Lia.
From Stdlib Require Import Floats Uint63.
Import ListNotations.

Set Warnings "-inexact-float".

Local Open Scope string_scope.
Local Open Scope list_scope.
Local Open Scope nat_scope.

(* ================================================================== *)
(** ** Python strings *)
(* ================================================================== *)

Module PyStr.

(** [str.isspace] / the class [\s] on U+0000..U+00FF: TAB..CR, FS..US,
    SPACE, NEL and NBSP. *)
Definition is_space (c : ascii) : bool :=
  let n := nat_of_ascii c in
  ((9 <=? n) && (n <=? 13)) || ((28 <=? n) && (n <=? 32))
  || (n =? 133) || (n =? 160).

Definition is_digit (c : ascii) : bool :=
  let n := nat_of_ascii c in (48 <=? n) && (n <=? 57).

(** [str.isalnum] on U+0000..U+00FF. *)
Definition is_alnum (c : ascii) : bool :=
  let n := nat_of_ascii c in
  is_digit c
  || ((65 <=? n) && (n <=? 90)) || ((97 <=? n) && (n <=? 122))
  || (n =? 170) || (n =? 178) || (n =? 179) || (n =? 181)
  || (n =? 185) || (n =? 186) || ((188 <=? n) && (n <=? 190))
  || ((192 <=? n) && (n <=? 214)) || ((216 <=? n) && (n <=? 246))
  || ((248 <=? n) && (n <=? 255)).

(** The class [\w]: alphanumeric or underscore. *)
Definition is_word (c : ascii) : bool :=
  is_alnum c || (nat_of_ascii c =? 95).

Definition is_apostrophe (c : ascii) : bool := (nat_of_ascii c =? 39).

(** [str.lower] on one character of U+0000..U+00FF. *)
Definition lower_char (c : ascii) : ascii :=
  let n := nat_of_ascii c in
  if ((65 <=? n) && (n <=? 90)) || ((192 <=? n) && (n <=? 214))
     || ((216 <=? n) && (n <=? 222))
  then ascii_of_nat (n + 32) else c.

Fixpoint string_map (f : ascii -> ascii) (s : string) : string :=
  match s with
  | EmptyString => EmptyString
  | String c r => String (f c) (string_map f r)
  end.

Fixpoint string_forall (p : ascii -> bool) (s : string) : bool :=
  match s with
  | EmptyString => true
  | String c r => p c && string_forall p r
  end.

Definition lower (s : string) : string := string_map lower_char s.

(** [str.lstrip()], [str.rstrip()], [str.strip()]. *)
Fixpoint lstrip (s : string) : string :=
  match s with
  | EmptyString => EmptyString
  | String c r => if is_space c then lstrip r else s
  end.

Fixpoint rstrip (s : string) : string :=
  match s with
  | EmptyString => EmptyString
  | String c r =>
      match rstrip r with
      | EmptyString => if is_space c then EmptyString else String c EmptyString
      | r' => String c r'
      end
  end.

Definition strip (s : string) : string := rstrip (lstrip s).

(** Python truthiness of a string: [not s] is [is_empty s]. *)
Definition is_empty (s : string) : bool :=
  match s with EmptyString => true | _ => false end.

(** [str.split()]: the maximal runs of non-whitespace characters. [cur] is
    the word being read. *)
Fixpoint split_go (cur : string) (s : string) : list string :=
  match s with
  | EmptyString => if is_empty cur then [] else [cur]
  | String c r =>
      if is_space c
      then (if is_empty cur then split_go EmptyString r
            else cur :: split_go EmptyString r)
      else split_go (cur ++ String c EmptyString) r
  end.

Definition split (s : string) : list string := split_go EmptyString s.

(** What [str.split()] returns: non-empty strings without whitespace. *)
Definition no_space (s : string) : bool :=
  string_forall (fun c => negb (is_space c)) s.

Definition is_token (w : string) : bool := negb (is_empty w) && no_space w.

(** [sep.join(words)]. *)
Fixpoint join (sep : string) (ws : list string) : string :=
  match ws with
  | [] => EmptyString
  | [w] => w
  | w :: rest => w ++ sep ++ join sep rest
  end.

(** *** Regular-expression substitution

    A pattern is given by its matcher: [m s] is the length of the match of
    the pattern anchored at the start of [s], if there is one. [re_sub]
    is [re.sub(pattern, repl, s)] for a pattern whose matches are not empty:
    the leftmost match is replaced and the scan resumes after it. [skip] is
    the number of characters of the current match still to be consumed. *)
Definition matcher := string -> option nat.

Fixpoint sub_go (m : matcher) (repl : string) (skip : nat) (s : string)
  : string :=
  match s with
  | EmptyString => EmptyString
  | String c r =>
      match skip with
      | S k => sub_go m repl k r
      | O =>
          match m s with
          | Some (S k) => repl ++ sub_go m repl k r
          | _ => String c (sub_go m repl O r)
          end
      end
  end.

Definition re_sub (m : matcher) (repl s : string) : string :=
  sub_go m repl 0 s.

(** Length of the run of whitespace at the start of [s] (a greedy [\s*]). *)
Fixpoint space_run (s : string) : nat :=
  match s with
  | String c r => if is_space c then S (space_run r) else 0
  | EmptyString => 0
  end.

Fixpoint drop (n : nat) (s : string) : string :=
  match n, s with
  | S k, String _ r => drop k r
  | _, _ => s
  end.

Definition starts_with_apostrophe (s : string) : bool :=
  match s with String c _ => is_apostrophe c | EmptyString => false end.

(** [\s+] *)
Definition m_spaces : matcher := fun s =>
  match space_run s with O => None | n => Some n end.

(** [[^\w\s']] *)
Definition m_punct : matcher := fun s =>
  match s with
  | String c _ =>
      if is_word c || is_space c || is_apostrophe c then None else Some 1
  | EmptyString => None
  end.

(** [\s+']: the greedy run of whitespace must be followed by an apostrophe
    (a shorter run is followed by whitespace, so backtracking never helps). *)
Definition m_spaces_apostrophe : matcher := fun s =>
  match space_run s with
  | O => None
  | n => if starts_with_apostrophe (drop n s) then Some (S n) else None
  end.

(** ['\s+] *)
Definition m_apostrophe_spaces : matcher := fun s =>
  match s with
  | String c r =>
      if is_apostrophe c
      then match space_run r with O => None | n => Some (S n) end
      else None
  | EmptyString => None
  end.

(** [p|q]: the first alternative that matches wins. *)
Definition m_alt (p q : matcher) : matcher := fun s =>
  match p s with Some n => Some n | None => q s end.

(** A literal pattern, as [str.replace] searches it. *)
Fixpoint prefix (p s : string) : bool :=
  match p, s with
  | EmptyString, _ => true
  | String a p', String b s' => Ascii.eqb a b && prefix p' s'
  | String _ _, EmptyString => false
  end.

Definition m_literal (p : string) : matcher := fun s =>
  if prefix p s then Some (String.length p) else None.

(** [s.replace(old, new)] for a non-empty [old]. *)
Definition replace (old new s : string) : string :=
  re_sub (m_literal old) new s.

(** [sub in s] and [s.count(sub)] (non-overlapping occurrences) for a
    non-empty [sub]. *)
Fixpoint contains (sub s : string) : bool :=
  prefix sub s
  || match s with
     | EmptyString => false
     | String _ r => contains sub r
     end.

Fixpoint count_go (sub : string) (skip : nat) (s : string) : nat :=
  match s with
  | EmptyString => 0
  | String _ r =>
      match skip with
      | S k => count_go sub k r
      | O => if prefix sub s
             then S (count_go sub (String.length sub - 1) r)
             else count_go sub 0 r
      end
  end.

Definition count (sub s : string) : nat := count_go sub 0 s.

End PyStr.

(* ================================================================== *)
(** ** src/comparator/normalizer.py *)
(* ================================================================== *)

Module Normalizer.
Import PyStr.

(** The flags that [TextNormalizer.__init__] stores. *)
Record TextNormalizer := mkNormalizer {
  lowercase : bool;
  remove_punctuation : bool;
  collapse_whitespace : bool;
  numbers_to_words : bool;
  expand_contractions : bool
}.

(** [TextNormalizer()]: every flag but [numbers_to_words] defaults to True. *)
Definition default : TextNormalizer :=
  {| lowercase := true; remove_punctuation := true;
     collapse_whitespace := true; numbers_to_words := false;
     expand_contractions := true |}.

(** [self.contractions], in the dict's insertion order. *)
Definition contractions : list (string * string) :=
  [ ("won't", "will not"); ("can't", "cannot"); ("n't", " not");
    ("'re", " are"); ("'s", " is"); ("'d", " would"); ("'ll", " will");
    ("'ve", " have"); ("'m", " am") ].

(** [NUMBER_WORDS] *)
Definition NUMBER_WORDS (c : ascii) : option string :=
  match nat_of_ascii c with
  | 48 => Some "zero" | 49 => Some "one" | 50 => Some "two"
  | 51 => Some "three" | 52 => Some "four" | 53 => Some "five"
  | 54 => Some "six" | 55 => Some "seven" | 56 => Some "eight"
  | 57 => Some "nine" | _ => None
  end.

Definition _expand_contractions (text : string) : string :=
  fold_left (fun t ce => replace (fst ce) (snd ce) t) contractions text.

Fixpoint _numbers_to_words (text : string) : string :=
  match text with
  | EmptyString => EmptyString
  | String c r =>
      match NUMBER_WORDS c with
      | Some w => w ++ _numbers_to_words r
      | None => String c (_numbers_to_words r)
      end
  end.

(** [re.sub(r"[^\w\s']", ' ', text)] then [re.sub(r"\s+'|'\s+", ' ', text)]. *)
Definition _remove_punctuation (text : string) : string :=
  let text := re_sub m_punct " " text in
  re_sub (m_alt m_spaces_apostrophe m_apostrophe_spaces) " " text.

(** [re.sub(r'\s+', ' ', text).strip()] *)
Definition collapse (text : string) : string :=
  strip (re_sub m_spaces " " text).

Definition normalize (self : TextNormalizer) (text : string) : string :=
  if is_empty text then EmptyString else
  let text := if lowercase self then lower text else text in
  let text := if expand_contractions self then _expand_contractions text
              else text in
  let text := if numbers_to_words self then _numbers_to_words text
              else text in
  let text := if remove_punctuation self then _remove_punctuation text
              else text in
  let text := if collapse_whitespace self then collapse text else text in
  text.

Definition normalize_pair (self : TextNormalizer) (text1 text2 : string)
  : string * string :=
  (normalize self text1, normalize self text2).

(** *** Classes of text that the steps produce

    No apostrophe; no character that [str.lower] changes; no digit; only
    word characters and whitespace, or those and apostrophes; and
    whitespace only as single spaces ([prev_space] tells whether the
    previous character was one). *)
Definition no_apostrophe (s : string) : bool :=
  string_forall (fun c => negb (is_apostrophe c)) s.

Definition lower_fixed (c : ascii) : bool := Ascii.eqb (lower_char c) c.

Definition no_digit (c : ascii) : bool :=
  match NUMBER_WORDS c with None => true | Some _ => false end.

Definition clean (c : ascii) : bool := is_word c || is_space c.

Definition clean_or_apostrophe (c : ascii) : bool :=
  is_word c || is_space c || is_apostrophe c.

(** A class of characters that contains the space and the letters of the
    ten number words: every step keeps it once it holds. *)
Definition stable (q : ascii -> bool) : Prop :=
  q " "%char = true
  /\ forall c w, NUMBER_WORDS c = Some w -> string_forall q w = true.

Fixpoint single_spaced (prev_space : bool) (s : string) : bool :=
  match s with
  | EmptyString => true
  | String c r =>
      if is_space c
      then Ascii.eqb c " " && negb prev_space && single_spaced true r
      else single_spaced false r
  end.

(** [TextNormalizer(numbers_to_words=True)]: every flag on. *)
Definition with_numbers : TextNormalizer :=
  {| lowercase := true; remove_punctuation := true;
     collapse_whitespace := true; numbers_to_words := true;
     expand_contractions := true |}.

(** The text of the class docstring's example. *)
Definition scenario : string := "Hello, World! It's 123.".

End Normalizer.

(* ================================================================== *)
(** ** Python floats *)
(* ================================================================== *)

Module PyFloat.
Local Open Scope float_scope.

(** [float(n)] for a non-negative [int] below 2^63. *)
Definition of_nat (n : nat) : float :=
  PrimFloat.of_uint63 (Uint63.of_Z (Z.of_nat n)).

(** [min(a, b)] keeps [a] unless [b < a]; [max(a, b)] keeps [a] unless
    [b > a]. *)
Definition py_min (a b : float) : float := if b <? a then b else a.
Definition py_max (a b : float) : float := if a <? b then b else a.

(** Truthiness of a float: [bool(x)] is [x != 0.0]. *)
Definition truthy (x : float) : bool := negb (x =? 0).

(** The integer nearest to [n/d], ties to even, for [0 <= n]. *)
Definition round_half_even (n : Z) (d : Z) : Z :=
  let q := (n / d)%Z in
  let r := (n mod d)%Z in
  match (2 * r ?= d)%Z with
  | Lt => q
  | Gt => (q + 1)%Z
  | Eq => if Z.even q then q else (q + 1)%Z
  end.

(** [round(x, 4)]: the exact value [m * 2^e] of [x] is rounded, ties to even,
    to a multiple [k / 10^4] ([decimal4] is [k]), and the result is the
    binary64 number nearest to that decimal; zeros, infinities and NaN are
    returned as they are, and the sign is kept. *)
Definition decimal4 (m : positive) (e : Z) : Z :=
  if (0 <=? e)%Z then (Z.pos m * 10000 * 2 ^ e)%Z
  else round_half_even (Z.pos m * 10000) (2 ^ (- e)).

Definition round4 (x : float) : float :=
  match Prim2SF x with
  | S754_finite s m e =>
      match decimal4 m e with
      | Z.pos p =>
          SF2Prim (SFdiv prec emax (S754_finite s p 0)
                                   (S754_finite false 10000 0))
      | _ => SF2Prim (S754_zero s)
      end
  | _ => x
  end.

End PyFloat.

(* ================================================================== *)
(** ** Edit distance *)
(* ================================================================== *)

Module EditDistance.

Section Rows.
Context {A : Type} (eqb : A -> A -> bool).

(** One row of the Wagner-Fischer table: [prev] is the row of the
    reference prefix without [x], [diag] and [left] the entries to the
    upper left and to the left of the entry being filled. *)
Fixpoint row_go (x : A) (hyp : list A) (prev : list nat)
         (diag left : nat) : list nat :=
  match hyp, prev with
  | y :: hyp', up :: prev' =>
      let v := Nat.min (Nat.min (S up) (S left))
                       (diag + if eqb x y then 0 else 1) in
      v :: row_go x hyp' prev' up v
  | _, _ => []
  end.

Definition next_row (hyp : list A) (prev : list nat) (x : A) : list nat :=
  match prev with
  | d :: prev' => S d :: row_go x hyp prev' d (S d)
  | [] => []
  end.

(** Modelled from the spec: the alignment primitive is the [jiwer]
    package, which is not part of the repository; section 4.2 gives it as
    the minimum number S+D+I of unit-cost substitutions, deletions and
    insertions, computed by Wagner-Fischer dynamic programming. *)
Definition levenshtein (reference hypothesis : list A) : nat :=
  last (fold_left (next_row hypothesis) reference
                  (seq 0 (S (List.length hypothesis)))) 0.
End Rows.

(** Modelled from the spec: [jiwer.wer] and [jiwer.cer], the rate
    (S+D+I) / max(1, |reference sequence|) over whitespace-delimited tokens
    and over characters. *)
Definition rate (distance reference_length : nat) : float :=
  PrimFloat.div (PyFloat.of_nat distance)
                (PyFloat.of_nat (Nat.max 1 reference_length)).

Definition calculate_wer (reference hypothesis : string) : float :=
  let r := PyStr.split reference in
  let h := PyStr.split hypothesis in
  rate (levenshtein String.eqb r h) (List.length r).

Definition calculate_cer (reference hypothesis : string) : float :=
  let r := list_ascii_of_string reference in
  let h := list_ascii_of_string hypothesis in
  rate (levenshtein Ascii.eqb r h) (List.length r).

End EditDistance.

(* ================================================================== *)
(** ** src/models/comparison.py *)
(* ================================================================== *)

Module Comparison.
Import PyFloat.
Local Open Scope float_scope.

(** The dataclass. [hybrid_score] is [Optional[float]]; [computed_at] is
    kept as the ISO-8601 text of the timestamp. *)
Record ComparisonResult := mkResult {
  chunk_index : Z;
  normalized_transcript : string;
  normalized_caption : string;
  wer : float;
  cer : float;
  semantic_similarity : float;
  hybrid_score : option float;
  computed_at : string
}.

Definition _calculate_hybrid_score (self : ComparisonResult) (alpha : float)
  : float :=
  let accuracy := 1.0 - py_min (wer self) 1.0 in
  alpha * accuracy + (1 - alpha) * semantic_similarity self.

(** The default of [_calculate_hybrid_score]'s parameter. *)
Definition default_alpha : float := 0.5.

Definition __post_init__ (self : ComparisonResult) : ComparisonResult :=
  match hybrid_score self with
  | None =>
      {| chunk_index := chunk_index self;
         normalized_transcript := normalized_transcript self;
         normalized_caption := normalized_caption self;
         wer := wer self; cer := cer self;
         semantic_similarity := semantic_similarity self;
         hybrid_score := Some (_calculate_hybrid_score self default_alpha);
         computed_at := computed_at self |}
  | Some _ => self
  end.

(** [ComparisonResult(...)]: the generated [__init__] followed by
    [__post_init__]; [now] is what [datetime.now] returns, and
    [hybrid = None] is the omitted argument. *)
Definition new (now : string) (index : Z) (transcript caption : string)
           (w c sem : float) (hybrid : option float) : ComparisonResult :=
  __post_init__ (mkResult index transcript caption w c sem hybrid now).

(** The values a serialized record holds, and a [dict] with string keys in
    insertion order. *)
Inductive pyval :=
| VInt (z : Z)
| VStr (s : string)
| VFloat (x : float)
| VNone.

Definition pydict := list (string * pyval).

Fixpoint lookup (key : string) (d : pydict) : option pyval :=
  match d with
  | [] => None
  | (k, v) :: rest => if String.eqb k key then Some v else lookup key rest
  end.

Definition to_dict (self : ComparisonResult) : pydict :=
  [ ("chunk_index", VInt (chunk_index self));
    ("normalized_transcript", VStr (normalized_transcript self));
    ("normalized_caption", VStr (normalized_caption self));
    ("wer", VFloat (round4 (wer self)));
    ("cer", VFloat (round4 (cer self)));
    ("semantic_similarity", VFloat (round4 (semantic_similarity self)));
    ("hybrid_score",
      match hybrid_score self with
      | Some h => if truthy h then VFloat (round4 h) else VNone
      | None => VNone
      end);
    ("computed_at", VStr (computed_at self)) ].

(** [data[key]] read at the type the field is annotated with. The record
    of this development is typed, so a read has no result both when the key
    is missing (Python's [KeyError]) and when the key holds a value of
    another type (which Python would store as it is); [well_typed] below
    tells the two apart. *)
Definition get_int (key : string) (d : pydict) : option Z :=
  match lookup key d with Some (VInt z) => Some z | _ => None end.
Definition get_str (key : string) (d : pydict) : option string :=
  match lookup key d with Some (VStr s) => Some s | _ => None end.
Definition get_float (key : string) (d : pydict) : option float :=
  match lookup key d with Some (VFloat x) => Some x | _ => None end.

(** [data.get(key)] for an [Optional[float]] field: [Some None] when the
    key is absent or holds [None], [Some (Some x)] for a float, and no
    result for a value of another type. *)
Definition get_optional_float (key : string) (d : pydict)
  : option (option float) :=
  match lookup key d with
  | None | Some VNone => Some None
  | Some (VFloat x) => Some (Some x)
  | Some _ => None
  end.

Definition from_dict (now : string) (data : pydict)
  : option ComparisonResult :=
  match get_int "chunk_index" data,
        get_str "normalized_transcript" data,
        get_str "normalized_caption" data,
        get_float "wer" data, get_float "cer" data,
        get_float "semantic_similarity" data,
        get_optional_float "hybrid_score" data with
  | Some i, Some t, Some c, Some w, Some ce, Some s, Some h =>
      Some (new now i t c w ce s h)
  | _, _, _, _, _, _, _ => None
  end.

(** The annotations of the dataclass, read on a dict: a key that
    [from_dict] reads and that is present holds a value of the type its
    field declares ([hybrid_score] may also hold [None]). *)
Definition holds_int (key : string) (d : pydict) : bool :=
  match lookup key d with Some (VInt _) | None => true | Some _ => false end.
Definition holds_str (key : string) (d : pydict) : bool :=
  match lookup key d with Some (VStr _) | None => true | Some _ => false end.
Definition holds_float (key : string) (d : pydict) : bool :=
  match lookup key d with
  | Some (VFloat _) | None => true
  | Some _ => false
  end.
Definition holds_optional_float (key : string) (d : pydict) : bool :=
  match lookup key d with
  | Some (VFloat _) | Some VNone | None => true
  | Some _ => false
  end.

Definition well_typed (data : pydict) : bool :=
  holds_int "chunk_index" data
  && holds_str "normalized_transcript" data
  && holds_str "normalized_caption" data
  && holds_float "wer" data && holds_float "cer" data
  && holds_float "semantic_similarity" data
  && holds_optional_float "hybrid_score" data.

End Comparison.

(* ================================================================== *)
(** ** src/comparator/wer.py, cer.py, semantic.py, hybrid.py *)
(* ================================================================== *)

Module Scorer.
Import PyStr PyFloat Normalizer Comparison.
Local Open Scope float_scope.

(** [not s.strip()] *)
Definition blank (s : string) : bool := is_empty (strip s).

(** [WERCalculator(normalize)] and [CERCalculator(normalize)] keep a
    default [TextNormalizer] or [None]. *)
Record WERCalculator := { wer_normalizer : option TextNormalizer }.
Record CERCalculator := { cer_normalizer : option TextNormalizer }.

Definition make_normalizer (normalize : bool) : option TextNormalizer :=
  if normalize then Some Normalizer.default else None.

Definition new_wer (normalize : bool) : WERCalculator :=
  {| wer_normalizer := make_normalizer normalize |}.
Definition new_cer (normalize : bool) : CERCalculator :=
  {| cer_normalizer := make_normalizer normalize |}.

Definition apply_normalizer (n : option TextNormalizer)
           (text1 text2 : string) : string * string :=
  match n with
  | Some n => normalize_pair n text1 text2
  | None => (text1, text2)
  end.

(** [WERCalculator.calculate]. The [except] branch guards the call into
    [jiwer]; the alignment modelled here is total. *)
Definition wer_calculate (self : WERCalculator)
           (reference hypothesis : string) : float :=
  let '(reference, hypothesis) :=
    apply_normalizer (wer_normalizer self) reference hypothesis in
  if blank reference then (if blank hypothesis then 0.0 else 1.0)
  else if blank hypothesis then 1.0
  else py_min 1.0 (py_max 0.0
                     (EditDistance.calculate_wer reference hypothesis)).

(** [CERCalculator.calculate] *)
Definition cer_calculate (self : CERCalculator)
           (reference hypothesis : string) : float :=
  let '(reference, hypothesis) :=
    apply_normalizer (cer_normalizer self) reference hypothesis in
  if blank reference then (if blank hypothesis then 0.0 else 1.0)
  else if blank hypothesis then 1.0
  else py_min 1.0 (py_max 0.0
                     (EditDistance.calculate_cer reference hypothesis)).

(** *** Effects

    The scorer reads the clock, loads the sentence-embedding model lazily and
    calls it. The world records whether the model is loaded, every pair of
    texts sent to [encode], and the number of clock readings. *)
Inductive exn :=
| ValueError (message : string)
| BackendError.

Inductive outcome (A : Type) :=
| Ok (a : A)
| Raise (e : exn).
Arguments Ok {A} a.
Arguments Raise {A} e.

Record World := mkWorld {
  model_loaded : bool;
  encode_calls : list (string * string);
  ticks : nat
}.

Definition M (A : Type) : Type := World -> outcome A * World.

Definition ret {A} (a : A) : M A := fun w => (Ok a, w).
Definition raise {A} (e : exn) : M A := fun w => (Raise e, w).
Definition bind {A B} (m : M A) (k : A -> M B) : M B :=
  fun w => match m w with
           | (Ok a, w') => k a w'
           | (Raise e, w') => (Raise e, w')
           end.

Notation "x <- m ;; k" := (bind m (fun x => k))
  (at level 61, m at next level, right associativity).

Section Backend.
(** The collaborators: whether [SentenceTransformer(...)] can be
    constructed, the cosine similarity of the embeddings of two texts
    ([None] when [encode] or [cos_sim] raises), and the clock. *)
Variable backend_loads : bool.
Variable cos_sim : string -> string -> option float.
Variable timestamp : nat -> string.

Record SemanticSimilarity := { sem_normalizer : option TextNormalizer }.

Definition new_semantic (normalize_text : bool) : SemanticSimilarity :=
  {| sem_normalizer := make_normalizer normalize_text |}.

(** [_load_model]: a second construction is attempted without the token;
    when it fails too the exception propagates. *)
Definition _load_model : M unit := fun w =>
  if model_loaded w then (Ok tt, w)
  else if backend_loads
       then (Ok tt, mkWorld true (encode_calls w) (ticks w))
       else (Raise BackendError, w).

(** [self._model.encode([text1, text2])] followed by [util.cos_sim]. *)
Definition encode_and_compare (text1 text2 : string) : M (option float) :=
  fun w => (Ok (cos_sim text1 text2),
            mkWorld (model_loaded w)
                    (encode_calls w ++ [(text1, text2)]) (ticks w)).

(** [datetime.now()] *)
Definition now : M string := fun w =>
  (Ok (timestamp (ticks w)),
   mkWorld (model_loaded w) (encode_calls w) (S (ticks w))).

(** [SemanticSimilarity.calculate] *)
Definition sem_calculate (self : SemanticSimilarity)
           (text1 text2 : string) : M float :=
  _ <- _load_model ;;
  let '(text1, text2) :=
    apply_normalizer (sem_normalizer self) text1 text2 in
  if blank text1 || blank text2
  then ret (if String.eqb (strip text1) (strip text2) then 1.0 else 0.0)
  else
    r <- encode_and_compare text1 text2 ;;
    match r with
    | Some similarity => ret (py_max 0.0 (py_min 1.0 similarity))
    | None => ret 0.0
    end.

(** [HybridScore(alpha, normalize, include_cer)] *)
Record HybridScore := {
  alpha : float;
  include_cer : bool;
  wer_calc : WERCalculator;
  cer_calc : CERCalculator;
  semantic_calc : SemanticSimilarity
}.

Definition new_hybrid (alpha : float) (normalize include_cer : bool)
  : HybridScore :=
  {| alpha := alpha; include_cer := include_cer;
     wer_calc := new_wer normalize; cer_calc := new_cer normalize;
     semantic_calc := new_semantic normalize |}.

(** The dict that [HybridScore.calculate] returns. *)
Record Metrics := {
  m_wer : float;
  m_cer : float;
  m_semantic_similarity : float;
  m_hybrid_score : float
}.

Definition _calculate_hybrid (self : HybridScore) (wer semantic : float)
  : float :=
  let accuracy := 1.0 - py_min wer 1.0 in
  alpha self * accuracy + (1 - alpha self) * semantic.

Definition calculate (self : HybridScore) (reference hypothesis : string)
  : M Metrics :=
  let wer := wer_calculate (wer_calc self) reference hypothesis in
  let cer := cer_calculate (cer_calc self) reference hypothesis in
  semantic <- sem_calculate (semantic_calc self) reference hypothesis ;;
  let hybrid := _calculate_hybrid self wer semantic in
  ret {| m_wer := wer; m_cer := cer;
         m_semantic_similarity := semantic; m_hybrid_score := hybrid |}.

(** [HybridScore()] *)
Definition default_hybrid : HybridScore := new_hybrid 0.5 true true.

Definition compare (self : HybridScore) (reference hypothesis : string)
           (chunk_index : Z) : M ComparisonResult :=
  metrics <- calculate self reference hypothesis ;;
  let '(norm_ref, norm_hyp) :=
    apply_normalizer (wer_normalizer (wer_calc self))
                     reference hypothesis in
  t <- now ;;
  ret (Comparison.new t chunk_index norm_hyp norm_ref
         (m_wer metrics) (m_cer metrics)
         (m_semantic_similarity metrics)
         (Some (m_hybrid_score metrics))).

(** The [for] loop of [compare_all] over [enumerate(zip(...))]. *)
Fixpoint compare_loop (self : HybridScore) (i : nat)
         (pairs : list (string * string))
         (results : list ComparisonResult) : M (list ComparisonResult) :=
  match pairs with
  | [] => ret results
  | (ref, hyp) :: rest =>
      result <- compare self ref hyp (Z.of_nat i) ;;
      compare_loop self (S i) rest (results ++ [result])
  end.

Definition compare_all (self : HybridScore)
           (reference_texts hypothesis_texts : list string)
  : M (list ComparisonResult) :=
  if negb (List.length reference_texts =? List.length hypothesis_texts)%nat
  then raise (ValueError
                "Reference and hypothesis lists must have same length")
  else compare_loop self 0 (combine reference_texts hypothesis_texts) [].

(** *** What the scorer returns once the model is available

    The world after a successful [_load_model], the value of
    [SemanticSimilarity.calculate], and the record that
    [HybridScore.compare] builds at clock reading [t]. *)
Definition loaded (w : World) : World :=
  mkWorld true (encode_calls w) (ticks w).

Definition clamp_similarity (r : option float) : float :=
  match r with
  | Some similarity => py_max 0.0 (py_min 1.0 similarity)
  | None => 0.0
  end.

Definition sem_value (self : SemanticSimilarity) (text1 text2 : string)
  : float :=
  let '(text1, text2) :=
    apply_normalizer (sem_normalizer self) text1 text2 in
  if blank text1 || blank text2
  then (if String.eqb (strip text1) (strip text2) then 1.0 else 0.0)
  else clamp_similarity (cos_sim text1 text2).

Definition scored (self : HybridScore) (reference hypothesis : string)
           (chunk_index : Z) (t : string) : ComparisonResult :=
  let wer := wer_calculate (wer_calc self) reference hypothesis in
  let sem := sem_value (semantic_calc self) reference hypothesis in
  let '(norm_ref, norm_hyp) :=
    apply_normalizer (wer_normalizer (wer_calc self))
                     reference hypothesis in
  mkResult chunk_index norm_hyp norm_ref wer
           (cer_calculate (cer_calc self) reference hypothesis) sem
           (Some (_calculate_hybrid self wer sem)) t.

End Backend.

End Scorer.

(* ================================================================== *)
(** ** Subsequences *)
(* ================================================================== *)

(** [subseq l1 l2]: [l1] is [l2] with some elements left out, the others in
    their order. *)
Inductive subseq {A : Type} : list A -> list A -> Prop :=
| subseq_nil : subseq [] []
| subseq_skip (x : A) (l1 l2 : list A) : subseq l1 l2 -> subseq l1 (x :: l2)
| subseq_keep (x : A) (l1 l2 : list A) :
    subseq l1 l2 -> subseq (x :: l1) (x :: l2).

(* ================================================================== *)
(** ** src/deduplicator/ngram.py *)
(* ================================================================== *)

Module Deduplicator.
Import PyStr.

(** [NGramDeduplicator(min_n, max_n)] *)
Record NGramDeduplicator := { min_n : Z; max_n : Z }.

(** [NGramDeduplicator()] *)
Definition default : NGramDeduplicator := {| min_n := 1; max_n := 30 |}.

(** [words[i:j]] for [0 <= i]: a slice is cut at the end of the list. *)
Definition slice (words : list string) (i j : nat) : list string :=
  firstn (j - i) (skipn i words).

(** [tuple(w.lower() for w in words[i:j])] *)
Definition lowered (words : list string) (i j : nat) : list string :=
  map lower (slice words i j).

(** Equality of two tuples of strings. *)
Fixpoint tuple_eqb (a b : list string) : bool :=
  match a, b with
  | [], [] => true
  | x :: a', y :: b' => String.eqb x y && tuple_eqb a' b'
  | _, _ => false
  end.

(** [sum(1 for a, b in zip(seg1, seg2) if a == b)] *)
Fixpoint matches (seg1 seg2 : list string) : nat :=
  match seg1, seg2 with
  | a :: seg1', b :: seg2' =>
      (if String.eqb a b then 1 else 0) + matches seg1' seg2'
  | _, _ => 0
  end.

(** [matches >= len(seg1) * 0.9]: the product is a float, and the integer
    is compared with it by value. *)
Definition enough_matches (m len : nat) : bool :=
  PrimFloat.leb (PrimFloat.mul (PyFloat.of_nat len) 0.9%float)
                (PyFloat.of_nat m).

Definition _segments_similar (seg1 seg2 : list string) : bool :=
  if tuple_eqb seg1 seg2 then true
  else if negb (List.length seg1 =? List.length seg2) then false
  else if 10 <=? List.length seg1
       then enough_matches (matches seg1 seg2) (List.length seg1)
       else false.

(** The inner [while] of [_remove_segment_repetitions]: the index after
    the last window that is similar to [current_segment]. *)
Fixpoint skip_similar (fuel : nat) (words : list string)
         (segment_size : nat) (current_segment : list string) (i : nat)
  : option nat :=
  match fuel with
  | O => None
  | S fuel' =>
      if i + segment_size <=? List.length words then
        if _segments_similar current_segment
                             (lowered words i (i + segment_size))
        then skip_similar fuel' words segment_size current_segment
                          (i + segment_size)
        else Some i
      else Some i
  end.

(** The outer [while] of [_remove_segment_repetitions]. *)
Fixpoint segment_loop (fuel : nat) (words : list string)
         (segment_size i : nat) (result : list string)
  : option (list string) :=
  match fuel with
  | O => None
  | S fuel' =>
      if i <? List.length words then
        if i + segment_size * 2 <=? List.length words then
          let current_segment := lowered words i (i + segment_size) in
          let next_segment :=
            lowered words (i + segment_size) (i + segment_size * 2) in
          if _segments_similar current_segment next_segment then
            match skip_similar (S (List.length words)) words segment_size
                               current_segment (i + segment_size) with
            | Some i' =>
                segment_loop fuel' words segment_size i'
                             (result ++ slice words i (i + segment_size))
            | None => None
            end
          else segment_loop fuel' words segment_size (i + 1)
                            (result ++ [nth i words EmptyString])
        else segment_loop fuel' words segment_size (i + 1)
                          (result ++ [nth i words EmptyString])
      else Some result
  end.

Definition _remove_segment_repetitions (words : list string)
           (segment_size : nat) : option (list string) :=
  if List.length words <? segment_size * 2 then Some words
  else segment_loop (S (List.length words)) words segment_size 0 [].

(** [range(start, stop, -1)] over the naturals: [start], [start - 1], ...,
    [stop + 1]. *)
Definition range_down (start stop : nat) : list nat :=
  rev (seq (S stop) (start - stop)).

(** The [for] loop of [_remove_large_repetitions]. *)
Fixpoint segment_sweep (sizes : list nat) (words : list string)
  : option (list string) :=
  match sizes with
  | [] => Some words
  | segment_size :: rest =>
      match _remove_segment_repetitions words segment_size with
      | Some words' => segment_sweep rest words'
      | None => None
      end
  end.

Definition segment_sizes (word_count : nat) : list nat :=
  range_down (Nat.min (word_count / 2) 25) 5.

Definition _remove_large_repetitions (text : string) : option string :=
  let words := split text in
  if List.length words <? 10 then Some text
  else option_map (join " ")
                  (segment_sweep (segment_sizes (List.length words)) words).

Definition _remove_consecutive_duplicates (text : string) : string :=
  match split text with
  | [] => text
  | first :: rest =>
      join " "
        (fold_left
           (fun result word =>
              if negb (String.eqb (lower word)
                                  (lower (last result EmptyString)))
              then result ++ [word] else result)
           rest [first])
  end.

(** The inner [while] of [_remove_repeated_ngrams]. *)
Fixpoint skip_repeats (fuel : nat) (words : list string) (n : nat)
         (current_ngram : list string) (i : nat) : option nat :=
  match fuel with
  | O => None
  | S fuel' =>
      if i + n <=? List.length words then
        if tuple_eqb (lowered words i (i + n)) current_ngram
        then skip_repeats fuel' words n current_ngram (i + n)
        else Some i
      else Some i
  end.

(** The outer [while] of [_remove_repeated_ngrams]. *)
Fixpoint ngram_loop (fuel : nat) (words : list string) (n i : nat)
         (result : list string) : option (list string) :=
  match fuel with
  | O => None
  | S fuel' =>
      if i <? List.length words then
        if i + n * 2 <=? List.length words then
          let current_ngram := lowered words i (i + n) in
          let next_ngram := lowered words (i + n) (i + n * 2) in
          if tuple_eqb current_ngram next_ngram then
            match skip_repeats (S (List.length words)) words n
                               current_ngram (i + n * 2) with
            | Some i' =>
                ngram_loop fuel' words n i' (result ++ slice words i (i + n))
            | None => None
            end
          else ngram_loop fuel' words n (i + 1)
                          (result ++ [nth i words EmptyString])
        else ngram_loop fuel' words n (i + 1)
                        (result ++ [nth i words EmptyString])
      else Some result
  end.

Definition _remove_repeated_ngrams (text : string) (n : nat)
  : option string :=
  let words := split text in
  if List.length words <? n * 2 then Some text
  else option_map (join " ") (ngram_loop (S (List.length words)) words n 0 []).

(** [range(start, stop, -1)] over the integers. *)
Definition z_range_down (start stop : Z) : list Z :=
  map (fun k => (start - Z.of_nat k)%Z) (seq 0 (Z.to_nat (start - stop))).

(** A [for n in range(...)] sweep of [_remove_repeated_ngrams]. A negative
    [n] is never reached by the Python loop on a text that has a word: the
    sweep passes [n = 0] first, where the scan does not terminate. *)
Fixpoint ngram_sweep (sizes : list Z) (text : string) : option string :=
  match sizes with
  | [] => Some text
  | n :: rest =>
      match _remove_repeated_ngrams text (Z.to_nat n) with
      | Some text' => ngram_sweep rest text'
      | None => None
      end
  end.

(** [deduplicate_text]; the logging of a heavy reduction is left out. *)
Definition deduplicate_text (self : NGramDeduplicator) (text : string)
  : option string :=
  if is_empty text || is_empty (strip text) then Some EmptyString
  else
    match _remove_large_repetitions text with
    | None => None
    | Some text =>
        match ngram_sweep (z_range_down (Z.min (max_n self) 20) 4) text with
        | None => None
        | Some text =>
            match ngram_sweep (z_range_down 4 (min_n self)) text with
            | None => None
            | Some text =>
                let text := _remove_consecutive_duplicates text in
                Some (strip (re_sub m_spaces " " text))
            end
        end
    end.

End Deduplicator.


(* ================================================================== *)
(** ** The range of a metric *)
(* ================================================================== *)

Module Range.
Local Open Scope float_scope.

(** [0.0 <= x <= 1.0], which no NaN satisfies. *)
Definition in_unit_interval (x : float) : bool := (0.0 <=? x) && (x <=? 1.0).

End Range.

(* ================================================================== *)
(** ** src/comparator/cer.py: the detailed variant *)
(* ================================================================== *)

Module Detailed.
Import PyStr PyFloat Normalizer Scorer.

(** The dict that [CERCalculator.calculate_detailed] returns. *)
Record CERDetails := {
  d_cer : float;
  reference_chars : Z;
  hypothesis_chars : Z;
  char_difference : Z
}.

(** [CERCalculator.calculate_detailed]: the texts are normalized here and
    then handed to [calculate], which normalizes them again. *)
Definition cer_calculate_detailed (self : CERCalculator)
           (reference hypothesis : string) : CERDetails :=
  let '(reference, hypothesis) :=
    apply_normalizer (cer_normalizer self) reference hypothesis in
  let cer := cer_calculate self reference hypothesis in
  {| d_cer := cer;
     reference_chars := Z.of_nat (String.length reference);
     hypothesis_chars := Z.of_nat (String.length hypothesis);
     char_difference :=
       Z.abs (Z.of_nat (String.length reference)
              - Z.of_nat (String.length hypothesis)) |}.

End Detailed.

(* ================================================================== *)
(** ** src/models/comparison.py: MetricsSummary *)
(* ================================================================== *)

Module Summary.
Import PyFloat Comparison.
Local Open Scope float_scope.

Record MetricsSummary := mkSummary {
  avg_wer : float;
  avg_cer : float;
  avg_semantic_similarity : float;
  avg_hybrid_score : float;
  min_wer : float;
  max_wer : float;
  std_wer : float;
  min_cer : float;
  max_cer : float;
  std_cer : float;
  total_chunks : Z
}.

(** [min(values)] and [max(values)] on a non-empty list: the first value is
    kept until a later one is strictly smaller (greater). *)
Definition min_of (first : float) (rest : list float) : float :=
  fold_left py_min rest first.
Definition max_of (first : float) (rest : list float) : float :=
  fold_left py_max rest first.

(** [[r.hybrid_score for r in results if r.hybrid_score is not None]] *)
Fixpoint hybrids_of (results : list ComparisonResult) : list float :=
  match results with
  | [] => []
  | r :: rest =>
      match hybrid_score r with
      | Some h => h :: hybrids_of rest
      | None => hybrids_of rest
      end
  end.

Section Statistics.
(** [statistics.mean] and [statistics.stdev] of the Python library; [None]
    is the [StatisticsError] they raise. *)
Variable mean : list float -> option float.
Variable stdev : list float -> option float.

(** [MetricsSummary.from_results]; [None] is an exception that escapes. *)
Definition from_results (results : list ComparisonResult)
  : option MetricsSummary :=
  match results with
  | [] => Some (mkSummary 0.0 0.0 0.0 0.0 0.0 0.0 0.0 0.0 0.0 0.0 0)
  | r :: rest =>
      let wers := map wer results in
      let cers := map cer results in
      let sims := map semantic_similarity results in
      let hybrids := hybrids_of results in
      match mean wers, mean cers, mean sims,
            (match hybrids with [] => Some 0.0 | _ => mean hybrids end),
            (if (1 <? List.length wers)%nat then stdev wers else Some 0.0),
            (if (1 <? List.length cers)%nat then stdev cers else Some 0.0)
      with
      | Some aw, Some ac, Some asim, Some ah, Some sw, Some sc =>
          Some (mkSummary aw ac asim ah
                          (min_of (wer r) (map wer rest))
                          (max_of (wer r) (map wer rest)) sw
                          (min_of (cer r) (map cer rest))
                          (max_of (cer r) (map cer rest)) sc
                          (Z.of_nat (List.length results)))
      | _, _, _, _, _, _ => None
      end
  end.

End Statistics.

(** A mean and a standard deviation that behave as the library's do on
    short input (the values themselves play no role here): the mean of no
    data and the deviation of fewer than two points are errors. *)
Definition sample_mean (data : list float) : option float :=
  match data with
  | [] => None
  | x :: rest =>
      Some (fold_left PrimFloat.add rest x / of_nat (List.length data))
  end.

Definition sample_stdev (data : list float) : option float :=
  match data with
  | _ :: _ :: _ => Some 0.0
  | _ => None
  end.

End Summary.

(* ================================================================== *)
(** ** src/models/transcript.py and the transcript wrappers of ngram.py *)
(* ================================================================== *)

Module Transcripts.
Import PyStr Deduplicator.

(** The dataclass; [created_at] is kept as the ISO-8601 text of the
    timestamp. *)
Record Transcript := mkTranscript {
  text : string;
  model_name : string;
  chunk_index : Z;
  confidence : float;
  language : option string;
  processing_time : float;
  raw_text : option string;
  deduplicated : bool;
  created_at : string
}.

Definition __post_init__ (self : Transcript) : Transcript :=
  match raw_text self with
  | None =>
      mkTranscript (text self) (model_name self) (chunk_index self)
                   (confidence self) (language self) (processing_time self)
                   (Some (text self)) (deduplicated self) (created_at self)
  | Some _ => self
  end.

(** [Transcript(...)]: the generated [__init__] followed by
    [__post_init__]. *)
Definition new (now : string) (text model_name : string) (chunk_index : Z)
           (confidence : float) (language : option string)
           (processing_time : float) (raw_text : option string)
           (deduplicated : bool) : Transcript :=
  __post_init__ (mkTranscript text model_name chunk_index confidence language
                              processing_time raw_text deduplicated now).

(** The property [word_count]. *)
Definition word_count (self : Transcript) : nat :=
  List.length (split (text self)).

(** [NGramDeduplicator.deduplicate_transcript]; [None] when
    [deduplicate_text] does not return. The debug log is left out. *)
Definition deduplicate_transcript (self : NGramDeduplicator) (now : string)
           (transcript : Transcript) : option Transcript :=
  let original_text := text transcript in
  match deduplicate_text self original_text with
  | None => None
  | Some cleaned_text =>
      Some (new now cleaned_text (model_name transcript)
                (chunk_index transcript) (confidence transcript)
                (language transcript) (processing_time transcript)
                (Some original_text) true)
  end.

(** [NGramDeduplicator.deduplicate_transcripts]: the list comprehension;
    [clock i] is the clock reading when the [i]-th result is built. *)
Fixpoint deduplicate_from (self : NGramDeduplicator) (clock : nat -> string)
         (i : nat) (transcripts : list Transcript)
  : option (list Transcript) :=
  match transcripts with
  | [] => Some []
  | t :: rest =>
      match deduplicate_transcript self (clock i) t with
      | None => None
      | Some t' =>
          match deduplicate_from self clock (S i) rest with
          | None => None
          | Some rest' => Some (t' :: rest')
          end
      end
  end.

Definition deduplicate_transcripts (self : NGramDeduplicator)
           (clock : nat -> string) (transcripts : list Transcript)
  : option (list Transcript) :=
  deduplicate_from self clock 0 transcripts.

(** No two neighbours are the same word up to case. *)
Fixpoint no_adjacent_duplicates (words : list string) : bool :=
  match words with
  | a :: ((b :: _) as rest) =>
      negb (String.eqb (lower a) (lower b)) && no_adjacent_duplicates rest
  | _ => true
  end.

End Transcripts.

(* ================================================================== *)
(** ** src/comparator/semantic.py and hybrid.py: batches and unloading *)
(* ================================================================== *)

Module Batch.
Import PyStr PyFloat Normalizer Scorer.
Local Open Scope float_scope.

Section Backend.
Variable backend_loads : bool.
Variable cos_sim : string -> string -> option float.

(** The [for] loop of [calculate_batch]. *)
Fixpoint batch_loop (self : SemanticSimilarity)
         (text_pairs : list (string * string)) (results : list float)
  : M (list float) :=
  match text_pairs with
  | [] => ret results
  | (text1, text2) :: rest =>
      bind (sem_calculate backend_loads cos_sim self text1 text2)
           (fun score => batch_loop self rest (results ++ [score]))
  end.

(** [SemanticSimilarity.calculate_batch] *)
Definition calculate_batch (self : SemanticSimilarity)
           (text_pairs : list (string * string)) : M (list float) :=
  bind (_load_model backend_loads) (fun _ => batch_loop self text_pairs []).

(** [SemanticSimilarity.unload_model] (and [HybridScore.unload_models],
    which forwards to it): the model slot is cleared; releasing the CUDA
    cache and the log line leave the world as it is. *)
Definition unload_model : M unit := fun w =>
  (Ok tt, mkWorld false (encode_calls w) (ticks w)).

Definition unload_models (self : HybridScore) : M unit := unload_model.

(** The normalized pair that [calculate] would send to [encode], if any. *)
Definition encoded_pair (self : SemanticSimilarity) (pair : string * string)
  : list (string * string) :=
  let '(n1, n2) :=
    apply_normalizer (sem_normalizer self) (fst pair) (snd pair) in
  if blank n1 || blank n2 then [] else [(n1, n2)].

End Backend.

End Batch.
(* ================================================================== *)
(** * Properties *)
(* ================================================================== *)

(** ** Strings *)

Module PyStrFacts.
Import PyStr.

Lemma is_empty_true (s : string) : is_empty s = true <-> s = EmptyString.
Proof. destruct s; simpl; split; congruence. Qed.

Lemma lstrip_head (s : string) :
  match lstrip s with
  | EmptyString => True
  | String c _ => is_space c = false
  end.
Proof.
  induction s as [|c r IH]; simpl; [exact I|].
  destruct (is_space c) eqn:E; [exact IH | exact E].
Qed.

Lemma rstrip_head (c : ascii) (r : string) :
  is_space c = false -> exists r', rstrip (String c r) = String c r'.
Proof.
  intros E. simpl. destruct (rstrip r); rewrite ?E; eauto.
Qed.

Lemma rstrip_idempotent (s : string) : rstrip (rstrip s) = rstrip s.
Proof.
  induction s as [|c r IH]; simpl; [reflexivity|].
  destruct (rstrip r) as [|d r'] eqn:R.
  - destruct (is_space c) eqn:E; simpl; [reflexivity | now rewrite E].
  - change (rstrip (String c (String d r')) = String c (String d r')).
    simpl. simpl in IH. destruct (rstrip r') eqn:R'.
    + destruct (is_space d); [discriminate | now rewrite IH].
    + now rewrite IH.
Qed.

Lemma lstrip_fixed (s : string) :
  match s with EmptyString => True | String c _ => is_space c = false end ->
  lstrip s = s.
Proof. destruct s as [|c r]; simpl; [reflexivity | now intros ->]. Qed.

Lemma strip_idempotent (s : string) : strip (strip s) = strip s.
Proof.
  unfold strip. pose proof (lstrip_head s) as H.
  destruct (lstrip s) as [|c r] eqn:L; [reflexivity|].
  destruct (rstrip_head c r H) as [r' R]. rewrite R.
  rewrite lstrip_fixed by exact H. rewrite <- R. apply rstrip_idempotent.
Qed.

End PyStrFacts.

(** ** The normalizer on the scenario of the specification *)

Module NormalizerFacts.
Import PyStr Normalizer PyStrFacts.

(** The default normalizer ends with [strip], so its output is blank only
    when it is empty. *)
Lemma normalize_default_stripped (text : string) :
  strip (normalize default text) = normalize default text.
Proof.
  unfold normalize. destruct (is_empty text); [reflexivity|].
  cbn [lowercase expand_contractions numbers_to_words remove_punctuation
       collapse_whitespace default].
  unfold collapse. apply strip_idempotent.
Qed.

(** C5, as stated, fails: the default normalizer leaves digits alone, so the
    output for the scenario does not contain "onetwothree". *)
Lemma C5_default_keeps_digits :
  contains "onetwothree" (normalize default scenario) = false.
Proof. reflexivity. Qed.

(** C5, amended: with the default configuration the scenario normalizes to
    "hello world it is 123": single-spaced, lowercase, free of punctuation,
    with the contraction expanded and the digits kept; with
    [numbers_to_words] enabled it normalizes to
    "hello world it is onetwothree". *)
Theorem C5_scenario :
  normalize default scenario = "hello world it is 123"
  /\ collapse (normalize default scenario) = normalize default scenario
  /\ lower (normalize default scenario) = normalize default scenario
  /\ string_forall (fun c => is_word c || is_space c)
                   (normalize default scenario) = true
  /\ contains "it is" (normalize default scenario) = true
  /\ contains "123" (normalize default scenario) = true
  /\ numbers_to_words default = false
  /\ normalize with_numbers scenario = "hello world it is onetwothree".
Proof. repeat split; reflexivity. Qed.

End NormalizerFacts.

(** ** Floats *)

Module PyFloatFacts.
Import PyFloat.
Local Open Scope float_scope.

(** Clamping as the error-rate calculators write it,
    [min(1.0, max(0.0, x))]: the result is 0, 1, or [x] itself strictly
    between them. *)
Lemma clamp_rate_cases (x : float) :
  let c := py_min 1.0 (py_max 0.0 x) in
  c = 0.0 \/ c = 1.0 \/ (c = x /\ (0.0 <? x) = true /\ (x <? 1.0) = true).
Proof.
  unfold py_min, py_max. destruct (0.0 <? x) eqn:P.
  - destruct (x <? 1.0) eqn:Q; auto.
  - change (0.0 <? 1.0) with true. cbv iota. auto.
Qed.

(** Clamping as the semantic wrapper writes it, [max(0.0, min(1.0, x))]. *)
Lemma clamp_similarity_cases (x : float) :
  let c := py_max 0.0 (py_min 1.0 x) in
  c = 0.0 \/ c = 1.0 \/ (c = x /\ (0.0 <? x) = true /\ (x <? 1.0) = true).
Proof.
  unfold py_min, py_max. destruct (x <? 1.0) eqn:Q.
  - destruct (0.0 <? x) eqn:P; auto.
  - change (0.0 <? 1.0) with true. cbv iota. auto.
Qed.




End PyFloatFacts.

(** ** The comparison record *)

Module ComparisonFacts.
Import PyFloat Comparison PyFloatFacts.
Local Open Scope float_scope.

(** The constructor keeps a hybrid score that is given and computes one
    that is omitted. *)
Lemma new_keeps_given_hybrid now i t c w ce s h :
  Comparison.new now i t c w ce s (Some h) = mkResult i t c w ce s (Some h) now.
Proof. reflexivity. Qed.

Lemma new_fills_hybrid now i t c w ce s :
  Comparison.new now i t c w ce s None
  = mkResult i t c w ce s
      (Some (default_alpha * (1.0 - py_min w 1.0) + (1 - default_alpha) * s))
      now.
Proof. reflexivity. Qed.

Lemma from_dict_to_dict (now : string) (r : ComparisonResult) :
  from_dict now (to_dict r)
  = Some (Comparison.new now (chunk_index r) (normalized_transcript r)
            (normalized_caption r) (round4 (wer r)) (round4 (cer r))
            (round4 (semantic_similarity r))
            (match hybrid_score r with
             | Some h => if truthy h then Some (round4 h) else None
             | None => None
             end)).
Proof.
  unfold from_dict, to_dict, get_int, get_str, get_float, get_optional_float.
  cbn [lookup String.eqb Ascii.eqb Bool.eqb].
  destruct (hybrid_score r) as [h|]; [destruct (truthy h)|]; reflexivity.
Qed.




End ComparisonFacts.

(** ** The calculators and the hybrid scorer *)

Module ScorerFacts.
Import PyStr PyFloat Normalizer Comparison Scorer.
Import PyStrFacts NormalizerFacts PyFloatFacts.
Local Open Scope float_scope.

(** After the default normalizer, blank and empty are the same. *)
Lemma blank_normalized (text : string) :
  blank (normalize Normalizer.default text)
  = is_empty (normalize Normalizer.default text).
Proof. unfold blank. now rewrite normalize_default_stripped. Qed.

(** In the branch where one text is blank, comparing the stripped texts
    tells whether both are. *)
Lemma stripped_equal_when_blank (a b : string) :
  blank a || blank b = true ->
  String.eqb (strip a) (strip b) = blank a && blank b.
Proof.
  unfold blank. destruct (strip a) as [|x a'], (strip b) as [|y b'];
    simpl; try reflexivity; discriminate.
Qed.

Section Backend.
Variable backend_loads : bool.
Variable cos_sim : string -> string -> option float.
Variable timestamp : nat -> string.

Abbreviation sem_calculate := (sem_calculate backend_loads cos_sim).
Abbreviation compare := (compare backend_loads cos_sim timestamp).
Abbreviation compare_all := (compare_all backend_loads cos_sim timestamp).
Abbreviation compare_loop := (compare_loop backend_loads cos_sim timestamp).
Abbreviation scored := (scored cos_sim).
Abbreviation sem_value := (sem_value cos_sim).

(** [SemanticSimilarity.calculate], branch by branch. *)
Lemma sem_calculate_spec (self : SemanticSimilarity)
      (text1 text2 : string) (w : World) :
  sem_calculate self text1 text2 w =
  if model_loaded w || backend_loads then
    let '(n1, n2) := apply_normalizer (sem_normalizer self) text1 text2 in
    if blank n1 || blank n2
    then (Ok (if blank n1 && blank n2 then 1.0 else 0.0),
          if model_loaded w then w else loaded w)
    else (Ok (clamp_similarity (cos_sim n1 n2)),
          mkWorld true (encode_calls w ++ [(n1, n2)]) (ticks w))
  else (Raise BackendError, w).
Proof.
  unfold Scorer.sem_calculate, bind, _load_model, loaded.
  destruct (model_loaded w) eqn:L; simpl.
  - destruct (apply_normalizer _ _ _) as [n1 n2].
    destruct (blank n1 || blank n2) eqn:B.
    + unfold ret. now rewrite (stripped_equal_when_blank _ _ B).
    + unfold encode_and_compare. rewrite L.
      destruct (cos_sim n1 n2); reflexivity.
  - destruct backend_loads; [|reflexivity].
    destruct (apply_normalizer _ _ _) as [n1 n2].
    destruct (blank n1 || blank n2) eqn:B.
    + unfold ret. now rewrite (stripped_equal_when_blank _ _ B).
    + unfold encode_and_compare. cbn.
      destruct (cos_sim n1 n2); reflexivity.
Qed.

Lemma sem_calculate_value (self : SemanticSimilarity)
      (text1 text2 : string) (w : World) :
  model_loaded w || backend_loads = true ->
  exists w', sem_calculate self text1 text2 w
             = (Ok (sem_value self text1 text2), w')
             /\ model_loaded w' = true /\ ticks w' = ticks w.
Proof.
  intros A. rewrite sem_calculate_spec, A. unfold Scorer.sem_value.
  destruct (apply_normalizer _ _ _) as [n1 n2].
  destruct (blank n1 || blank n2) eqn:B.
  - rewrite (stripped_equal_when_blank _ _ B). eexists. split; [reflexivity|].
    destruct (model_loaded w) eqn:L; [now rewrite L | now cbn].
  - eexists. split; [reflexivity|]. now cbn.
Qed.

(** [HybridScore.compare]: it raises only when the model cannot be
    loaded, and otherwise returns the record [scored]. *)
Lemma compare_spec (self : HybridScore) (reference hypothesis : string)
      (index : Z) (w : World) :
  (model_loaded w || backend_loads = true /\
   exists w', compare self reference hypothesis index w
              = (Ok (scored self reference hypothesis index
                       (timestamp (ticks w))), w')
              /\ model_loaded w' = true /\ ticks w' = S (ticks w))
  \/ (model_loaded w || backend_loads = false /\
      compare self reference hypothesis index w = (Raise BackendError, w)).
Proof.
  destruct (model_loaded w || backend_loads) eqn:A; [left | right];
    (split; [reflexivity|]).
  - destruct (sem_calculate_value (semantic_calc self) reference
                hypothesis w A) as (w' & E & L & T).
    unfold Scorer.compare, calculate, bind. rewrite E. unfold ret.
    unfold Scorer.scored.
    destruct (apply_normalizer _ _ _) as [norm_ref norm_hyp].
    unfold now. eexists. split; [rewrite T; reflexivity|]. cbn. auto.
  - unfold Scorer.compare, calculate, bind.
    rewrite sem_calculate_spec, A. reflexivity.
Qed.

Lemma scored_fields (self : HybridScore) (reference hypothesis : string)
      (index : Z) (t : string) :
  let r := scored self reference hypothesis index t in
  chunk_index r = index
  /\ wer r = wer_calculate (wer_calc self) reference hypothesis
  /\ cer r = cer_calculate (cer_calc self) reference hypothesis
  /\ semantic_similarity r
     = sem_value (semantic_calc self) reference hypothesis
  /\ hybrid_score r
     = Some (alpha self * (1.0 - py_min (wer r) 1.0)
             + (1 - alpha self) * semantic_similarity r).
Proof.
  unfold Scorer.scored. destruct (apply_normalizer _ _ _) as [a b].
  cbn. repeat split.
Qed.

(** C1: the record that [HybridScore.compare] returns stores
    [alpha * (1.0 - min(wer, 1.0)) + (1 - alpha) * semantic_similarity]
    for its own [wer] and [semantic_similarity] and the scorer's [alpha]
    ([compare] raises only when the embedding model cannot be loaded);
    a [ComparisonResult] constructed without [hybrid_score] stores the
    same formula with the default [alpha = 0.5]; and [HybridScore()] has
    [alpha = 0.5]. *)
Theorem C1_hybrid_score_formula :
  (forall (self : HybridScore) (reference hypothesis : string)
          (index : Z) (w : World),
      match compare self reference hypothesis index w with
      | (Ok r, _) =>
          hybrid_score r
          = Some (alpha self * (1.0 - py_min (wer r) 1.0)
                  + (1 - alpha self) * semantic_similarity r)
      | (Raise e, _) =>
          e = BackendError /\ model_loaded w || backend_loads = false
      end)
  /\ (forall (now : string) (index : Z) (transcript caption : string)
             (w c s : float),
         let r := Comparison.new now index transcript caption w c s None in
         wer r = w /\ semantic_similarity r = s
         /\ hybrid_score r
            = Some (0.5 * (1.0 - py_min (wer r) 1.0)
                    + (1 - 0.5) * semantic_similarity r))
  /\ alpha default_hybrid = 0.5
  /\ (forall a n c, alpha (new_hybrid a n c) = a).
Proof.
  split; [|split; [|split]].
  - intros self reference hypothesis index w.
    destruct (compare_spec self reference hypothesis index w)
      as [(_ & w' & E & _) | (A & E)]; rewrite E.
    + apply scored_fields.
    + auto.
  - intros now index transcript caption w c s r. subst r.
    rewrite ComparisonFacts.new_fills_hybrid. cbn. repeat split.
  - reflexivity.
  - reflexivity.
Qed.

(** C8: when a normalized input is blank, [SemanticSimilarity.calculate]
    returns 1.0 if both are and 0.0 otherwise and sends nothing to
    [encode]; otherwise it sends the normalized pair to [encode] once and
    returns the cosine similarity clamped by [max(0.0, min(1.0, x))],
    which is 0, 1 or the similarity itself strictly between them (0.0
    when the backend raises). It raises only when the model cannot be
    loaded, before anything is encoded. With the default normalizer a
    normalized text is blank exactly when it is empty. *)
Theorem C8_semantic_degenerate_inputs :
  (forall (self : SemanticSimilarity) (text1 text2 : string) (w : World),
      let '(n1, n2) :=
        apply_normalizer (sem_normalizer self) text1 text2 in
      match sem_calculate self text1 text2 w with
      | (Ok v, w') =>
          if blank n1 || blank n2
          then v = (if blank n1 && blank n2 then 1.0 else 0.0)
               /\ encode_calls w' = encode_calls w
          else encode_calls w' = encode_calls w ++ [(n1, n2)]
               /\ match cos_sim n1 n2 with
                  | Some s =>
                      v = py_max 0.0 (py_min 1.0 s)
                      /\ (v = 0.0 \/ v = 1.0
                          \/ (v = s /\ (0.0 <? s) = true
                              /\ (s <? 1.0) = true))
                  | None => v = 0.0
                  end
      | (Raise e, w') =>
          e = BackendError /\ w' = w
          /\ model_loaded w || backend_loads = false
      end)
  /\ (forall text : string,
         sem_normalizer (new_semantic true) = Some Normalizer.default
         /\ blank (normalize Normalizer.default text)
            = is_empty (normalize Normalizer.default text)).
Proof.
  split.
  - intros self text1 text2 w. rewrite sem_calculate_spec.
    destruct (apply_normalizer _ _ _) as [n1 n2].
    destruct (model_loaded w || backend_loads) eqn:A; [|auto].
    destruct (blank n1 || blank n2) eqn:B.
    + split; [reflexivity|]. now destruct (model_loaded w).
    + split; [reflexivity|]. unfold clamp_similarity.
      destruct (cos_sim n1 n2) as [s|]; [|reflexivity].
      split; [reflexivity | apply clamp_similarity_cases].
  - intros text. split; [reflexivity | apply blank_normalized].
Qed.

(** The loop of [compare_all], started at position [i] with the model
    available. *)
Lemma compare_loop_spec (self : HybridScore) :
  forall (pairs : list (string * string)) (i : nat)
         (acc : list ComparisonResult) (w : World),
    model_loaded w || backend_loads = true ->
    exists results w',
      compare_loop self i pairs acc w = (Ok (acc ++ results), w')
      /\ List.length results = List.length pairs
      /\ forall k, (k < List.length pairs)%nat ->
           nth_error results k
           = Some (scored self
                     (fst (nth k pairs (EmptyString, EmptyString)))
                     (snd (nth k pairs (EmptyString, EmptyString)))
                     (Z.of_nat (i + k)) (timestamp (ticks w + k))).
Proof.
  induction pairs as [|[ref hyp] rest IH]; intros i acc w A.
  - exists [], w. cbn. rewrite app_nil_r. repeat split. intros k Hk. lia.
  - destruct (compare_spec self ref hyp (Z.of_nat i) w)
      as [(_ & w1 & E & L & T) | (A' & _)]; [|congruence].
    destruct (IH (S i) (acc ++ [scored self ref hyp (Z.of_nat i)
                                  (timestamp (ticks w))]) w1) as
        (results & w' & E' & Hlen & Hnth); [now rewrite L|].
    exists (scored self ref hyp (Z.of_nat i) (timestamp (ticks w))
              :: results), w'.
    split; [|split].
    + cbn [Scorer.compare_loop]. unfold bind at 1. rewrite E, E'.
      now rewrite <- app_assoc.
    + cbn. now rewrite Hlen.
    + intros [|k] Hk; cbn.
      * now rewrite !Nat.add_0_r.
      * cbn in Hk. rewrite Hnth by lia. rewrite T.
        now rewrite <- !Nat.add_succ_comm.
Qed.

(** C7: [compare_all] raises [ValueError] (the [InvalidArgument] of the
    specification), before scoring anything, when the two lists differ
    in length; when they have the same length and the embedding model can
    be loaded, it returns one record per pair, in input order, the record
    at position [i] being what [compare] builds for the [i]-th pair with
    [chunk_index = i]. *)
Theorem C7_compare_all :
  forall (self : HybridScore) (references hypotheses : list string)
         (w : World),
    (List.length references <> List.length hypotheses ->
     compare_all self references hypotheses w
     = (Raise (ValueError
                 "Reference and hypothesis lists must have same length"),
        w))
    /\ (List.length references = List.length hypotheses ->
        model_loaded w || backend_loads = true ->
        exists results w',
          compare_all self references hypotheses w = (Ok results, w')
          /\ List.length results = List.length references
          /\ forall i, (i < List.length references)%nat ->
               exists r,
                 nth_error results i = Some r
                 /\ r = scored self (nth i references EmptyString)
                               (nth i hypotheses EmptyString)
                               (Z.of_nat i) (timestamp (ticks w + i))
                 /\ chunk_index r = Z.of_nat i).
Proof.
  intros self references hypotheses w. unfold Scorer.compare_all. split.
  - intros N. apply Nat.eqb_neq in N. now rewrite N.
  - intros E A. rewrite (proj2 (Nat.eqb_eq _ _) E). cbn [negb].
    destruct (compare_loop_spec self (combine references hypotheses) 0 []
                w A) as (results & w' & E' & Hlen & Hnth).
    exists results, w'. split; [exact E'|].
    rewrite length_combine, <- E, Nat.min_id in Hlen, Hnth.
    split; [exact Hlen|]. intros i Hi. eexists. split; [apply Hnth, Hi|].
    rewrite combine_nth by exact E. cbn [fst snd Nat.add].
    split; [reflexivity | apply scored_fields].
Qed.

End Backend.

(** An instance of C7 with a backend that loads and returns similarity
    0.75: two references against one hypothesis are refused, one against
    one is scored. *)
Lemma C7_compare_all_witness :
  let w := mkWorld false [] 0 in
  let run := compare_all true (fun _ _ => Some 0.75)
                         (fun _ => "2024-01-01T00:00:00")
                         (default_hybrid) in
  run ["a"; "b"] ["a"] w
  = (Raise (ValueError
              "Reference and hypothesis lists must have same length"), w)
  /\ exists results w',
       run ["hello world"] ["hello there"] w = (Ok results, w')
       /\ List.length results = 1%nat.
Proof.
  cbv zeta. split.
  - apply (proj1 (C7_compare_all true (fun _ _ => Some 0.75)
                    (fun _ => "2024-01-01T00:00:00") default_hybrid
                    ["a"; "b"] ["a"] (mkWorld false [] 0))).
    cbn. lia.
  - destruct (proj2 (C7_compare_all true (fun _ _ => Some 0.75)
                       (fun _ => "2024-01-01T00:00:00") default_hybrid
                       ["hello world"] ["hello there"]
                       (mkWorld false [] 0)) eq_refl eq_refl)
      as (results & w' & E & L & _).
    exists results, w'. split; [exact E | exact L].
Defined.

(** C2: after normalization, [WERCalculator.calculate] and
    [CERCalculator.calculate] return 0.0 when reference and hypothesis are
    both blank, 1.0 when exactly one is, and otherwise the edit distance
    divided by [max(1, |reference sequence|)] (words for WER, characters
    for CER) clamped by [min(1.0, max(0.0, x))], which is 0, 1 or the rate
    itself strictly between them. For the default normalizer a normalized
    text is blank exactly when it is empty. The oracles of the
    specification follow, with one inserted word out of two reference words
    (0.5), three words against one (3.0, clamped to 1.0) and one deleted
    character out of five. *)
Theorem C2_error_rate_cases :
  (forall (normalize : bool) (reference hypothesis : string),
      let '(r, h) :=
        apply_normalizer (make_normalizer normalize) reference hypothesis in
      wer_calculate (new_wer normalize) reference hypothesis
      = (if blank r && blank h then 0.0
         else if blank r || blank h then 1.0
         else py_min 1.0 (py_max 0.0
                (EditDistance.rate
                   (EditDistance.levenshtein String.eqb (split r) (split h))
                   (List.length (split r)))))
      /\ cer_calculate (new_cer normalize) reference hypothesis
         = (if blank r && blank h then 0.0
            else if blank r || blank h then 1.0
            else py_min 1.0 (py_max 0.0
                   (EditDistance.rate
                      (EditDistance.levenshtein Ascii.eqb
                         (list_ascii_of_string r) (list_ascii_of_string h))
                      (List.length (list_ascii_of_string r))))))
  /\ (forall distance n : nat,
         EditDistance.rate distance n
         = of_nat distance / of_nat (Nat.max 1 n))
  /\ (forall x : float,
         let c := py_min 1.0 (py_max 0.0 x) in
         c = 0.0 \/ c = 1.0
         \/ (c = x /\ (0.0 <? x) = true /\ (x <? 1.0) = true))
  /\ (forall text : string,
         blank (normalize Normalizer.default text)
         = is_empty (normalize Normalizer.default text))
  /\ wer_calculate (new_wer true) "" "" = 0.0
  /\ wer_calculate (new_wer true) "" "anything nonempty" = 1.0
  /\ wer_calculate (new_wer true) "anything" "" = 1.0
  /\ cer_calculate (new_cer true) "" "" = 0.0
  /\ cer_calculate (new_cer true) "" "x" = 1.0
  /\ cer_calculate (new_cer true) "x" "" = 1.0
  /\ wer_calculate (new_wer true) "hello world" "hello there world" = 0.5
  /\ wer_calculate (new_wer true) "a" "b c d" = 1.0
  /\ cer_calculate (new_cer true) "hello" "helo" = 1 / 5.
Proof.
  split; [|split; [|split; [|split; [|repeat split; vm_compute; reflexivity]]]].
  - intros normalize reference hypothesis.
    unfold wer_calculate, cer_calculate, new_wer, new_cer.
    cbn [wer_normalizer cer_normalizer].
    destruct (apply_normalizer _ _ _) as [r h].
    unfold EditDistance.calculate_wer, EditDistance.calculate_cer.
    destruct (blank r), (blank h); split; reflexivity.
  - reflexivity.
  - apply clamp_rate_cases.
  - apply blank_normalized.
Qed.

End ScorerFacts.

(** ** Subsequences *)

Module SubseqFacts.

Section Lists.
Context {A : Type}.
Implicit Types l : list A.

Lemma subseq_refl l : subseq l l.
Proof. induction l; constructor; assumption. Qed.

Lemma subseq_nil_l l : subseq [] l.
Proof. induction l; constructor; assumption. Qed.

Lemma subseq_length l1 l2 :
  subseq l1 l2 -> (List.length l1 <= List.length l2)%nat.
Proof. induction 1; simpl; lia. Qed.

Lemma subseq_app l1 l2 l3 l4 :
  subseq l1 l2 -> subseq l3 l4 -> subseq (l1 ++ l3) (l2 ++ l4).
Proof.
  induction 1; intros H'; simpl;
    [exact H' | apply subseq_skip | apply subseq_keep]; auto.
Qed.

Lemma subseq_app_r l1 l2 l3 : subseq l1 l2 -> subseq l1 (l2 ++ l3).
Proof.
  intros H. rewrite <- (app_nil_r l1).
  apply subseq_app; [exact H | apply subseq_nil_l].
Qed.

Lemma subseq_trans l1 l2 l3 : subseq l1 l2 -> subseq l2 l3 -> subseq l1 l3.
Proof.
  intros H12 H23. revert l1 H12.
  induction H23 as [|x l2 l3 H IH|x l2 l3 H IH]; intros l1 H12.
  - exact H12.
  - constructor. now apply IH.
  - inversion H12; subst; constructor; now apply IH.
Qed.

Lemma subseq_Forall (P : A -> Prop) l1 l2 :
  subseq l1 l2 -> Forall P l2 -> Forall P l1.
Proof.
  induction 1; intros F; [constructor | |];
    inversion F; subst; auto.
Qed.

Lemma subseq_firstn n l : subseq (firstn n l) l.
Proof.
  rewrite <- (firstn_skipn n l) at 2. apply subseq_app_r, subseq_refl.
Qed.

End Lists.

End SubseqFacts.

(** ** Splitting into words *)

Module SplitFacts.
Import PyStr PyStrFacts.

Lemma append_nil_r (s : string) : (s ++ "")%string = s.
Proof. induction s; simpl; congruence. Qed.

Lemma append_assoc (a b c : string) :
  ((a ++ b) ++ c)%string = (a ++ (b ++ c))%string.
Proof. induction a; simpl; congruence. Qed.

Lemma no_space_app (a b : string) :
  no_space (a ++ b) = no_space a && no_space b.
Proof.
  unfold no_space. induction a as [|c a IH]; simpl; [reflexivity|].
  now rewrite IH, andb_assoc.
Qed.

Lemma is_empty_app (a b : string) :
  is_empty (a ++ b) = is_empty a && is_empty b.
Proof. destruct a; reflexivity. Qed.

(** Reading a run of non-whitespace characters extends the current word. *)
Lemma split_go_token (w rest cur : string) :
  no_space w = true ->
  split_go cur (w ++ rest) = split_go (cur ++ w) rest.
Proof.
  revert cur. induction w as [|c w IH]; intros cur H; simpl.
  - now rewrite append_nil_r.
  - unfold no_space in H. simpl in H. apply andb_true_iff in H as [Hc Hw].
    apply negb_true_iff in Hc. rewrite Hc, IH by exact Hw.
    now rewrite append_assoc.
Qed.

Lemma split_go_tokens (s cur : string) :
  no_space cur = true ->
  Forall (fun w => is_token w = true) (split_go cur s).
Proof.
  revert cur. induction s as [|c r IH]; intros cur H; simpl.
  - destruct (is_empty cur) eqn:E; constructor; [|constructor].
    unfold is_token. now rewrite E.
  - destruct (is_space c) eqn:Hc.
    + destruct (is_empty cur) eqn:E; [now apply IH|].
      constructor; [unfold is_token; now rewrite E | now apply IH].
    + apply IH. rewrite no_space_app, H. unfold no_space. simpl.
      now rewrite Hc.
Qed.

Lemma split_tokens (s : string) :
  Forall (fun w => is_token w = true) (split s).
Proof. now apply split_go_tokens. Qed.

(** [' '.join(words).split()] gives the words back. *)
Lemma split_join (ws : list string) :
  Forall (fun w => is_token w = true) ws -> split (join " " ws) = ws.
Proof.
  unfold split. induction ws as [|w ws IH]; intros F; [reflexivity|].
  inversion F as [|? ? Hw F']; subst.
  unfold is_token in Hw. apply andb_true_iff in Hw as [Hne Hns].
  apply negb_true_iff in Hne. fold (no_space w) in Hns.
  destruct ws as [|w' ws].
  - simpl. rewrite <- (append_nil_r w) at 1.
    rewrite split_go_token by exact Hns. simpl. now rewrite Hne.
  - change (join " " (w :: w' :: ws))
      with (w ++ (" " ++ join " " (w' :: ws)))%string.
    rewrite split_go_token by exact Hns.
    cbn [append split_go]. change (is_space " ") with true. cbv iota.
    cbn [append]. rewrite Hne. f_equal. now apply IH.
Qed.

(** Replacing every run of whitespace by one space keeps the words. *)
Lemma split_go_collapse (s : string) :
  (forall cur, split_go cur (sub_go m_spaces " " 0 s) = split_go cur s)
  /\ (forall k, (k <= space_run s)%nat ->
        split_go "" (sub_go m_spaces " " k s) = split_go "" s).
Proof.
  induction s as [|c r [IHA IHB]].
  - split; [reflexivity|]. intros k Hk. reflexivity.
  - assert (A : forall cur, split_go cur (sub_go m_spaces " " 0 (String c r))
                            = split_go cur (String c r)).
    { intros cur. cbn [sub_go]. unfold m_spaces. cbn [space_run].
      destruct (is_space c) eqn:Hc.
      - cbn [append split_go]. change (is_space " ") with true. cbv iota.
        rewrite Hc. rewrite IHB by lia. reflexivity.
      - cbn [split_go]. rewrite Hc. apply IHA. }
    split; [exact A|]. intros [|k] Hk; [apply A|].
    cbn [sub_go]. cbn [space_run] in Hk.
    destruct (is_space c) eqn:Hc; [|lia].
    cbn [split_go]. rewrite Hc. cbn [is_empty]. apply IHB. lia.
Qed.

Lemma split_collapse (s : string) : split (re_sub m_spaces " " s) = split s.
Proof. exact (proj1 (split_go_collapse s) ""). Qed.

Lemma split_lstrip (s : string) : split (lstrip s) = split s.
Proof.
  unfold split. induction s as [|c r IH]; simpl; [reflexivity|].
  destruct (is_space c) eqn:Hc; [exact IH|]. simpl. now rewrite Hc.
Qed.

Lemma split_go_rstrip (s cur : string) :
  split_go cur (rstrip s) = split_go cur s.
Proof.
  revert cur. induction s as [|c r IH]; intros cur; [reflexivity|].
  cbn [rstrip]. destruct (rstrip r) as [|d r'] eqn:R.
  - destruct (is_space c) eqn:Hc; cbn [split_go]; rewrite ?Hc.
    + rewrite <- (IH ""). simpl. now destruct (is_empty cur).
    + now rewrite <- IH.
  - cbn [split_go]. destruct (is_space c); rewrite <- !IH; reflexivity.
Qed.

Lemma split_strip (s : string) : split (strip s) = split s.
Proof.
  unfold strip, split. rewrite split_go_rstrip. apply split_lstrip.
Qed.

(** A text without words is blank, and conversely. *)
Lemma split_nil_blank (s : string) :
  split s = [] <-> is_empty (strip s) = true.
Proof.
  rewrite <- split_strip. unfold strip.
  pose proof (lstrip_head s) as H. destruct (lstrip s) as [|c r].
  - simpl. split; reflexivity.
  - destruct (rstrip_head c r H) as [r' ->]. unfold split. simpl. rewrite H.
    split; [|discriminate]. intros E. exfalso.
    assert (F : forall t cur, is_empty cur = false -> split_go cur t <> []).
    { induction t as [|x t IHt]; intros cur Hcur; simpl.
      - now rewrite Hcur.
      - destruct (is_space x); [now rewrite Hcur|].
        apply IHt. now rewrite is_empty_app, Hcur. }
    now apply (F r' (String c "")).
Qed.

End SplitFacts.

(** ** The repetition remover *)

Module DeduplicatorFacts.
Import PyStr PyStrFacts SplitFacts SubseqFacts Deduplicator.

(** C9: the examples of the specification. "the the quick quick brown
    brown fox" becomes "the quick brown fox"; "hello world hello world how
    are you" keeps exactly one "hello world" and no "hello world hello
    world"; the empty and the whitespace-only text become the empty
    text. *)
Theorem C9_deduplicate_examples :
  deduplicate_text default "the the quick quick brown brown fox"
  = Some "the quick brown fox"
  /\ (exists out,
         deduplicate_text default "hello world hello world how are you"
         = Some out
         /\ count "hello world" out = 1%nat
         /\ contains "hello world hello world" out = false)
  /\ deduplicate_text default "" = Some ""
  /\ deduplicate_text default "   " = Some "".
Proof.
  split; [reflexivity|]. split; [|split; reflexivity].
  exists "hello world how are you". repeat split; reflexivity.
Qed.

(** *** Slices *)

Lemma firstn_add {A} (i k : nat) (l : list A) :
  firstn (i + k) l = firstn i l ++ firstn k (skipn i l).
Proof.
  revert l. induction i as [|i IH]; intros [|x l]; simpl;
    rewrite ?firstn_nil; try reflexivity.
  now rewrite IH.
Qed.

Lemma firstn_slice (words : list string) (i j : nat) :
  (i <= j)%nat -> firstn j words = firstn i words ++ slice words i j.
Proof.
  intros H. unfold slice. rewrite <- firstn_add. f_equal. lia.
Qed.

Lemma firstn_succ_nth (words : list string) (i : nat) :
  (i < List.length words)%nat ->
  firstn (i + 1) words = firstn i words ++ [nth i words EmptyString].
Proof.
  revert i. induction words as [|w ws IH]; intros [|i] H; simpl in *;
    try lia; [reflexivity|].
  now rewrite IH by lia.
Qed.

Lemma slice_prefix (words : list string) (i j k : nat) :
  (j <= k)%nat -> subseq (slice words i j) (slice words i k).
Proof.
  intros H. unfold slice.
  replace (firstn (j - i) (skipn i words))
    with (firstn (j - i) (firstn (k - i) (skipn i words))).
  - apply subseq_firstn.
  - rewrite firstn_firstn. f_equal. lia.
Qed.

Lemma extend_window (words result : list string) (i j k : nat) :
  (i <= j)%nat -> (j <= k)%nat ->
  subseq result (firstn i words) ->
  subseq (result ++ slice words i j) (firstn k words).
Proof.
  intros Hij Hjk H. rewrite (firstn_slice words i k) by lia.
  apply subseq_app; [exact H | now apply slice_prefix].
Qed.

Lemma extend_word (words result : list string) (i : nat) :
  (i < List.length words)%nat ->
  subseq result (firstn i words) ->
  subseq (result ++ [nth i words EmptyString]) (firstn (i + 1) words).
Proof.
  intros Hi H. rewrite firstn_succ_nth by exact Hi.
  apply subseq_app; [exact H | apply subseq_refl].
Qed.

(** *** The inner loops only move forward, inside the list *)

Lemma skip_similar_bounds (words : list string) (size : nat)
      (current : list string) :
  forall fuel i i',
    skip_similar fuel words size current i = Some i' ->
    (i <= i')%nat /\ ((i <= List.length words)%nat ->
                      (i' <= List.length words)%nat).
Proof.
  induction fuel as [|fuel IH]; intros i i' E; [discriminate|].
  cbn [skip_similar] in E.
  destruct (i + size <=? List.length words) eqn:B.
  - apply Nat.leb_le in B. destruct (_segments_similar _ _).
    + apply IH in E. lia.
    + injection E as <-. lia.
  - injection E as <-. lia.
Qed.

Lemma skip_similar_total (words : list string) (size : nat)
      (current : list string) :
  (1 <= size)%nat ->
  forall fuel i,
    (List.length words - i < fuel)%nat ->
    exists i', skip_similar fuel words size current i = Some i'.
Proof.
  intros Hs. induction fuel as [|fuel IH]; intros i H; [lia|].
  cbn [skip_similar].
  destruct (i + size <=? List.length words) eqn:B; [|eauto].
  apply Nat.leb_le in B. destruct (_segments_similar _ _); [|eauto].
  apply IH. lia.
Qed.

Lemma skip_repeats_bounds (words : list string) (n : nat)
      (current : list string) :
  forall fuel i i',
    skip_repeats fuel words n current i = Some i' ->
    (i <= i')%nat /\ ((i <= List.length words)%nat ->
                      (i' <= List.length words)%nat).
Proof.
  induction fuel as [|fuel IH]; intros i i' E; [discriminate|].
  cbn [skip_repeats] in E.
  destruct (i + n <=? List.length words) eqn:B.
  - apply Nat.leb_le in B. destruct (tuple_eqb _ _).
    + apply IH in E. lia.
    + injection E as <-. lia.
  - injection E as <-. lia.
Qed.

Lemma skip_repeats_total (words : list string) (n : nat)
      (current : list string) :
  (1 <= n)%nat ->
  forall fuel i,
    (List.length words - i < fuel)%nat ->
    exists i', skip_repeats fuel words n current i = Some i'.
Proof.
  intros Hs. induction fuel as [|fuel IH]; intros i H; [lia|].
  cbn [skip_repeats].
  destruct (i + n <=? List.length words) eqn:B; [|eauto].
  apply Nat.leb_le in B. destruct (tuple_eqb _ _); [|eauto].
  apply IH. lia.
Qed.

(** *** The outer loops keep a subsequence of the words read so far *)

Lemma segment_loop_subseq (words : list string) (size : nat) :
  forall fuel i result out,
    (i <= List.length words)%nat ->
    subseq result (firstn i words) ->
    segment_loop fuel words size i result = Some out ->
    subseq out words.
Proof.
  induction fuel as [|fuel IH]; intros i result out Hi Hr E; [discriminate|].
  cbn [segment_loop] in E. destruct (i <? List.length words) eqn:L.
  - apply Nat.ltb_lt in L.
    assert (One : forall o,
               segment_loop fuel words size (i + 1)
                            (result ++ [nth i words EmptyString]) = Some o ->
               subseq o words).
    { intros o Eo. refine (IH (i + 1)%nat _ o _ _ Eo); [lia|].
      now apply extend_word. }
    destruct (i + size * 2 <=? List.length words) eqn:B; [|now apply One].
    apply Nat.leb_le in B.
    destruct (_segments_similar _ _); [|now apply One].
    destruct (skip_similar _ _ _ _ _) as [i'|] eqn:K; [|discriminate].
    apply skip_similar_bounds in K as [K1 K2].
    refine (IH i' _ out _ _ E); [lia|].
    apply extend_window; [lia | exact K1 | exact Hr].
  - apply Nat.ltb_ge in L. injection E as <-.
    now rewrite firstn_all2 in Hr by lia.
Qed.

Lemma segment_loop_total (words : list string) (size : nat) :
  (1 <= size)%nat ->
  forall fuel i result,
    (i <= List.length words)%nat ->
    (List.length words - i < fuel)%nat ->
    exists out, segment_loop fuel words size i result = Some out.
Proof.
  intros Hs. induction fuel as [|fuel IH]; intros i result Hi H; [lia|].
  cbn [segment_loop]. destruct (i <? List.length words) eqn:L; [|eauto].
  apply Nat.ltb_lt in L.
  destruct (i + size * 2 <=? List.length words) eqn:B;
    [|apply IH; lia].
  apply Nat.leb_le in B.
  destruct (_segments_similar _ _); [|apply IH; lia].
  destruct (skip_similar_total words size
              (lowered words i (i + size)) Hs
              (S (List.length words)) (i + size) ltac:(lia)) as [i' K].
  rewrite K. apply skip_similar_bounds in K as [K1 K2].
  apply IH; lia.
Qed.

Lemma ngram_loop_subseq (words : list string) (n : nat) :
  forall fuel i result out,
    (i <= List.length words)%nat ->
    subseq result (firstn i words) ->
    ngram_loop fuel words n i result = Some out ->
    subseq out words.
Proof.
  induction fuel as [|fuel IH]; intros i result out Hi Hr E; [discriminate|].
  cbn [ngram_loop] in E. destruct (i <? List.length words) eqn:L.
  - apply Nat.ltb_lt in L.
    assert (One : forall o,
               ngram_loop fuel words n (i + 1)
                          (result ++ [nth i words EmptyString]) = Some o ->
               subseq o words).
    { intros o Eo. refine (IH (i + 1)%nat _ o _ _ Eo); [lia|].
      now apply extend_word. }
    destruct (i + n * 2 <=? List.length words) eqn:B; [|now apply One].
    apply Nat.leb_le in B.
    destruct (tuple_eqb _ _); [|now apply One].
    destruct (skip_repeats _ _ _ _ _) as [i'|] eqn:K; [|discriminate].
    apply skip_repeats_bounds in K as [K1 K2].
    refine (IH i' _ out _ _ E); [lia|].
    apply extend_window; [lia | lia | exact Hr].
  - apply Nat.ltb_ge in L. injection E as <-.
    now rewrite firstn_all2 in Hr by lia.
Qed.

Lemma ngram_loop_total (words : list string) (n : nat) :
  (1 <= n)%nat ->
  forall fuel i result,
    (i <= List.length words)%nat ->
    (List.length words - i < fuel)%nat ->
    exists out, ngram_loop fuel words n i result = Some out.
Proof.
  intros Hs. induction fuel as [|fuel IH]; intros i result Hi H; [lia|].
  cbn [ngram_loop]. destruct (i <? List.length words) eqn:L; [|eauto].
  apply Nat.ltb_lt in L.
  destruct (i + n * 2 <=? List.length words) eqn:B;
    [|apply IH; lia].
  apply Nat.leb_le in B.
  destruct (tuple_eqb _ _); [|apply IH; lia].
  destruct (skip_repeats_total words n
              (lowered words i (i + n)) Hs
              (S (List.length words)) (i + n * 2) ltac:(lia)) as [i' K].
  rewrite K. apply skip_repeats_bounds in K as [K1 K2].
  apply IH; lia.
Qed.

(** *** The passes *)

Lemma remove_segment_subseq (words : list string) (size : nat)
      (out : list string) :
  _remove_segment_repetitions words size = Some out -> subseq out words.
Proof.
  unfold _remove_segment_repetitions.
  destruct (List.length words <? size * 2).
  - intros [= <-]. apply subseq_refl.
  - apply segment_loop_subseq; [lia | constructor].
Qed.

Lemma remove_segment_total (words : list string) (size : nat) :
  (1 <= size)%nat ->
  exists out, _remove_segment_repetitions words size = Some out.
Proof.
  intros Hs. unfold _remove_segment_repetitions.
  destruct (List.length words <? size * 2); [eauto|].
  apply segment_loop_total; [exact Hs | lia | lia].
Qed.

Lemma segment_sweep_subseq (sizes : list nat) :
  forall words out,
    segment_sweep sizes words = Some out -> subseq out words.
Proof.
  induction sizes as [|s sizes IH]; intros words out E; cbn in E.
  - injection E as <-. apply subseq_refl.
  - destruct (_remove_segment_repetitions words s) as [ws|] eqn:R;
      [|discriminate].
    apply (subseq_trans _ ws); [now apply IH | now apply remove_segment_subseq
                                                    with (size := s)].
Qed.

Lemma segment_sweep_total (sizes : list nat) :
  Forall (fun s => 1 <= s)%nat sizes ->
  forall words, exists out, segment_sweep sizes words = Some out.
Proof.
  induction 1 as [|s sizes Hs _ IH]; intros words; cbn; [eauto|].
  destruct (remove_segment_total words s Hs) as [ws ->]. apply IH.
Qed.

Lemma range_down_bounds (start stop s : nat) :
  In s (range_down start stop) <-> (stop < s <= start)%nat.
Proof.
  unfold range_down. rewrite <- in_rev, in_seq. lia.
Qed.

Lemma segment_sizes_bounds (n s : nat) :
  In s (segment_sizes n) <-> (6 <= s <= Nat.min (n / 2) 25)%nat.
Proof. unfold segment_sizes. rewrite range_down_bounds. lia. Qed.

Lemma subseq_split_join (text : string) (ws : list string) :
  subseq ws (split text) -> subseq (split (join " " ws)) (split text).
Proof.
  intros H. rewrite split_join; [exact H|].
  apply (subseq_Forall _ _ _ H), split_tokens.
Qed.

Lemma remove_large_subseq (text out : string) :
  _remove_large_repetitions text = Some out ->
  subseq (split out) (split text).
Proof.
  unfold _remove_large_repetitions.
  destruct (List.length (split text) <? 10).
  - intros [= <-]. apply subseq_refl.
  - destruct (segment_sweep _ _) as [ws|] eqn:E; [|discriminate].
    intros [= <-]. apply subseq_split_join.
    now apply segment_sweep_subseq in E.
Qed.

Lemma remove_large_total (text : string) :
  exists out, _remove_large_repetitions text = Some out.
Proof.
  unfold _remove_large_repetitions.
  destruct (List.length (split text) <? 10); [eauto|].
  destruct (segment_sweep_total (segment_sizes (List.length (split text))))
    with (words := split text) as [ws ->]; [|cbn; eauto].
  apply Forall_forall. intros s Hs. apply segment_sizes_bounds in Hs. lia.
Qed.

Lemma remove_ngrams_subseq (text : string) (n : nat) (out : string) :
  _remove_repeated_ngrams text n = Some out ->
  subseq (split out) (split text).
Proof.
  unfold _remove_repeated_ngrams.
  destruct (List.length (split text) <? n * 2).
  - intros [= <-]. apply subseq_refl.
  - destruct (ngram_loop _ _ _ _ _) as [ws|] eqn:E; [|discriminate].
    intros [= <-]. apply subseq_split_join.
    apply ngram_loop_subseq in E; [exact E | lia | constructor].
Qed.

Lemma remove_ngrams_total (text : string) (n : nat) :
  (1 <= n)%nat -> exists out, _remove_repeated_ngrams text n = Some out.
Proof.
  intros Hn. unfold _remove_repeated_ngrams.
  destruct (List.length (split text) <? n * 2); [eauto|].
  destruct (ngram_loop_total (split text) n Hn
              (S (List.length (split text))) 0 []) as [ws ->];
    [lia | lia | cbn; eauto].
Qed.

Lemma ngram_sweep_subseq (sizes : list Z) :
  forall text out,
    ngram_sweep sizes text = Some out -> subseq (split out) (split text).
Proof.
  induction sizes as [|n sizes IH]; intros text out E; cbn in E.
  - injection E as <-. apply subseq_refl.
  - destruct (_remove_repeated_ngrams text (Z.to_nat n)) as [t|] eqn:R;
      [|discriminate].
    apply (subseq_trans _ (split t)); [now apply IH|].
    now apply remove_ngrams_subseq with (n := Z.to_nat n).
Qed.

Lemma ngram_sweep_total (sizes : list Z) :
  Forall (fun n => 1 <= n)%Z sizes ->
  forall text, exists out, ngram_sweep sizes text = Some out.
Proof.
  induction 1 as [|n sizes Hn _ IH]; intros text; cbn; [eauto|].
  destruct (remove_ngrams_total text (Z.to_nat n)) as [t ->]; [lia|].
  apply IH.
Qed.

Lemma z_range_down_bounds (start stop n : Z) :
  In n (z_range_down start stop) <-> (stop < n <= start)%Z.
Proof.
  unfold z_range_down. rewrite in_map_iff. split.
  - intros (k & <- & Hk). apply in_seq in Hk. lia.
  - intros H. exists (Z.to_nat (start - n)). split; [lia|].
    apply in_seq. lia.
Qed.

Lemma consecutive_fold (f : list string -> string -> list string) :
  (forall result word, f result word = result ++ [word]
                       \/ f result word = result) ->
  forall rest result pre,
    subseq result pre -> subseq (fold_left f rest result) (pre ++ rest).
Proof.
  intros Hf. induction rest as [|w rest IH]; intros result pre H; cbn.
  - now rewrite app_nil_r.
  - replace (pre ++ w :: rest) with ((pre ++ [w]) ++ rest)
      by now rewrite <- app_assoc.
    apply IH. destruct (Hf result w) as [-> | ->].
    + apply subseq_app; [exact H | apply subseq_refl].
    + now apply subseq_app_r.
Qed.

Lemma remove_consecutive_subseq (text : string) :
  subseq (split (_remove_consecutive_duplicates text)) (split text).
Proof.
  unfold _remove_consecutive_duplicates.
  destruct (split text) as [|first rest] eqn:E.
  - rewrite E. constructor.
  - rewrite <- E. apply subseq_split_join. rewrite E.
    apply (consecutive_fold _) with (pre := [first]) (rest := rest).
    + intros result word. destruct (negb _); auto.
    + apply subseq_refl.
Qed.

Lemma deduplicate_subseq (self : NGramDeduplicator) (text out : string) :
  deduplicate_text self text = Some out ->
  subseq (split out) (split text).
Proof.
  unfold deduplicate_text.
  destruct (is_empty text || is_empty (strip text)).
  - intros [= <-]. apply subseq_nil_l.
  - destruct (_remove_large_repetitions text) as [t1|] eqn:E1;
      [|discriminate].
    destruct (ngram_sweep _ t1) as [t2|] eqn:E2; [|discriminate].
    destruct (ngram_sweep _ t2) as [t3|] eqn:E3; [|discriminate].
    intros [= <-]. rewrite split_strip, split_collapse.
    apply (subseq_trans _ _ _ (remove_consecutive_subseq t3)).
    apply (subseq_trans _ _ _ (ngram_sweep_subseq _ _ _ E3)).
    apply (subseq_trans _ _ _ (ngram_sweep_subseq _ _ _ E2)).
    now apply remove_large_subseq.
Qed.

Lemma deduplicate_total (self : NGramDeduplicator) (text : string) :
  (0 <= min_n self)%Z -> exists out, deduplicate_text self text = Some out.
Proof.
  intros Hmin. unfold deduplicate_text.
  destruct (is_empty text || is_empty (strip text)); [eauto|].
  destruct (remove_large_total text) as [t1 ->].
  destruct (ngram_sweep_total (z_range_down (Z.min (max_n self) 20) 4))
    with (text := t1) as [t2 ->].
  { apply Forall_forall. intros n Hn. apply z_range_down_bounds in Hn. lia. }
  destruct (ngram_sweep_total (z_range_down 4 (min_n self)))
    with (text := t2) as [t3 ->].
  { apply Forall_forall. intros n Hn. apply z_range_down_bounds in Hn. lia. }
  eauto.
Qed.

(** C10: whenever [deduplicate_text] returns, the words of its output are
    a subsequence of the words of its input, so there are no more of them;
    and it does return for every text when [min_n] is not negative, in
    particular for the default deduplicator. *)
Theorem C10_output_words_subsequence :
  (forall (self : NGramDeduplicator) (text out : string),
      deduplicate_text self text = Some out ->
      subseq (split out) (split text)
      /\ (List.length (split out) <= List.length (split text))%nat)
  /\ (forall (self : NGramDeduplicator) (text : string),
         (0 <= min_n self)%Z ->
         exists out, deduplicate_text self text = Some out)
  /\ (forall text : string,
         exists out, deduplicate_text default text = Some out).
Proof.
  split; [|split].
  - intros self text out E. apply deduplicate_subseq in E.
    split; [exact E | now apply subseq_length].
  - apply deduplicate_total.
  - intros text. apply deduplicate_total. cbn. lia.
Qed.

(** An instance of C10: the default deduplicator on the docstring's
    example. *)
Lemma C10_output_words_subsequence_witness :
  (exists out,
      deduplicate_text default "the the quick quick brown brown fox"
      = Some out)
  /\ subseq (split "the quick brown fox")
            (split "the the quick quick brown brown fox").
Proof.
  split.
  - apply (proj1 (proj2 C10_output_words_subsequence) default).
    cbn. lia.
  - apply (proj1 C10_output_words_subsequence default
                 "the the quick quick brown brown fox"
                 "the quick brown fox").
    reflexivity.
Defined.

(** *** The large-segment pass *)

Lemma tuple_eqb_eq (a b : list string) : tuple_eqb a b = true <-> a = b.
Proof.
  revert b. induction a as [|x a IH]; intros [|y b]; cbn;
    try (split; congruence).
  rewrite andb_true_iff, String.eqb_eq, IH. split.
  - now intros [-> ->].
  - now intros [= -> ->].
Qed.

Lemma matches_le (seg1 seg2 : list string) :
  (matches seg1 seg2 <= List.length seg1)%nat.
Proof.
  revert seg2. induction seg1 as [|a seg1 IH]; intros [|b seg2]; cbn;
    try lia.
  specialize (IH seg2). destruct (String.eqb a b); lia.
Qed.

(** On windows of at most 25 words the float test [matches >= len * 0.9]
    is the integer test [9 * len <= 10 * matches]. *)
Lemma enough_matches_small (m len : nat) :
  (len <= 25)%nat -> (m <= len)%nat ->
  enough_matches m len = (9 * len <=? 10 * m).
Proof.
  intros Hlen Hm.
  assert (T : forallb
                (fun l => forallb
                            (fun k => Bool.eqb (enough_matches k l)
                                               (9 * l <=? 10 * k))
                            (seq 0 (S l)))
                (seq 0 26) = true) by (vm_compute; reflexivity).
  rewrite forallb_forall in T.
  specialize (T len ltac:(apply in_seq; lia)).
  rewrite forallb_forall in T.
  specialize (T m ltac:(apply in_seq; lia)).
  now apply Bool.eqb_prop in T.
Qed.

Lemma segments_similar_iff (seg1 seg2 : list string) :
  List.length seg1 = List.length seg2 ->
  (List.length seg1 <= 25)%nat ->
  (_segments_similar seg1 seg2 = true
   <-> seg1 = seg2
       \/ ((10 <= List.length seg1)%nat
           /\ (9 * List.length seg1 <= 10 * matches seg1 seg2)%nat)).
Proof.
  intros Hlen Hmax. unfold _segments_similar.
  destruct (tuple_eqb seg1 seg2) eqn:T.
  - apply tuple_eqb_eq in T. tauto.
  - assert (N : seg1 <> seg2).
    { intros H. apply tuple_eqb_eq in H. congruence. }
    rewrite (proj2 (Nat.eqb_eq _ _) Hlen). cbn [negb].
    destruct (10 <=? List.length seg1) eqn:L.
    + apply Nat.leb_le in L.
      rewrite enough_matches_small by (try exact Hmax; apply matches_le).
      rewrite Nat.leb_le. tauto.
    + apply Nat.leb_gt in L. split; [discriminate|].
      intros [H|[H _]]; [contradiction | lia].
Qed.

Lemma lowered_length (words : list string) (i size : nat) :
  (i + size <= List.length words)%nat ->
  List.length (lowered words i (i + size)) = size.
Proof.
  intros H. unfold lowered, slice.
  rewrite length_map, length_firstn, length_skipn. lia.
Qed.

Lemma segment_sizes_nth (n k : nat) :
  (k < Nat.min (n / 2) 25 - 5)%nat ->
  nth k (segment_sizes n) 0%nat = (Nat.min (n / 2) 25 - k)%nat.
Proof.
  intros H. unfold segment_sizes, range_down.
  rewrite rev_nth by (rewrite length_seq; exact H).
  rewrite length_seq, seq_nth by lia. lia.
Qed.

End DeduplicatorFacts.

(** ** Idempotence of the normalizer *)

Module IdempotenceFacts.
Import PyStr Normalizer PyStrFacts SplitFacts.

Ltac each_char c := destruct c as [[] [] [] [] [] [] [] []]; reflexivity.

(** *** Character-wise invariants through the string operations *)

Lemma string_forall_app (p : ascii -> bool) (a b : string) :
  string_forall p (a ++ b) = string_forall p a && string_forall p b.
Proof.
  induction a as [|c a IH]; simpl; [reflexivity|].
  now rewrite IH, andb_assoc.
Qed.

Lemma sub_go_forall (p : ascii -> bool) (m : matcher) (repl : string) :
  string_forall p repl = true ->
  forall s k, string_forall p s = true ->
              string_forall p (sub_go m repl k s) = true.
Proof.
  intros Hr. induction s as [|c r IH]; intros k H; [reflexivity|].
  simpl in H. apply andb_true_iff in H as [Hc H]. cbn [sub_go].
  destruct k as [|k]; [|now apply IH].
  destruct (m (String c r)) as [[|j]|].
  - simpl. now rewrite Hc, IH.
  - now rewrite string_forall_app, Hr, IH.
  - simpl. now rewrite Hc, IH.
Qed.

Lemma sub_go_no_match (p : ascii -> bool) (m : matcher) (repl : string) :
  (forall s, string_forall p s = true -> m s = None) ->
  forall s, string_forall p s = true -> sub_go m repl 0 s = s.
Proof.
  intros Hm. induction s as [|c r IH]; intros H; [reflexivity|].
  cbn [sub_go]. rewrite (Hm _ H). simpl in H.
  apply andb_true_iff in H as [_ H]. now rewrite IH.
Qed.

Lemma lstrip_forall (p : ascii -> bool) (s : string) :
  string_forall p s = true -> string_forall p (lstrip s) = true.
Proof.
  induction s as [|c r IH]; intros H; [reflexivity|]. simpl.
  destruct (is_space c); [|exact H].
  simpl in H. apply andb_true_iff in H as [_ H]. now apply IH.
Qed.

Lemma rstrip_forall (p : ascii -> bool) (s : string) :
  string_forall p s = true -> string_forall p (rstrip s) = true.
Proof.
  induction s as [|c r IH]; intros H; [reflexivity|].
  simpl in H. apply andb_true_iff in H as [Hc H]. specialize (IH H).
  cbn [rstrip]. destruct (rstrip r) as [|d r'].
  - destruct (is_space c); simpl; [reflexivity | now rewrite Hc].
  - cbn [string_forall] in *. now rewrite Hc, IH.
Qed.

Lemma strip_forall (p : ascii -> bool) (s : string) :
  string_forall p s = true -> string_forall p (strip s) = true.
Proof. intros H. now apply rstrip_forall, lstrip_forall. Qed.

Lemma drop_forall (p : ascii -> bool) (n : nat) (s : string) :
  string_forall p s = true -> string_forall p (drop n s) = true.
Proof.
  revert s. induction n as [|n IH]; intros [|c r] H; try exact H.
  simpl in H. apply andb_true_iff in H as [_ H]. now apply IH.
Qed.

Lemma prefix_forall (p : ascii -> bool) (old s : string) :
  prefix old s = true -> string_forall p s = true ->
  string_forall p old = true.
Proof.
  revert s. induction old as [|a old IH]; intros [|b s] P H;
    try reflexivity; try discriminate.
  simpl in *. apply andb_true_iff in P as [E P], H as [Hb H].
  apply Ascii.eqb_eq in E. subst b. now rewrite Hb, (IH s).
Qed.

(** *** The steps on text without apostrophes *)

Lemma lower_no_apostrophe (s : string) :
  no_apostrophe s = true -> no_apostrophe (lower s) = true.
Proof.
  unfold no_apostrophe, lower. induction s as [|c r IH]; [reflexivity|].
  simpl. intros H. apply andb_true_iff in H as [Hc H].
  rewrite (IH H), andb_true_r. rewrite <- Hc. clear. each_char c.
Qed.

Lemma replace_no_apostrophe (old new s : string) :
  no_apostrophe old = false -> no_apostrophe s = true ->
  replace old new s = s.
Proof.
  intros Ho. unfold replace, re_sub.
  apply (sub_go_no_match (fun c => negb (is_apostrophe c))).
  intros t Ht. unfold m_literal. destruct (prefix old t) eqn:P;
    [|reflexivity].
  apply (prefix_forall _ _ _ P) in Ht. unfold no_apostrophe in Ho.
  congruence.
Qed.

Lemma expand_no_apostrophe (s : string) :
  no_apostrophe s = true -> _expand_contractions s = s.
Proof.
  intros H. unfold _expand_contractions, contractions. cbn [fold_left fst snd].
  repeat (rewrite replace_no_apostrophe with (s := s);
          [ | reflexivity | exact H ]).
  reflexivity.
Qed.

Lemma numbers_forall (p : ascii -> bool) :
  (forall c w, NUMBER_WORDS c = Some w -> string_forall p w = true) ->
  forall s, string_forall p s = true ->
            string_forall p (_numbers_to_words s) = true.
Proof.
  intros Hw. induction s as [|c r IH]; intros H; [reflexivity|].
  simpl in H. apply andb_true_iff in H as [Hc H]. cbn [_numbers_to_words].
  destruct (NUMBER_WORDS c) as [w|] eqn:E.
  - now rewrite string_forall_app, (Hw c w E), IH.
  - simpl. now rewrite Hc, IH.
Qed.

Ltac digit_words :=
  let c := fresh "c" in
  let w := fresh "w" in
  let E := fresh "E" in
  intros c w E; unfold NUMBER_WORDS in E;
  destruct c as [[] [] [] [] [] [] [] []]; try discriminate E;
  injection E as <-; reflexivity.

Lemma numbers_no_apostrophe (s : string) :
  no_apostrophe s = true -> no_apostrophe (_numbers_to_words s) = true.
Proof. apply numbers_forall. digit_words. Qed.

Lemma spaces_apostrophes_no_match (s : string) :
  no_apostrophe s = true ->
  m_alt m_spaces_apostrophe m_apostrophe_spaces s = None.
Proof.
  intros H.
  assert (D : forall n, starts_with_apostrophe (drop n s) = false).
  { intros n. pose proof (drop_forall _ n s H) as Hd.
    destruct (drop n s) as [|c r]; [reflexivity|].
    simpl in Hd. apply andb_true_iff in Hd as [Hc _].
    now apply negb_true_iff in Hc. }
  assert (A1 : m_spaces_apostrophe s = None).
  { unfold m_spaces_apostrophe.
    destruct (space_run s) as [|n]; [reflexivity | now rewrite D]. }
  assert (A2 : m_apostrophe_spaces s = None).
  { unfold m_apostrophe_spaces. destruct s as [|c r]; [reflexivity|].
    specialize (D 0%nat). simpl in D. now rewrite D. }
  unfold m_alt. now rewrite A1, A2.
Qed.

Lemma punctuation_no_apostrophe (s : string) :
  no_apostrophe s = true -> no_apostrophe (_remove_punctuation s) = true.
Proof.
  intros H. unfold _remove_punctuation, re_sub, no_apostrophe.
  apply sub_go_forall; [reflexivity|]. now apply sub_go_forall.
Qed.

Lemma collapse_forall (p : ascii -> bool) (s : string) :
  p " "%char = true -> string_forall p s = true ->
  string_forall p (collapse s) = true.
Proof.
  intros Hp H. unfold collapse, re_sub. apply strip_forall.
  apply sub_go_forall; [simpl; now rewrite Hp | exact H].
Qed.

(** *** What each step establishes, and where it is the identity *)

Lemma lower_lower_fixed (s : string) :
  string_forall lower_fixed (lower s) = true.
Proof.
  unfold lower. induction s as [|c r IH]; [reflexivity|]. simpl.
  rewrite IH, andb_true_r. clear. unfold lower_fixed. each_char c.
Qed.

Lemma lower_fixed_id (s : string) :
  string_forall lower_fixed s = true -> lower s = s.
Proof.
  unfold lower. induction s as [|c r IH]; intros H; [reflexivity|].
  simpl in *. apply andb_true_iff in H as [Hc H].
  apply Ascii.eqb_eq in Hc. now rewrite Hc, IH.
Qed.

Lemma numbers_no_digit (s : string) :
  string_forall no_digit (_numbers_to_words s) = true.
Proof.
  induction s as [|c r IH]; [reflexivity|]. cbn [_numbers_to_words].
  destruct (NUMBER_WORDS c) as [w|] eqn:E.
  - rewrite string_forall_app, IH, andb_true_r. revert c w E. digit_words.
  - simpl. unfold no_digit at 1. now rewrite E, IH.
Qed.

Lemma no_digit_id (s : string) :
  string_forall no_digit s = true -> _numbers_to_words s = s.
Proof.
  induction s as [|c r IH]; intros H; [reflexivity|].
  simpl in *. apply andb_true_iff in H as [Hc H]. unfold no_digit in Hc.
  destruct (NUMBER_WORDS c); [discriminate | now rewrite IH].
Qed.

Lemma clean_id (s : string) :
  no_apostrophe s = true -> string_forall clean s = true ->
  _remove_punctuation s = s.
Proof.
  intros H C. unfold _remove_punctuation, re_sub.
  rewrite (sub_go_no_match clean m_punct) with (s := s); [| |exact C].
  - now apply (sub_go_no_match _ _ _ spaces_apostrophes_no_match).
  - intros [|c r] Ht; [reflexivity|]. simpl in Ht.
    apply andb_true_iff in Ht as [Hc _]. unfold clean in Hc.
    unfold m_punct. now rewrite Hc.
Qed.

(** *** Whitespace collapse is idempotent *)

Lemma collapse_single_spaced (s : string) :
  single_spaced false (sub_go m_spaces " " 0 s) = true
  /\ single_spaced true (sub_go m_spaces " " (space_run s) s) = true.
Proof.
  induction s as [|c r [IHA IHB]]; [split; reflexivity|].
  cbn [sub_go space_run]. unfold m_spaces. cbn [space_run]. fold m_spaces.
  destruct (is_space c) eqn:Hc.
  - split; [|exact IHB]. cbn [append single_spaced].
    change (is_space " ") with true. cbv iota. now rewrite IHB.
  - cbn [single_spaced]. rewrite Hc. split; exact IHA.
Qed.

Lemma single_spaced_lstrip (s : string) (b : bool) :
  single_spaced b s = true -> single_spaced false (lstrip s) = true.
Proof.
  revert b. induction s as [|c r IH]; intros b H; [reflexivity|].
  cbn [lstrip]. cbn [single_spaced] in H. destruct (is_space c) eqn:Hc.
  - apply andb_true_iff in H as [_ H]. now apply (IH true).
  - cbn [single_spaced]. now rewrite Hc.
Qed.

Lemma single_spaced_rstrip (s : string) (b : bool) :
  single_spaced b s = true -> single_spaced b (rstrip s) = true.
Proof.
  revert b. induction s as [|c r IH]; intros b H; [reflexivity|].
  cbn [rstrip]. cbn [single_spaced] in H. destruct (is_space c) eqn:Hc.
  - apply andb_true_iff in H as [H1 H]. specialize (IH _ H).
    destruct (rstrip r) as [|d r']; [reflexivity|].
    cbn [single_spaced] in *. now rewrite Hc, H1, IH.
  - specialize (IH _ H). destruct (rstrip r) as [|d r'].
    + cbn [single_spaced]. now rewrite Hc.
    + cbn [single_spaced] in *. now rewrite Hc.
Qed.

Lemma single_spaced_id (s : string) (b : bool) :
  single_spaced b s = true -> sub_go m_spaces " " 0 s = s.
Proof.
  revert b. induction s as [|c r IH]; intros b H; [reflexivity|].
  cbn [single_spaced] in H. cbn [sub_go]. unfold m_spaces.
  cbn [space_run]. fold m_spaces. destruct (is_space c) eqn:Hc.
  - apply andb_true_iff in H as [H1 H]. apply andb_true_iff in H1 as [E _].
    apply Ascii.eqb_eq in E. subst c.
    assert (R : space_run r = 0%nat).
    { destruct r as [|d r']; [reflexivity|]. cbn [single_spaced] in H.
      cbn [space_run]. destruct (is_space d); [|reflexivity].
      rewrite andb_false_r in H. discriminate. }
    rewrite R. cbn [append]. now rewrite (IH _ H).
  - now rewrite (IH _ H).
Qed.

Lemma collapse_idempotent (s : string) : collapse (collapse s) = collapse s.
Proof.
  unfold collapse at 1. unfold re_sub.
  rewrite (single_spaced_id (collapse s) false).
  - unfold collapse. apply strip_idempotent.
  - unfold collapse, strip. apply single_spaced_rstrip.
    apply (single_spaced_lstrip _ false). apply collapse_single_spaced.
Qed.

(** *** The pipeline *)

Lemma stable_no_apostrophe : stable (fun c => negb (is_apostrophe c)).
Proof. split; [reflexivity | digit_words]. Qed.

Lemma stable_lower_fixed : stable lower_fixed.
Proof. split; [reflexivity | digit_words]. Qed.

Lemma stable_no_digit : stable no_digit.
Proof. split; [reflexivity | digit_words]. Qed.

Lemma stable_clean_or_apostrophe : stable clean_or_apostrophe.
Proof. split; [reflexivity | digit_words]. Qed.

Lemma expand_lower_fixed (e : bool) (t : string) :
  string_forall lower_fixed t = true ->
  string_forall lower_fixed (if e then _expand_contractions t else t) = true.
Proof.
  intros H. destruct e; [|exact H].
  unfold _expand_contractions, contractions, replace, re_sub.
  cbn [fold_left fst snd].
  repeat (apply sub_go_forall; [reflexivity|]). exact H.
Qed.

Lemma numbers_step (q : ascii -> bool) (n : bool) (t : string) :
  stable q -> string_forall q t = true ->
  string_forall q (if n then _numbers_to_words t else t) = true.
Proof.
  intros [_ Hw] H. destruct n; [now apply numbers_forall | exact H].
Qed.

Lemma punctuation_step (q : ascii -> bool) (p : bool) (t : string) :
  stable q -> string_forall q t = true ->
  string_forall q (if p then _remove_punctuation t else t) = true.
Proof.
  intros [Hs _] H. destruct p; [|exact H].
  unfold _remove_punctuation, re_sub.
  assert (R : string_forall q " " = true) by (simpl; now rewrite Hs).
  apply sub_go_forall; [exact R|]. now apply sub_go_forall.
Qed.

Lemma collapse_step (q : ascii -> bool) (c : bool) (t : string) :
  stable q -> string_forall q t = true ->
  string_forall q (if c then collapse t else t) = true.
Proof.
  intros [Hs _] H. destruct c; [now apply collapse_forall | exact H].
Qed.

Lemma punctuation_clean_or_apostrophe (s : string) :
  string_forall clean_or_apostrophe (_remove_punctuation s) = true.
Proof.
  unfold _remove_punctuation, re_sub.
  apply sub_go_forall; [reflexivity|].
  induction s as [|c r IH]; [reflexivity|]. cbn [sub_go m_punct].
  destruct (is_word c || is_space c || is_apostrophe c) eqn:W.
  - simpl. unfold clean_or_apostrophe at 1. now rewrite W, IH.
  - simpl. now rewrite IH.
Qed.

Lemma clean_without_apostrophe (s : string) :
  no_apostrophe s = true -> string_forall clean_or_apostrophe s = true ->
  string_forall clean s = true.
Proof.
  unfold no_apostrophe. induction s as [|c r IH]; intros H W; [reflexivity|].
  simpl in *. apply andb_true_iff in H as [Hc H], W as [Wc W].
  rewrite (IH H W), andb_true_r. unfold clean, clean_or_apostrophe in *.
  apply negb_true_iff in Hc. now rewrite Hc, orb_false_r in Wc.
Qed.

(** What the output of [normalize] satisfies, flag by flag. *)
Lemma normalize_output (self : TextNormalizer) (text : string) :
  let out := normalize self text in
  (lowercase self = true -> string_forall lower_fixed out = true)
  /\ (numbers_to_words self = true -> string_forall no_digit out = true)
  /\ (remove_punctuation self = true ->
      string_forall clean_or_apostrophe out = true)
  /\ (collapse_whitespace self = true -> collapse out = out).
Proof.
  destruct self as [l p c n e]. unfold normalize.
  cbn [lowercase remove_punctuation collapse_whitespace numbers_to_words
       expand_contractions].
  destruct (is_empty text); [repeat split|].
  set (t1 := if l then lower text else text).
  assert (B1 : l = true -> string_forall lower_fixed t1 = true).
  { subst t1. intros ->. apply lower_lower_fixed. }
  set (t2 := if e then _expand_contractions t1 else t1).
  assert (B2 : l = true -> string_forall lower_fixed t2 = true).
  { intros L. apply expand_lower_fixed. now apply B1. }
  set (t3 := if n then _numbers_to_words t2 else t2).
  assert (B3 : l = true -> string_forall lower_fixed t3 = true).
  { intros L. apply numbers_step; [apply stable_lower_fixed | now apply B2]. }
  assert (C3 : n = true -> string_forall no_digit t3 = true).
  { subst t3. intros ->. apply numbers_no_digit. }
  set (t4 := if p then _remove_punctuation t3 else t3).
  assert (B4 : l = true -> string_forall lower_fixed t4 = true).
  { intros L. apply punctuation_step;
      [apply stable_lower_fixed | now apply B3]. }
  assert (C4 : n = true -> string_forall no_digit t4 = true).
  { intros N. apply punctuation_step; [apply stable_no_digit | now apply C3]. }
  assert (D4 : p = true -> string_forall clean_or_apostrophe t4 = true).
  { subst t4. intros ->. apply punctuation_clean_or_apostrophe. }
  cbv zeta. split; [|split; [|split]].
  - intros L. apply collapse_step; [apply stable_lower_fixed | now apply B4].
  - intros N. apply collapse_step; [apply stable_no_digit | now apply C4].
  - intros P. apply collapse_step;
      [apply stable_clean_or_apostrophe | now apply D4].
  - intros ->. apply collapse_idempotent.
Qed.

(** No step introduces an apostrophe. *)
Lemma normalize_no_apostrophe (self : TextNormalizer) (text : string) :
  no_apostrophe text = true -> no_apostrophe (normalize self text) = true.
Proof.
  intros H. destruct self as [l p c n e]. unfold normalize.
  cbn [lowercase remove_punctuation collapse_whitespace numbers_to_words
       expand_contractions].
  destruct (is_empty text); [reflexivity|].
  set (t1 := if l then lower text else text).
  assert (A1 : no_apostrophe t1 = true).
  { subst t1. destruct l; [now apply lower_no_apostrophe | exact H]. }
  replace (if e then _expand_contractions t1 else t1) with t1
    by (destruct e; [now rewrite expand_no_apostrophe | reflexivity]).
  apply collapse_step; [apply stable_no_apostrophe|].
  apply punctuation_step; [apply stable_no_apostrophe|].
  apply numbers_step; [apply stable_no_apostrophe | exact A1].
Qed.

(** C4, as stated, fails: with the default configuration
    [normalize("a' 'b")] is "a 'b", and normalizing that again gives
    "a b"; with [numbers_to_words] on, [normalize("7't")] is "seven't",
    and normalizing that again gives "seve not". *)
Lemma C4_not_idempotent :
  normalize default "a' 'b" = "a 'b"
  /\ normalize default (normalize default "a' 'b") = "a b"
  /\ normalize default (normalize default "a' 'b")
     <> normalize default "a' 'b"
  /\ normalize with_numbers "7't" = "seven't"
  /\ normalize with_numbers (normalize with_numbers "7't") = "seve not".
Proof.
  split; [reflexivity|]. split; [reflexivity|].
  split; [|split; reflexivity].
  vm_compute. discriminate.
Qed.

(** C4, amended: for every configuration, normalizing again changes
    nothing whenever the normalized text contains no apostrophe, which is
    the case for every text that contains none; [normalize] is a function
    of the configuration and the text alone. *)
Theorem C4_idempotent_without_apostrophes :
  (forall (self : TextNormalizer) (text : string),
      no_apostrophe (normalize self text) = true ->
      normalize self (normalize self text) = normalize self text)
  /\ (forall (self : TextNormalizer) (text : string),
         no_apostrophe text = true ->
         no_apostrophe (normalize self text) = true).
Proof.
  split; [|apply normalize_no_apostrophe].
  intros self text A.
  destruct (normalize_output self text) as (B & C & D & E).
  set (out := normalize self text) in *. unfold normalize.
  destruct (is_empty out) eqn:Em; [now apply is_empty_true in Em|].
  destruct self as [l p c n e].
  cbn [lowercase remove_punctuation collapse_whitespace numbers_to_words
       expand_contractions] in *.
  replace (if l then lower out else out) with out
    by (destruct l; [now rewrite lower_fixed_id by auto | reflexivity]).
  replace (if e then _expand_contractions out else out) with out
    by (destruct e; [now rewrite expand_no_apostrophe | reflexivity]).
  replace (if n then _numbers_to_words out else out) with out
    by (destruct n; [now rewrite no_digit_id by auto | reflexivity]).
  replace (if p then _remove_punctuation out else out) with out
    by (destruct p;
        [now rewrite clean_id by auto using clean_without_apostrophe
        | reflexivity]).
  destruct c; [now apply E | reflexivity].
Qed.

(** Instances of the amended C4: the scenario of the specification, whose
    apostrophe belongs to a contraction that is expanded, and a text
    without apostrophes. *)
Lemma C4_idempotent_witness :
  normalize default (normalize default scenario) = normalize default scenario
  /\ normalize with_numbers (normalize with_numbers "Hello,   World! 123.")
     = normalize with_numbers "Hello,   World! 123.".
Proof.
  split.
  - apply (proj1 C4_idempotent_without_apostrophes default scenario).
    reflexivity.
  - apply (proj1 C4_idempotent_without_apostrophes with_numbers).
    apply (proj2 C4_idempotent_without_apostrophes with_numbers).
    reflexivity.
Defined.

End IdempotenceFacts.


(* ================================================================== *)
(** * Further properties of the code *)
(* ================================================================== *)

(** ** Loading a serialized comparison record *)

Module SerializationFacts.
Import PyFloat Comparison ComparisonFacts.
Local Open Scope float_scope.

(** X1: on a dict whose values have the types the dataclass declares,
    [from_dict] fails (the [KeyError] of [data[key]]) exactly when one of the
    six keys it indexes is missing; [hybrid_score] and [computed_at] may be
    absent. The record it returns holds the stored values; its hybrid score
    is the stored one when the dict has a float there, and the formula with
    [alpha = 0.5] on the loaded [wer] and [semantic_similarity] when the key
    is absent or holds [None]; a stored [computed_at] is not read, the
    record is stamped with the time of loading. *)
Theorem X1_from_dict_keys :
  forall (now : string) (data : pydict),
    well_typed data = true ->
    (from_dict now data = None
     <-> lookup "chunk_index" data = None
         \/ lookup "normalized_transcript" data = None
         \/ lookup "normalized_caption" data = None
         \/ lookup "wer" data = None
         \/ lookup "cer" data = None
         \/ lookup "semantic_similarity" data = None)
    /\ (forall r, from_dict now data = Some r ->
          lookup "chunk_index" data = Some (VInt (chunk_index r))
          /\ lookup "normalized_transcript" data
             = Some (VStr (normalized_transcript r))
          /\ lookup "normalized_caption" data
             = Some (VStr (normalized_caption r))
          /\ lookup "wer" data = Some (VFloat (wer r))
          /\ lookup "cer" data = Some (VFloat (cer r))
          /\ lookup "semantic_similarity" data
             = Some (VFloat (semantic_similarity r))
          /\ computed_at r = now
          /\ (forall h, lookup "hybrid_score" data = Some (VFloat h) ->
                        hybrid_score r = Some h)
          /\ (lookup "hybrid_score" data = None
              \/ lookup "hybrid_score" data = Some VNone ->
              hybrid_score r
              = Some (0.5 * (1.0 - py_min (wer r) 1.0)
                      + (1 - 0.5) * semantic_similarity r))).
Proof.
  intros now data T. unfold well_typed in T.
  repeat (apply andb_prop in T; destruct T as [T ?]).
  unfold holds_int, holds_str, holds_float, holds_optional_float in *.
  unfold from_dict, get_int, get_str, get_float, get_optional_float.
  destruct (lookup "chunk_index" data) as [[i| | |]|]; try discriminate;
    [|split; [split; auto | discriminate]].
  destruct (lookup "normalized_transcript" data) as [[|t| |]|];
    try discriminate; [|split; [split; auto | discriminate]].
  destruct (lookup "normalized_caption" data) as [[|c| |]|];
    try discriminate; [|split; [split; auto | discriminate]].
  destruct (lookup "wer" data) as [[| |w|]|]; try discriminate;
    [|split; [split; auto | discriminate]].
  destruct (lookup "cer" data) as [[| |ce|]|]; try discriminate;
    [|split; [split; auto 6 | discriminate]].
  destruct (lookup "semantic_similarity" data) as [[| |s|]|];
    try discriminate; [|split; [split; auto 7 | discriminate]].
  destruct (lookup "hybrid_score" data) as [[| |h|]|]; try discriminate.
  - split.
    + split; [discriminate|].
      intros [H'|[H'|[H'|[H'|[H'|H']]]]]; discriminate.
    + intros r [= <-]. rewrite new_keeps_given_hybrid. cbn.
      repeat split; try reflexivity.
      * now intros h' [= <-].
      * intros [H'|H']; discriminate.
  - split.
    + split; [discriminate|].
      intros [H'|[H'|[H'|[H'|[H'|H']]]]]; discriminate.
    + intros r [= <-]. rewrite new_fills_hybrid. cbn.
      repeat split; try reflexivity. discriminate.
  - split.
    + split; [discriminate|].
      intros [H'|[H'|[H'|[H'|[H'|H']]]]]; discriminate.
    + intros r [= <-]. rewrite new_fills_hybrid. cbn.
      repeat split; try reflexivity. discriminate.
Qed.

(** Two instances: a dict without [cer] cannot be loaded; a dict with the
    six keys and a stale [computed_at] but no [hybrid_score] is loaded with
    the score 0.625 and the new timestamp. *)
Lemma X1_from_dict_keys_witness :
  from_dict "t" [("chunk_index", VInt 0); ("normalized_transcript", VStr "a");
                 ("normalized_caption", VStr "b");
                 ("wer", VFloat 0.5);
                 ("semantic_similarity", VFloat 0.75)] = None
  /\ exists r,
       from_dict "t" [("chunk_index", VInt 0);
                      ("normalized_transcript", VStr "a");
                      ("normalized_caption", VStr "b");
                      ("wer", VFloat 0.5); ("cer", VFloat 0.25);
                      ("semantic_similarity", VFloat 0.75);
                      ("computed_at", VStr "s")] = Some r
       /\ hybrid_score r = Some 0.625 /\ computed_at r = "t".
Proof.
  split.
  - apply (proj1 (X1_from_dict_keys "t"
                    [("chunk_index", VInt 0);
                     ("normalized_transcript", VStr "a");
                     ("normalized_caption", VStr "b");
                     ("wer", VFloat 0.5);
                     ("semantic_similarity", VFloat 0.75)] eq_refl)).
    right. right. right. right. left. reflexivity.
  - set (d := [("chunk_index", VInt 0); ("normalized_transcript", VStr "a");
               ("normalized_caption", VStr "b");
               ("wer", VFloat 0.5); ("cer", VFloat 0.25);
               ("semantic_similarity", VFloat 0.75);
               ("computed_at", VStr "s")]).
    destruct (from_dict "t" d) as [r|] eqn:E; [|discriminate E].
    exists r. split; [reflexivity|].
    destruct (proj2 (X1_from_dict_keys "t" d eq_refl) r E)
      as (_ & _ & _ & Hw & _ & Hs & Ht & _ & Hn).
    split; [|exact Ht].
    rewrite (Hn (or_introl eq_refl)).
    change (Some (VFloat 0.5) = Some (VFloat (wer r))) in Hw.
    change (Some (VFloat 0.75) = Some (VFloat (semantic_similarity r))) in Hs.
    injection Hw as <-. injection Hs as <-.
    vm_compute. reflexivity.
Defined.

(** X2: a record whose hybrid score is zero is written with
    [hybrid_score: None] and comes back with the score recomputed from the
    rounded [wer] and [semantic_similarity] with [alpha = 0.5], whatever
    weight produced the original. *)
Theorem X2_zero_hybrid_recomputed :
  forall (now : string) (r : ComparisonResult) (h : float),
    hybrid_score r = Some h -> truthy h = false ->
    lookup "hybrid_score" (to_dict r) = Some VNone
    /\ exists r',
         from_dict now (to_dict r) = Some r'
         /\ hybrid_score r'
            = Some (0.5 * (1.0 - py_min (round4 (wer r)) 1.0)
                    + (1 - 0.5) * round4 (semantic_similarity r)).
Proof.
  intros now r h E T. split.
  - unfold to_dict. cbn [lookup String.eqb Ascii.eqb Bool.eqb].
    now rewrite E, T.
  - eexists. split; [apply from_dict_to_dict|].
    rewrite E, T, new_fills_hybrid. reflexivity.
Qed.

(** An instance: scored with [alpha = 1], a WER of 1.0 and a similarity of
    1.0 give the hybrid score 0.0, which comes back as 0.5. *)
Lemma X2_zero_hybrid_recomputed_witness :
  exists r',
    from_dict "t" (to_dict (mkResult 0 "a" "b" 1.0 1.0 1.0 (Some 0.0) "t"))
    = Some r'
    /\ hybrid_score r' = Some 0.5.
Proof.
  destruct (X2_zero_hybrid_recomputed "t"
              (mkResult 0 "a" "b" 1.0 1.0 1.0 (Some 0.0) "t") 0.0
              eq_refl eq_refl) as (_ & r' & E & H).
  exists r'. split; [exact E|]. rewrite H. vm_compute. reflexivity.
Defined.

End SerializationFacts.

(** ** The summary of a list of results *)

Module SummaryFacts.
Import PyFloat Comparison Summary.
Local Open Scope float_scope.

Lemma min_of_member (first : float) (rest : list float) :
  In (min_of first rest) (first :: rest).
Proof.
  unfold min_of. revert first. induction rest as [|x rest IH]; intros first.
  - now left.
  - cbn [fold_left]. destruct (IH (py_min first x)) as [H|H].
    + rewrite <- H. unfold py_min. destruct (x <? first)%float;
        [right; now left | now left].
    + right. now right.
Qed.

Lemma max_of_member (first : float) (rest : list float) :
  In (max_of first rest) (first :: rest).
Proof.
  unfold max_of. revert first. induction rest as [|x rest IH]; intros first.
  - now left.
  - cbn [fold_left]. destruct (IH (py_max first x)) as [H|H].
    + rewrite <- H. unfold py_max. destruct (first <? x)%float;
        [right; now left | now left].
    + right. now right.
Qed.

Lemma hybrids_of_length (results : list ComparisonResult) :
  (List.length (hybrids_of results) <= List.length results)%nat.
Proof.
  induction results as [|r rest IH]; cbn; [lia|].
  destruct (hybrid_score r); cbn; lia.
Qed.

Section Statistics.
Variable mean : list float -> option float.
Variable stdev : list float -> option float.
(** What the library documents: [mean] raises only on empty data, [stdev]
    only on fewer than two points. *)
Hypothesis mean_defined : forall data, data <> [] -> mean data <> None.
Hypothesis stdev_defined :
  forall data, (2 <= List.length data)%nat -> stdev data <> None.

(** X3: [MetricsSummary.from_results] never lets a [StatisticsError]
    escape: on every list it returns a summary whose [total_chunks] is the
    number of results; for no results every statistic is 0.0 and neither
    [mean] nor [stdev] is consulted, for one result the deviations are 0.0,
    and for any non-empty list the minima and maxima are WER and CER values
    of the results. *)
Theorem X3_from_results_total :
  forall results : list ComparisonResult,
    exists s,
      from_results mean stdev results = Some s
      /\ total_chunks s = Z.of_nat (List.length results)
      /\ (results = [] ->
          s = mkSummary 0.0 0.0 0.0 0.0 0.0 0.0 0.0 0.0 0.0 0.0 0)
      /\ (List.length results = 1%nat -> std_wer s = 0.0 /\ std_cer s = 0.0)
      /\ (results <> [] ->
          In (min_wer s) (map wer results) /\ In (max_wer s) (map wer results)
          /\ In (min_cer s) (map cer results)
          /\ In (max_cer s) (map cer results)).
Proof.
  intros [|r rest].
  - eexists. split; [reflexivity|]. cbn. repeat split; congruence.
  - unfold from_results.
    destruct (mean (map wer (r :: rest))) as [aw|] eqn:E1;
      [|now apply mean_defined in E1].
    destruct (mean (map cer (r :: rest))) as [ac|] eqn:E2;
      [|now apply mean_defined in E2].
    destruct (mean (map semantic_similarity (r :: rest))) as [asim|] eqn:E3;
      [|now apply mean_defined in E3].
    assert (H4 : exists ah,
               match hybrids_of (r :: rest) with
               | [] => Some 0.0
               | _ :: _ => mean (hybrids_of (r :: rest))
               end = Some ah).
    { destruct (hybrids_of (r :: rest)) as [|h hs] eqn:Eh; [eauto|].
      destruct (mean (h :: hs)) as [ah|] eqn:E4; [eauto|].
      now apply mean_defined in E4. }
    destruct H4 as [ah ->].
    assert (H5 : forall data : list float,
               exists sd,
                 (if (1 <? List.length data)%nat then stdev data else Some 0.0)
                 = Some sd
                 /\ (List.length data = 1%nat -> sd = 0.0)).
    { intros data. destruct (1 <? List.length data)%nat eqn:L.
      - apply Nat.ltb_lt in L. destruct (stdev data) as [sd|] eqn:E5.
        + exists sd. split; [reflexivity | lia].
        + apply stdev_defined in E5; [contradiction | lia].
      - eauto. }
    destruct (H5 (map wer (r :: rest))) as (sw & -> & Hsw).
    destruct (H5 (map cer (r :: rest))) as (sc & -> & Hsc).
    eexists. split; [reflexivity|]. cbn [total_chunks std_wer std_cer
      min_wer max_wer min_cer max_cer]. split; [reflexivity|].
    split; [discriminate|]. split.
    + intros L. rewrite length_map in Hsw, Hsc. auto.
    + intros _. cbn [map]. repeat split;
        first [apply min_of_member | apply max_of_member].
Qed.

End Statistics.

(** An instance with a mean and a deviation that fail on short input as the
    library's do. *)
Lemma X3_from_results_total_witness :
  exists s,
    from_results sample_mean sample_stdev
      [mkResult 0 "a" "a" 0.25 0.5 0.75 (Some 0.5) "t"] = Some s
    /\ total_chunks s = 1%Z.
Proof.
  destruct (X3_from_results_total sample_mean sample_stdev) with
    (results := [mkResult 0 "a" "a" 0.25 0.5 0.75 (Some 0.5) "t"])
    as (s & E & T & _).
  - intros [|x data] H; [contradiction | discriminate].
  - intros [|x [|y data]] H; cbn in H; try lia. discriminate.
  - exists s. split; [exact E | exact T].
Defined.

End SummaryFacts.

(** ** The alignment on equal sequences *)

Module EditDistanceFacts.
Import EditDistance.

Section Rows.
Context {A : Type} (eqb : A -> A -> bool).
Hypothesis eqb_refl : forall x, eqb x x = true.

Lemma row_go_length (x : A) (hyp : list A) :
  forall prev diag left,
    List.length (row_go eqb x hyp prev diag left)
    = Nat.min (List.length hyp) (List.length prev).
Proof.
  induction hyp as [|y hyp IH]; intros [|up prev] diag left; cbn;
    try reflexivity.
  now rewrite IH.
Qed.

(** An entry is at most its upper-left neighbour plus the substitution
    cost. *)
Lemma row_go_diagonal (x : A) (hyp : list A) :
  forall prev diag left j,
    (j < List.length hyp)%nat -> (j < List.length prev)%nat ->
    (nth j (row_go eqb x hyp prev diag left) 0
     <= nth j (diag :: prev) 0 + (if eqb x (nth j hyp x) then 0 else 1))%nat.
Proof.
  induction hyp as [|y hyp IH]; intros [|up prev] diag left j Hh Hp;
    cbn in Hh, Hp; try lia.
  destruct j as [|j].
  - cbn [row_go nth]. destruct (eqb x y); lia.
  - cbn [row_go nth]. apply (IH prev up _ j); lia.
Qed.

Lemma next_row_length (hyp : list A) (prev : list nat) (x : A) :
  List.length prev = S (List.length hyp) ->
  List.length (next_row eqb hyp prev x) = S (List.length hyp).
Proof.
  destruct prev as [|d prev]; [discriminate|]. cbn. intros [= H].
  rewrite row_go_length. lia.
Qed.

Lemma next_row_diagonal (hyp : list A) (prev : list nat) (x : A)
      (j : nat) :
  List.length prev = S (List.length hyp) -> (j < List.length hyp)%nat ->
  (nth (S j) (next_row eqb hyp prev x) 0
   <= nth j prev 0 + (if eqb x (nth j hyp x) then 0 else 1))%nat.
Proof.
  destruct prev as [|d prev]; [discriminate|]. cbn [List.length next_row nth].
  intros [= H] Hj. apply row_go_diagonal; lia.
Qed.

Lemma firstn_succ (l : list A) (k : nat) (d : A) :
  (k < List.length l)%nat -> firstn (S k) l = firstn k l ++ [nth k l d].
Proof.
  revert k. induction l as [|a l IH]; intros [|k] H; cbn in *; try lia;
    [reflexivity|].
  now rewrite <- IH by lia.
Qed.

Lemma last_nth (l : list nat) (d : nat) :
  last l d = nth (List.length l - 1) l d.
Proof.
  induction l as [|a [|b l] IH]; try reflexivity.
  change (last (a :: b :: l) d) with (last (b :: l) d). rewrite IH.
  cbn [List.length].
  replace (S (S (List.length l)) - 1)%nat with (S (S (List.length l) - 1))
    by lia.
  reflexivity.
Qed.

(** Aligning a sequence with itself, the table stays 0 on the diagonal. *)
Lemma diagonal_zero (l : list A) :
  forall k, (k <= List.length l)%nat ->
    let row := fold_left (next_row eqb l) (firstn k l)
                         (seq 0 (S (List.length l))) in
    List.length row = S (List.length l) /\ nth k row 0 = 0%nat.
Proof.
  induction k as [|k IH]; intros Hk; cbv zeta.
  - cbn [firstn fold_left]. rewrite length_seq. split; reflexivity.
  - destruct (IH ltac:(lia)) as [Hlen Hz].
    destruct l as [|a l']; [cbn in Hk; lia|]. set (l := a :: l') in *.
    rewrite (firstn_succ l k a) by lia. rewrite fold_left_app.
    cbn [fold_left]. split; [now apply next_row_length|].
    pose proof (next_row_diagonal l _ (nth k l a) k Hlen ltac:(lia)) as D.
    rewrite Hz in D.
    rewrite (nth_indep l (nth k l a) a) in D by lia.
    rewrite eqb_refl in D. lia.
Qed.

Lemma levenshtein_same (l : list A) : levenshtein eqb l l = 0%nat.
Proof.
  unfold levenshtein.
  destruct (diagonal_zero l (List.length l) (le_n _)) as [Hlen Hz].
  rewrite firstn_all in Hlen, Hz. rewrite last_nth, Hlen.
  cbn [Nat.sub]. now rewrite Nat.sub_0_r.
Qed.

End Rows.

End EditDistanceFacts.

(** ** More on the calculators and the semantic wrapper *)

Module CalculatorFacts.
Import PyStr PyFloat Normalizer Comparison Scorer Detailed Batch.
Import PyStrFacts NormalizerFacts PyFloatFacts ScorerFacts IdempotenceFacts.
Local Open Scope float_scope.

(** Dividing zero gives nothing above zero, whatever the divisor. *)
Lemma zero_rate_clamped (n : nat) :
  py_min 1.0 (py_max 0.0 (EditDistance.rate 0 n)) = 0.0.
Proof.
  unfold EditDistance.rate, py_max.
  change (of_nat 0) with 0.0.
  assert (Z : (0.0 <? 0.0 / of_nat (Nat.max 1 n)) = false).
  { rewrite FloatAxioms.ltb_spec, FloatAxioms.div_spec.
    change (Prim2SF 0) with (S754_zero false).
    destruct (Prim2SF (of_nat (Nat.max 1 n))); reflexivity. }
  rewrite Z. reflexivity.
Qed.

Lemma apply_normalizer_same (n : option TextNormalizer) (text : string) :
  exists x, apply_normalizer n text text = (x, x).
Proof. unfold apply_normalizer, normalize_pair. destruct n; eauto. Qed.

(** X4: the word and character error rates of any text against itself are
    0.0, with or without normalization. *)
Theorem X4_error_rate_of_identical_texts :
  forall (w : WERCalculator) (c : CERCalculator) (text : string),
    wer_calculate w text text = 0.0 /\ cer_calculate c text text = 0.0.
Proof.
  intros w c text. unfold wer_calculate, cer_calculate. split.
  - destruct (apply_normalizer_same (wer_normalizer w) text) as [x ->].
    destruct (blank x); [reflexivity|].
    unfold EditDistance.calculate_wer.
    rewrite (EditDistanceFacts.levenshtein_same _ String.eqb_refl).
    apply zero_rate_clamped.
  - destruct (apply_normalizer_same (cer_normalizer c) text) as [x ->].
    destruct (blank x); [reflexivity|].
    unfold EditDistance.calculate_cer.
    rewrite (EditDistanceFacts.levenshtein_same _ Ascii.eqb_refl).
    apply zero_rate_clamped.
Qed.

(** Normalizing a normalized text that has no apostrophe changes nothing. *)
Lemma normalize_fixed_point (self : TextNormalizer) (text : string) :
  no_apostrophe (normalize self text) = true ->
  normalize self (normalize self text) = normalize self text.
Proof.
  intros A.
  destruct (normalize_output self text) as (B & C & D & E).
  set (out := normalize self text) in *. unfold normalize.
  destruct (is_empty out) eqn:Em; [now apply is_empty_true in Em|].
  destruct self as [l p c n e].
  cbn [lowercase remove_punctuation collapse_whitespace numbers_to_words
       expand_contractions] in *.
  replace (if l then lower out else out) with out
    by (destruct l; [now rewrite lower_fixed_id by auto | reflexivity]).
  replace (if e then _expand_contractions out else out) with out
    by (destruct e; [now rewrite expand_no_apostrophe | reflexivity]).
  replace (if n then _numbers_to_words out else out) with out
    by (destruct n; [now rewrite no_digit_id by auto | reflexivity]).
  replace (if p then _remove_punctuation out else out) with out
    by (destruct p;
        [now rewrite clean_id by auto using clean_without_apostrophe
        | reflexivity]).
  destruct c; [now apply E | reflexivity].
Qed.

(** X5: [CERCalculator.calculate_detailed] counts the characters of the
    normalized texts and reports their absolute difference; its [cer] is
    that of [calculate] on the already normalized texts, hence equal to
    [calculate] on the raw texts whenever the normalized texts contain no
    apostrophe (and always without a normalizer). With an apostrophe the two
    can differ: for "a' 'b" against "a b" [calculate] gives 0.25 and the
    detailed variant 0.0 over 4 reference characters. *)
Theorem X5_cer_detailed :
  (forall (self : CERCalculator) (reference hypothesis : string),
      let '(r, h) :=
        apply_normalizer (cer_normalizer self) reference hypothesis in
      let d := cer_calculate_detailed self reference hypothesis in
      reference_chars d = Z.of_nat (String.length r)
      /\ hypothesis_chars d = Z.of_nat (String.length h)
      /\ char_difference d
         = Z.abs (reference_chars d - hypothesis_chars d)
      /\ d_cer d = cer_calculate self r h
      /\ (cer_normalizer self = None ->
          d_cer d = cer_calculate self reference hypothesis)
      /\ (no_apostrophe r = true -> no_apostrophe h = true ->
          d_cer d = cer_calculate self reference hypothesis))
  /\ cer_calculate (new_cer true) "a' 'b" "a b" = 0.25
  /\ d_cer (cer_calculate_detailed (new_cer true) "a' 'b" "a b") = 0.0
  /\ reference_chars (cer_calculate_detailed (new_cer true) "a' 'b" "a b")
     = 4%Z.
Proof.
  split; [|repeat split; vm_compute; reflexivity].
  intros [n] reference hypothesis. unfold cer_calculate_detailed.
  cbn [cer_normalizer].
  destruct (apply_normalizer n reference hypothesis) as [r h] eqn:E.
  cbn [reference_chars hypothesis_chars char_difference d_cer].
  repeat split.
  - intros ->. cbn in E. now injection E as <- <-.
  - intros Hr Hh. destruct n as [n|]; cbn in E; injection E as <- <-;
      [|reflexivity].
    unfold cer_calculate. cbn [cer_normalizer apply_normalizer normalize_pair].
    now rewrite !normalize_fixed_point.
Qed.

Lemma X5_cer_detailed_witness :
  d_cer (cer_calculate_detailed (new_cer true) "It's here" "its here")
  = cer_calculate (new_cer true) "It's here" "its here".
Proof.
  pose proof (proj1 X5_cer_detailed (new_cer true) "It's here" "its here")
    as H.
  cbn [new_cer cer_normalizer make_normalizer apply_normalizer
       normalize_pair] in H.
  destruct H as (_ & _ & _ & _ & _ & H). apply H; reflexivity.
Defined.

Section Backend.
Variable backend_loads : bool.
Variable cos_sim : string -> string -> option float.

Abbreviation calculate1 := (sem_calculate backend_loads cos_sim).
Abbreviation value1 := (sem_value cos_sim).

(** [calculate] with the model in place. *)
Lemma sem_calculate_loaded (self : SemanticSimilarity)
      (text1 text2 : string) (calls : list (string * string)) (t : nat) :
  calculate1 self text1 text2 (mkWorld true calls t)
  = (Ok (value1 self text1 text2),
     mkWorld true (calls ++ encoded_pair self (text1, text2)) t).
Proof.
  rewrite sem_calculate_spec. unfold Scorer.sem_value, encoded_pair.
  cbn [model_loaded orb fst snd encode_calls ticks].
  destruct (apply_normalizer _ _ _) as [n1 n2].
  destruct (blank n1 || blank n2) eqn:B.
  - rewrite (stripped_equal_when_blank _ _ B). now rewrite app_nil_r.
  - reflexivity.
Qed.

Lemma batch_loop_loaded (self : SemanticSimilarity) :
  forall (pairs : list (string * string)) (acc : list float)
         (calls : list (string * string)) (t : nat),
    batch_loop backend_loads cos_sim self pairs acc (mkWorld true calls t)
    = (Ok (acc ++ map (fun p => value1 self (fst p) (snd p)) pairs),
       mkWorld true (calls ++ flat_map (encoded_pair self) pairs) t).
Proof.
  induction pairs as [|[t1 t2] rest IH]; intros acc calls t.
  - cbn. now rewrite !app_nil_r.
  - cbn [batch_loop]. unfold bind. rewrite sem_calculate_loaded, IH.
    cbn [map flat_map fst snd]. now rewrite <- !app_assoc.
Qed.

End Backend.

(** X6: [calculate_batch] loads the model first, so it raises, even for an
    empty list, when the model cannot be loaded; otherwise it returns one
    score per pair, in order, each the score of [calculate] for that pair,
    and sends to [encode] exactly the normalized pairs that are not blank,
    in order. *)
Theorem X6_calculate_batch :
  forall (backend_loads : bool) (cos_sim : string -> string -> option float)
         (self : SemanticSimilarity) (pairs : list (string * string))
         (w : World),
    calculate_batch backend_loads cos_sim self pairs w
    = if model_loaded w || backend_loads
      then (Ok (map (fun p => sem_value cos_sim self (fst p) (snd p)) pairs),
            mkWorld true
                    (encode_calls w ++ flat_map (encoded_pair self) pairs)
                    (ticks w))
      else (Raise BackendError, w).
Proof.
  intros backend_loads cos_sim self pairs [l calls t].
  unfold calculate_batch, bind, _load_model.
  cbn [model_loaded encode_calls ticks].
  destruct l; cbn [orb]; [apply batch_loop_loaded|].
  destruct backend_loads; [apply batch_loop_loaded | reflexivity].
Qed.

(** X7: unloading clears the model slot and nothing else, and unloading
    twice is unloading once; a [calculate] after it returns the score it
    would have returned before, with the model loaded again, when the
    backend can be constructed, and raises when it cannot, although the
    model was in place before the unload. *)
Theorem X7_unload_then_calculate :
  forall (backend_loads : bool) (cos_sim : string -> string -> option float)
         (self : SemanticSimilarity) (text1 text2 : string) (w : World),
    let w' := snd (unload_model w) in
    model_loaded w' = false
    /\ encode_calls w' = encode_calls w /\ ticks w' = ticks w
    /\ unload_model w' = unload_model w
    /\ sem_calculate backend_loads cos_sim self text1 text2 w'
       = if backend_loads
         then (Ok (sem_value cos_sim self text1 text2),
               mkWorld true
                       (encode_calls w ++ encoded_pair self (text1, text2))
                       (ticks w))
         else (Raise BackendError, w').
Proof.
  intros backend_loads cos_sim self text1 text2 w. cbv zeta.
  unfold unload_model. cbn [snd].
  repeat split. rewrite sem_calculate_spec.
  cbn [model_loaded orb encode_calls ticks].
  destruct backend_loads; [|reflexivity].
  unfold Scorer.sem_value, encoded_pair, loaded. cbn [fst snd].
  destruct (apply_normalizer _ _ _) as [n1 n2].
  destruct (blank n1 || blank n2) eqn:B.
  - rewrite (stripped_equal_when_blank _ _ B). now rewrite app_nil_r.
  - reflexivity.
Qed.

End CalculatorFacts.

(** ** What normalized text looks like *)

Module NormalizedTextFacts.
Import PyStr Normalizer PyStrFacts SplitFacts IdempotenceFacts.

Ltac each_space c :=
  let H := fresh "H" in
  destruct c as [[] [] [] [] [] [] [] []]; intros H;
  first [reflexivity | discriminate H].

Lemma string_forall_impl (p q : ascii -> bool) (s : string) :
  (forall c, p c = true -> q c = true) ->
  string_forall p s = true -> string_forall q s = true.
Proof.
  intros Hpq. induction s as [|c r IH]; intros H; [reflexivity|].
  simpl in *. apply andb_true_iff in H as [Hc H].
  now rewrite (Hpq c Hc), IH.
Qed.

Lemma no_digit_is_digit (c : ascii) : no_digit c = negb (is_digit c).
Proof. unfold no_digit, NUMBER_WORDS. each_char c. Qed.

Lemma collapse_shape (s : string) :
  strip (collapse s) = collapse s /\ single_spaced false (collapse s) = true.
Proof.
  split.
  - unfold collapse. apply strip_idempotent.
  - unfold collapse, strip, re_sub. apply single_spaced_rstrip.
    apply (single_spaced_lstrip _ false). apply collapse_single_spaced.
Qed.

(** X8: each flag of the normalizer leaves its mark on the output, whatever
    the other flags are: with [lowercase] the output is unchanged by
    [lower]; with [numbers_to_words] it has no digit; with
    [remove_punctuation] it has only word characters, whitespace and
    apostrophes; with [collapse_whitespace] it has no leading or trailing
    whitespace and its only whitespace is single spaces. *)
Theorem X8_normalize_output_shape :
  forall (self : TextNormalizer) (text : string),
    let out := normalize self text in
    (lowercase self = true -> lower out = out)
    /\ (numbers_to_words self = true ->
        string_forall (fun c => negb (is_digit c)) out = true)
    /\ (remove_punctuation self = true ->
        string_forall (fun c => is_word c || is_space c || is_apostrophe c)
                      out = true)
    /\ (collapse_whitespace self = true ->
        strip out = out /\ single_spaced false out = true).
Proof.
  intros self text.
  destruct (normalize_output self text) as (B & C & D & E). cbv zeta.
  split; [|split; [|split]].
  - intros L. now apply lower_fixed_id, B.
  - intros N. apply (string_forall_impl no_digit); [|now apply C].
    intros c. now rewrite no_digit_is_digit.
  - exact D.
  - intros W. rewrite <- (E W). apply collapse_shape.
Qed.

Lemma X8_normalize_output_shape_witness :
  lower (normalize default "Hello,  World") = normalize default "Hello,  World"
  /\ strip (normalize default "Hello,  World")
     = normalize default "Hello,  World".
Proof.
  destruct (X8_normalize_output_shape default "Hello,  World")
    as (L & _ & _ & W).
  split; [exact (L eq_refl) | exact (proj1 (W eq_refl))].
Defined.

Lemma lower_spaces (s : string) :
  string_forall is_space s = true -> string_forall is_space (lower s) = true.
Proof.
  unfold lower. induction s as [|c r IH]; intros H; [reflexivity|].
  simpl in *. apply andb_true_iff in H as [Hc H]. rewrite (IH H), andb_true_r.
  rewrite <- Hc. clear. each_char c.
Qed.

Lemma spaces_no_apostrophe (s : string) :
  string_forall is_space s = true -> no_apostrophe s = true.
Proof.
  apply string_forall_impl. intros c. each_space c.
Qed.

Lemma spaces_no_digit (s : string) :
  string_forall is_space s = true -> string_forall no_digit s = true.
Proof.
  apply string_forall_impl. intros c. unfold no_digit, NUMBER_WORDS.
  each_space c.
Qed.

Lemma spaces_clean (s : string) :
  string_forall is_space s = true -> string_forall clean s = true.
Proof.
  apply string_forall_impl. intros c H. unfold clean. rewrite H.
  apply orb_true_r.
Qed.

Lemma lstrip_spaces (s : string) :
  string_forall is_space s = true -> lstrip s = EmptyString.
Proof.
  induction s as [|c r IH]; intros H; [reflexivity|].
  simpl in *. apply andb_true_iff in H as [Hc H]. now rewrite Hc, IH.
Qed.

Lemma collapse_spaces (s : string) :
  string_forall is_space s = true -> collapse s = EmptyString.
Proof.
  intros H. unfold collapse, strip, re_sub.
  rewrite lstrip_spaces; [reflexivity|].
  apply sub_go_forall; [reflexivity | exact H].
Qed.

(** X9: when [collapse_whitespace] is on, a text made of whitespace only
    normalizes to the empty string, whatever the other flags are. *)
Theorem X9_whitespace_normalizes_to_empty :
  forall (self : TextNormalizer) (text : string),
    collapse_whitespace self = true ->
    string_forall is_space text = true ->
    normalize self text = EmptyString.
Proof.
  intros [l p c n e] text W H. cbn in W. subst c. unfold normalize.
  cbn [lowercase remove_punctuation collapse_whitespace numbers_to_words
       expand_contractions].
  destruct (is_empty text); [reflexivity|].
  set (t1 := if l then lower text else text).
  assert (H1 : string_forall is_space t1 = true).
  { subst t1. destruct l; [now apply lower_spaces | exact H]. }
  replace (if e then _expand_contractions t1 else t1) with t1
    by (destruct e; [|reflexivity];
        now rewrite expand_no_apostrophe by now apply spaces_no_apostrophe).
  replace (if n then _numbers_to_words t1 else t1) with t1
    by (destruct n; [|reflexivity];
        now rewrite no_digit_id by now apply spaces_no_digit).
  replace (if p then _remove_punctuation t1 else t1) with t1
    by (destruct p; [|reflexivity];
        now rewrite clean_id
          by (apply spaces_no_apostrophe || apply spaces_clean; exact H1)).
  now apply collapse_spaces.
Qed.

Lemma X9_whitespace_normalizes_to_empty_witness :
  normalize default "   " = EmptyString.
Proof.
  apply X9_whitespace_normalizes_to_empty; reflexivity.
Defined.

End NormalizedTextFacts.

(** ** What deduplicated text looks like *)

Module DedupOutputFacts.
Import PyStr Normalizer PyStrFacts SplitFacts SubseqFacts Deduplicator.
Import Transcripts DeduplicatorFacts IdempotenceFacts NormalizedTextFacts.

(** *** No word is followed by itself *)

Lemma no_adjacent_snoc (result : list string) (word : string) :
  no_adjacent_duplicates result = true ->
  (result = []
   \/ String.eqb (lower word) (lower (last result EmptyString)) = false) ->
  no_adjacent_duplicates (result ++ [word]) = true.
Proof.
  induction result as [|a [|b rest] IH]; intros N L.
  - reflexivity.
  - destruct L as [L|L]; [discriminate|]. cbn [last] in L.
    change (no_adjacent_duplicates ([a] ++ [word]))
      with (negb (String.eqb (lower a) (lower word)) && true).
    now rewrite String.eqb_sym, L.
  - change (no_adjacent_duplicates ((a :: b :: rest) ++ [word]))
      with (negb (String.eqb (lower a) (lower b))
            && no_adjacent_duplicates ((b :: rest) ++ [word])).
    change (no_adjacent_duplicates (a :: b :: rest))
      with (negb (String.eqb (lower a) (lower b))
            && no_adjacent_duplicates (b :: rest)) in N.
    apply andb_true_iff in N as [Nab N]. rewrite Nab. cbn [andb].
    apply IH; [exact N|]. right.
    destruct L as [L|L]; [discriminate | exact L].
Qed.

Lemma no_adjacent_fold (rest : list string) :
  forall result,
    no_adjacent_duplicates result = true ->
    no_adjacent_duplicates
      (fold_left
         (fun result word =>
            if negb (String.eqb (lower word)
                                (lower (last result EmptyString)))
            then result ++ [word] else result)
         rest result) = true.
Proof.
  induction rest as [|w rest IH]; intros result N; [exact N|].
  cbn [fold_left]. apply IH.
  destruct (String.eqb (lower w) (lower (last result EmptyString))) eqn:E;
    cbn [negb]; [exact N|].
  apply no_adjacent_snoc; auto.
Qed.

Lemma remove_consecutive_no_adjacent (text : string) :
  no_adjacent_duplicates (split (_remove_consecutive_duplicates text)) = true.
Proof.
  unfold _remove_consecutive_duplicates.
  destruct (split text) as [|first rest] eqn:E.
  - now rewrite E.
  - match goal with |- context [join " " ?r] => set (R := r) end.
    assert (T : Forall (fun w => is_token w = true) R).
    { apply (subseq_Forall _ R (first :: rest));
        [|rewrite <- E; apply split_tokens].
      apply (consecutive_fold _) with (pre := [first]) (rest := rest).
      - intros result word. destruct (negb _); auto.
      - apply subseq_refl. }
    rewrite (split_join R T). now apply no_adjacent_fold.
Qed.

(** X10: in the output of [deduplicate_text] no word is followed by the
    same word, compared without case. *)
Theorem X10_no_adjacent_duplicates :
  forall (self : NGramDeduplicator) (text out : string),
    deduplicate_text self text = Some out ->
    no_adjacent_duplicates (split out) = true.
Proof.
  intros self text out. unfold deduplicate_text.
  destruct (is_empty text || is_empty (strip text)).
  - now intros [= <-].
  - destruct (_remove_large_repetitions text) as [t1|]; [|discriminate].
    destruct (ngram_sweep _ t1) as [t2|]; [|discriminate].
    destruct (ngram_sweep _ t2) as [t3|]; [|discriminate].
    intros [= <-]. rewrite split_strip, split_collapse.
    apply remove_consecutive_no_adjacent.
Qed.

Lemma X10_no_adjacent_duplicates_witness :
  no_adjacent_duplicates (split "the Quick brown fox") = true.
Proof.
  apply (X10_no_adjacent_duplicates default
           "the  the Quick quick brown brown fox").
  reflexivity.
Defined.

(** *** The output is its words joined by single spaces *)

Lemma join_split_go (s : string) :
  forall cur,
    no_space cur = true ->
    single_spaced (is_empty cur) s = true ->
    rstrip s = s ->
    join " " (split_go cur s) = (cur ++ s)%string.
Proof.
  induction s as [|c r IH]; intros cur Hcur Hs Hr.
  - cbn [split_go]. rewrite append_nil_r.
    destruct cur; reflexivity.
  - cbn [single_spaced] in Hs. cbn [split_go].
    assert (Hr' : rstrip r = r
                  /\ (is_space c = true -> r <> EmptyString)).
    { cbn [rstrip] in Hr. destruct (rstrip r) as [|d r'] eqn:R.
      - destruct (is_space c); [discriminate|]. injection Hr as <-.
        split; [reflexivity | discriminate].
      - injection Hr as <-. split; [reflexivity | discriminate]. }
    destruct Hr' as [Hr1 Hr2]. destruct (is_space c) eqn:Hc.
    + apply andb_true_iff in Hs as [Hs1 Hs].
      apply andb_true_iff in Hs1 as [Ec Hb].
      apply Ascii.eqb_eq in Ec. subst c. apply negb_true_iff in Hb.
      rewrite Hb. specialize (IH EmptyString eq_refl Hs Hr1).
      cbn [append] in IH.
      destruct (split_go "" r) as [|x xs] eqn:Sp.
      * cbn in IH. symmetry in IH. now apply Hr2 in IH.
      * change (join " " (cur :: x :: xs))
          with (cur ++ (" " ++ join " " (x :: xs)))%string.
        now rewrite IH.
    + rewrite IH; [now rewrite append_assoc | | | exact Hr1].
      * rewrite no_space_app, Hcur. unfold no_space. simpl. now rewrite Hc.
      * now rewrite is_empty_app, andb_false_r.
Qed.

Lemma collapse_joins_words (t : string) :
  join " " (split (collapse t)) = collapse t.
Proof.
  destruct (collapse_shape t) as [St Ss]. unfold split.
  rewrite join_split_go; [reflexivity | reflexivity | |].
  - unfold collapse, strip in *.
    pose proof (lstrip_head (re_sub m_spaces " " t)) as H.
    destruct (lstrip (re_sub m_spaces " " t)) as [|c r]; [reflexivity|].
    destruct (rstrip_head c r H) as [r' R]. rewrite R in *.
    cbn [is_empty single_spaced] in *. now rewrite H in *.
  - unfold collapse, strip. apply rstrip_idempotent.
Qed.

(** X11: the output of [deduplicate_text] is its own words joined by single
    spaces: no leading or trailing whitespace, and no other whitespace than
    one space between two words. *)
Theorem X11_output_is_joined_words :
  forall (self : NGramDeduplicator) (text out : string),
    deduplicate_text self text = Some out ->
    out = join " " (split out).
Proof.
  intros self text out. unfold deduplicate_text.
  destruct (is_empty text || is_empty (strip text)).
  - now intros [= <-].
  - destruct (_remove_large_repetitions text) as [t1|]; [|discriminate].
    destruct (ngram_sweep _ t1) as [t2|]; [|discriminate].
    destruct (ngram_sweep _ t2) as [t3|]; [|discriminate].
    intros [= <-]. symmetry.
    apply (collapse_joins_words (_remove_consecutive_duplicates t3)).
Qed.

Lemma X11_output_is_joined_words_witness :
  "a b c" = join " " (split "a b c").
Proof.
  apply (X11_output_is_joined_words default "  a   b b	c ").
  reflexivity.
Defined.

(** *** The first word is kept, and the scan for [n = 0] never ends *)

Lemma lowered_empty (words : list string) (i : nat) :
  lowered words i (i + 0) = [].
Proof. unfold lowered, slice. now rewrite Nat.add_0_r, Nat.sub_diag. Qed.

(** With windows of no words every window matches: no fuel suffices. *)
Lemma skip_repeats_zero (words : list string) :
  forall fuel i, (i <= List.length words)%nat ->
                 skip_repeats fuel words 0 [] i = None.
Proof.
  induction fuel as [|fuel IH]; intros i Hi; [reflexivity|].
  cbn [skip_repeats]. rewrite (proj2 (Nat.leb_le _ _)) by lia.
  rewrite lowered_empty. cbn [tuple_eqb]. apply IH. lia.
Qed.

Lemma skip_similar_zero (words : list string) :
  forall fuel i, (i <= List.length words)%nat ->
                 skip_similar fuel words 0 [] i = None.
Proof.
  induction fuel as [|fuel IH]; intros i Hi; [reflexivity|].
  cbn [skip_similar]. rewrite (proj2 (Nat.leb_le _ _)) by lia.
  rewrite lowered_empty. cbn [_segments_similar tuple_eqb]. apply IH. lia.
Qed.

Lemma ngram_loop_prefix (words : list string) (n : nat) :
  forall fuel i result out,
    ngram_loop fuel words n i result = Some out ->
    exists tail, out = result ++ tail.
Proof.
  induction fuel as [|fuel IH]; intros i result out E; [discriminate|].
  cbn [ngram_loop] in E.
  assert (One : forall r' j, ngram_loop fuel words n j (result ++ r')
                             = Some out -> exists tail, out = result ++ tail).
  { intros r' j H. apply IH in H as [tail ->]. exists (r' ++ tail).
    now rewrite app_assoc. }
  destruct (i <? List.length words).
  - destruct (i + n * 2 <=? List.length words); [|now apply One in E].
    destruct (tuple_eqb _ _); [|now apply One in E].
    destruct (skip_repeats _ _ _ _ _); [now apply One in E | discriminate].
  - injection E as <-. exists []. now rewrite app_nil_r.
Qed.

Lemma segment_loop_prefix (words : list string) (n : nat) :
  forall fuel i result out,
    segment_loop fuel words n i result = Some out ->
    exists tail, out = result ++ tail.
Proof.
  induction fuel as [|fuel IH]; intros i result out E; [discriminate|].
  cbn [segment_loop] in E.
  assert (One : forall r' j, segment_loop fuel words n j (result ++ r')
                             = Some out -> exists tail, out = result ++ tail).
  { intros r' j H. apply IH in H as [tail ->]. exists (r' ++ tail).
    now rewrite app_assoc. }
  destruct (i <? List.length words).
  - destruct (i + n * 2 <=? List.length words); [|now apply One in E].
    destruct (_segments_similar _ _); [|now apply One in E].
    destruct (skip_similar _ _ _ _ _); [now apply One in E | discriminate].
  - injection E as <-. exists []. now rewrite app_nil_r.
Qed.

Lemma ngram_loop_head (w : string) (ws : list string) (n fuel : nat)
      (out : list string) :
  ngram_loop fuel (w :: ws) n 0 [] = Some out -> exists tail, out = w :: tail.
Proof.
  destruct fuel as [|fuel]; [discriminate|]. cbn [ngram_loop].
  change (0 <? List.length (w :: ws)) with true. cbv iota.
  assert (One : ngram_loop fuel (w :: ws) n (0 + 1) ([] ++ [w]) = Some out ->
                exists tail, out = w :: tail).
  { intros H. apply ngram_loop_prefix in H as [tail ->]. now exists tail. }
  destruct (0 + n * 2 <=? List.length (w :: ws)); [|exact One].
  destruct (tuple_eqb _ _); [|exact One].
  destruct n as [|n].
  - rewrite lowered_empty, skip_repeats_zero by (cbn; lia). discriminate.
  - destruct (skip_repeats _ _ _ _ _) as [i'|]; [|discriminate].
    intros H. apply ngram_loop_prefix in H as [tail ->].
    cbn. eauto.
Qed.

Lemma segment_loop_head (w : string) (ws : list string) (n fuel : nat)
      (out : list string) :
  segment_loop fuel (w :: ws) n 0 [] = Some out ->
  exists tail, out = w :: tail.
Proof.
  destruct fuel as [|fuel]; [discriminate|]. cbn [segment_loop].
  change (0 <? List.length (w :: ws)) with true. cbv iota.
  assert (One : segment_loop fuel (w :: ws) n (0 + 1) ([] ++ [w]) = Some out ->
                exists tail, out = w :: tail).
  { intros H. apply segment_loop_prefix in H as [tail ->]. now exists tail. }
  destruct (0 + n * 2 <=? List.length (w :: ws)); [|exact One].
  destruct (_segments_similar _ _); [|exact One].
  destruct n as [|n].
  - rewrite lowered_empty, skip_similar_zero by (cbn; lia). discriminate.
  - destruct (skip_similar _ _ _ _ _) as [i'|]; [|discriminate].
    intros H. apply segment_loop_prefix in H as [tail ->].
    cbn. eauto.
Qed.

Lemma hd_split_join (text : string) (ws : list string) :
  subseq ws (split text) -> hd_error (split (join " " ws)) = hd_error ws.
Proof.
  intros H. rewrite split_join; [reflexivity|].
  apply (subseq_Forall _ _ _ H), split_tokens.
Qed.

Lemma remove_segment_head (words : list string) (n : nat)
      (out : list string) :
  _remove_segment_repetitions words n = Some out ->
  hd_error out = hd_error words.
Proof.
  unfold _remove_segment_repetitions.
  destruct (List.length words <? n * 2); [now intros [= <-]|].
  destruct words as [|w ws].
  - cbn. now intros [= <-].
  - intros H. now apply segment_loop_head in H as [tail ->].
Qed.

Lemma segment_sweep_head (sizes : list nat) :
  forall words out,
    segment_sweep sizes words = Some out -> hd_error out = hd_error words.
Proof.
  induction sizes as [|s sizes IH]; intros words out E; cbn in E.
  - now injection E as <-.
  - destruct (_remove_segment_repetitions words s) as [ws|] eqn:R;
      [|discriminate].
    rewrite (IH _ _ E). now apply remove_segment_head in R.
Qed.

Lemma remove_large_head (text out : string) :
  _remove_large_repetitions text = Some out ->
  hd_error (split out) = hd_error (split text).
Proof.
  unfold _remove_large_repetitions.
  destruct (List.length (split text) <? 10); [now intros [= <-]|].
  destruct (segment_sweep _ _) as [ws|] eqn:E; [|discriminate].
  intros [= <-]. rewrite (hd_split_join text).
  - now apply segment_sweep_head in E.
  - now apply segment_sweep_subseq in E.
Qed.

Lemma remove_ngrams_head (text : string) (n : nat) (out : string) :
  _remove_repeated_ngrams text n = Some out ->
  hd_error (split out) = hd_error (split text).
Proof.
  unfold _remove_repeated_ngrams.
  destruct (List.length (split text) <? n * 2); [now intros [= <-]|].
  destruct (ngram_loop _ _ _ _ _) as [ws|] eqn:E; [|discriminate].
  intros [= <-]. rewrite (hd_split_join text).
  - destruct (split text) as [|w rest].
    + cbn in E. now injection E as <-.
    + now apply ngram_loop_head in E as [tail ->].
  - apply ngram_loop_subseq in E; [exact E | lia | constructor].
Qed.

Lemma ngram_sweep_head (sizes : list Z) :
  forall text out,
    ngram_sweep sizes text = Some out ->
    hd_error (split out) = hd_error (split text).
Proof.
  induction sizes as [|n sizes IH]; intros text out E; cbn in E.
  - now injection E as <-.
  - destruct (_remove_repeated_ngrams text (Z.to_nat n)) as [t|] eqn:R;
      [|discriminate].
    rewrite (IH _ _ E). now apply remove_ngrams_head in R.
Qed.

Lemma consecutive_fold_prefix (f : list string -> string -> list string) :
  (forall result word, f result word = result ++ [word]
                       \/ f result word = result) ->
  forall rest result, exists tail, fold_left f rest result = result ++ tail.
Proof.
  intros Hf. induction rest as [|w rest IH]; intros result; cbn.
  - exists []. now rewrite app_nil_r.
  - destruct (Hf result w) as [-> | ->]; [|apply IH].
    destruct (IH (result ++ [w])) as [tail ->]. exists (w :: tail).
    now rewrite <- app_assoc.
Qed.

Lemma remove_consecutive_head (text : string) :
  hd_error (split (_remove_consecutive_duplicates text))
  = hd_error (split text).
Proof.
  pose proof (remove_consecutive_subseq text) as S.
  unfold _remove_consecutive_duplicates in *.
  destruct (split text) as [|first rest] eqn:E; [now rewrite E|].
  match goal with |- context [join " " ?r] => set (R := r) in * end.
  assert (T : Forall (fun w => is_token w = true) R).
  { apply (subseq_Forall _ R (first :: rest));
      [|rewrite <- E; apply split_tokens].
    apply (consecutive_fold _) with (pre := [first]) (rest := rest).
    - intros result word. destruct (negb _); auto.
    - apply subseq_refl. }
  rewrite (split_join R T). subst R.
  destruct (consecutive_fold_prefix
              (fun result word =>
                 if negb (String.eqb (lower word)
                                     (lower (last result EmptyString)))
                 then result ++ [word] else result)) with
    (rest := rest) (result := [first]) as [tail ->]; [|reflexivity].
  intros result word. destruct (negb _); auto.
Qed.

Lemma blank_no_words (text : string) :
  is_empty text || is_empty (strip text) = true -> split text = [].
Proof.
  intros H. apply split_nil_blank. destruct text; [reflexivity|].
  exact H.
Qed.

(** X12: [deduplicate_text] always keeps the first word: the output starts
    with the first word of the input, and has no word when the input has
    none. *)
Theorem X12_first_word_kept :
  forall (self : NGramDeduplicator) (text out : string),
    deduplicate_text self text = Some out ->
    hd_error (split out) = hd_error (split text).
Proof.
  intros self text out. unfold deduplicate_text.
  destruct (is_empty text || is_empty (strip text)) eqn:B.
  - intros [= <-]. now rewrite (blank_no_words text B).
  - destruct (_remove_large_repetitions text) as [t1|] eqn:E1;
      [|discriminate].
    destruct (ngram_sweep _ t1) as [t2|] eqn:E2; [|discriminate].
    destruct (ngram_sweep _ t2) as [t3|] eqn:E3; [|discriminate].
    intros [= <-]. rewrite split_strip, split_collapse.
    rewrite remove_consecutive_head.
    rewrite (ngram_sweep_head _ _ _ E3), (ngram_sweep_head _ _ _ E2).
    now apply remove_large_head.
Qed.

Lemma X12_first_word_kept_witness :
  hd_error (split "hello world how are you")
  = hd_error (split "hello world hello world how are you").
Proof.
  apply (X12_first_word_kept default). reflexivity.
Defined.

Lemma remove_ngrams_zero (text : string) :
  split text <> [] -> _remove_repeated_ngrams text 0 = None.
Proof.
  intros H. unfold _remove_repeated_ngrams. cbn [Nat.mul Nat.ltb Nat.leb].
  destruct (split text) as [|w ws]; [contradiction|].
  cbn [ngram_loop]. change (0 <? List.length (w :: ws)) with true.
  change (0 + 0 * 2 <=? List.length (w :: ws)) with true. cbv iota.
  rewrite !lowered_empty. cbn [tuple_eqb].
  now rewrite skip_repeats_zero by (cbn; lia).
Qed.

Lemma ngram_sweep_app (a b : list Z) (text : string) :
  ngram_sweep (a ++ b) text
  = match ngram_sweep a text with
    | Some t => ngram_sweep b t
    | None => None
    end.
Proof.
  revert text. induction a as [|n a IH]; intros text; cbn; [reflexivity|].
  destruct (_remove_repeated_ngrams text (Z.to_nat n)); [apply IH|reflexivity].
Qed.

Lemma z_range_down_through_zero (stop : Z) :
  (stop < 0)%Z ->
  exists rest, z_range_down 4 stop = [4; 3; 2; 1]%Z ++ 0%Z :: rest.
Proof.
  intros H. unfold z_range_down.
  replace (Z.to_nat (4 - stop)) with (5 + Z.to_nat (- 1 - stop))%nat by lia.
  rewrite seq_app, map_app. cbn [seq map Nat.add]. eexists. reflexivity.
Qed.

(** X13: with a negative [min_n] the sweep reaches [n = 0], where the scan
    compares empty windows forever: [deduplicate_text] does not return on
    any text that has a word (the inner loop for [n = 0] ends with no
    amount of fuel). *)
Theorem X13_negative_min_n_never_returns :
  (forall (self : NGramDeduplicator) (text : string),
      (min_n self < 0)%Z -> split text <> [] ->
      deduplicate_text self text = None)
  /\ (forall (words : list string) (fuel i : nat),
         (i <= List.length words)%nat ->
         skip_repeats fuel words 0 [] i = None).
Proof.
  split; [|apply skip_repeats_zero].
  intros self text Hmin Hw. unfold deduplicate_text.
  destruct (is_empty text || is_empty (strip text)) eqn:B;
    [now apply blank_no_words in B|].
  destruct (remove_large_total text) as [t1 E1]. rewrite E1.
  destruct (ngram_sweep _ t1) as [t2|] eqn:E2; [|reflexivity].
  destruct (z_range_down_through_zero (min_n self) Hmin) as [rest ->].
  rewrite ngram_sweep_app.
  destruct (ngram_sweep [4; 3; 2; 1]%Z t2) as [t3|] eqn:E3; [|reflexivity].
  cbn [ngram_sweep Z.to_nat]. rewrite remove_ngrams_zero; [reflexivity|].
  intros N. apply Hw.
  apply ngram_sweep_head in E3, E2. apply remove_large_head in E1.
  rewrite N, E2, E1 in E3. now destruct (split text).
Qed.

Lemma X13_negative_min_n_never_returns_witness :
  deduplicate_text {| min_n := -1; max_n := 30 |} "hello" = None.
Proof.
  apply (proj1 X13_negative_min_n_never_returns); [reflexivity|].
  vm_compute. discriminate.
Defined.

(** *** Text whose words are all different *)

Lemma lowered_nth (words : list string) (i n k : nat) :
  (k < n)%nat ->
  nth k (lowered words i (i + n)) EmptyString
  = nth (i + k) (map lower words) EmptyString.
Proof.
  intros H. unfold lowered, slice.
  change EmptyString with (lower EmptyString). rewrite !map_nth. f_equal.
  rewrite nth_firstn, nth_skipn.
  now rewrite (proj2 (Nat.ltb_lt _ _)) by lia.
Qed.

Lemma windows_differ (words : list string) (i j n k : nat) :
  NoDup (map lower words) ->
  (i + n <= j)%nat -> (j + n <= List.length words)%nat -> (k < n)%nat ->
  nth k (lowered words i (i + n)) EmptyString
  <> nth k (lowered words j (j + n)) EmptyString.
Proof.
  intros N Hij Hj Hk. rewrite !lowered_nth by exact Hk. intros E.
  apply (proj1 (NoDup_nth _ EmptyString) N) in E;
    rewrite ?length_map; lia.
Qed.

Lemma matches_zero (l1 l2 : list string) :
  (forall k, (k < List.length l1)%nat ->
             nth k l1 EmptyString <> nth k l2 EmptyString) ->
  matches l1 l2 = 0%nat.
Proof.
  revert l2. induction l1 as [|a l1 IH]; intros [|b l2] H; try reflexivity.
  cbn [matches]. rewrite IH.
  - destruct (String.eqb a b) eqn:E; [|reflexivity].
    apply String.eqb_eq in E. exfalso. apply (H 0%nat); [cbn; lia | exact E].
  - intros k Hk. apply (H (S k)). cbn. lia.
Qed.

Lemma distinct_not_equal (words : list string) (i j n : nat) :
  NoDup (map lower words) -> (1 <= n)%nat ->
  (i + n <= j)%nat -> (j + n <= List.length words)%nat ->
  tuple_eqb (lowered words i (i + n)) (lowered words j (j + n)) = false.
Proof.
  intros N Hn Hij Hj.
  destruct (tuple_eqb _ _) eqn:E; [|reflexivity].
  apply tuple_eqb_eq in E. exfalso.
  apply (windows_differ words i j n 0 N Hij Hj Hn). now rewrite E.
Qed.

Lemma distinct_not_similar (words : list string) (i j n : nat) :
  NoDup (map lower words) -> (1 <= n <= 25)%nat ->
  (i + n <= j)%nat -> (j + n <= List.length words)%nat ->
  _segments_similar (lowered words i (i + n)) (lowered words j (j + n))
  = false.
Proof.
  intros N Hn Hij Hj.
  destruct (_segments_similar _ _) eqn:E; [|reflexivity]. exfalso.
  assert (L1 : List.length (lowered words i (i + n)) = n)
    by (apply lowered_length; lia).
  assert (L2 : List.length (lowered words j (j + n)) = n)
    by (apply lowered_length; lia).
  apply segments_similar_iff in E; [|congruence | lia].
  destruct E as [E | [_ E]].
  - apply tuple_eqb_eq in E.
    rewrite distinct_not_equal in E by (auto; lia). discriminate.
  - rewrite matches_zero in E; [lia|].
    intros k Hk. apply windows_differ; auto; lia.
Qed.

Lemma skipn_cons_nth (words : list string) (i : nat) :
  (i < List.length words)%nat ->
  skipn i words = nth i words EmptyString :: skipn (i + 1) words.
Proof.
  revert i. induction words as [|w ws IH]; intros [|i] H; cbn in *;
    try lia; [reflexivity|].
  now apply IH; lia.
Qed.

Lemma segment_loop_distinct (words : list string) (n : nat) :
  NoDup (map lower words) -> (1 <= n <= 25)%nat ->
  forall fuel i result,
    (List.length words - i < fuel)%nat ->
    segment_loop fuel words n i result = Some (result ++ skipn i words).
Proof.
  intros N Hn. induction fuel as [|fuel IH]; intros i result H; [lia|].
  cbn [segment_loop]. destruct (i <? List.length words) eqn:L.
  - apply Nat.ltb_lt in L.
    assert (One : segment_loop fuel words n (i + 1)
                    (result ++ [nth i words EmptyString])
                  = Some (result ++ skipn i words)).
    { rewrite IH by lia. rewrite (skipn_cons_nth words i L).
      now rewrite <- app_assoc. }
    destruct (i + n * 2 <=? List.length words) eqn:B; [|exact One].
    apply Nat.leb_le in B.
    replace (i + n * 2)%nat with (i + n + n)%nat by lia.
    rewrite distinct_not_similar by (auto; lia). exact One.
  - apply Nat.ltb_ge in L. rewrite skipn_all2 by exact L.
    now rewrite app_nil_r.
Qed.

Lemma ngram_loop_distinct (words : list string) (n : nat) :
  NoDup (map lower words) -> (1 <= n)%nat ->
  forall fuel i result,
    (List.length words - i < fuel)%nat ->
    ngram_loop fuel words n i result = Some (result ++ skipn i words).
Proof.
  intros N Hn. induction fuel as [|fuel IH]; intros i result H; [lia|].
  cbn [ngram_loop]. destruct (i <? List.length words) eqn:L.
  - apply Nat.ltb_lt in L.
    assert (One : ngram_loop fuel words n (i + 1)
                    (result ++ [nth i words EmptyString])
                  = Some (result ++ skipn i words)).
    { rewrite IH by lia. rewrite (skipn_cons_nth words i L).
      now rewrite <- app_assoc. }
    destruct (i + n * 2 <=? List.length words) eqn:B; [|exact One].
    apply Nat.leb_le in B.
    replace (i + n * 2)%nat with (i + n + n)%nat by lia.
    rewrite distinct_not_equal by (auto; lia). exact One.
  - apply Nat.ltb_ge in L. rewrite skipn_all2 by exact L.
    now rewrite app_nil_r.
Qed.

Lemma segment_sweep_distinct (words : list string) (sizes : list nat) :
  NoDup (map lower words) ->
  Forall (fun s => 1 <= s <= 25)%nat sizes ->
  segment_sweep sizes words = Some words.
Proof.
  intros N. induction 1 as [|s sizes Hs _ IH]; cbn; [reflexivity|].
  unfold _remove_segment_repetitions.
  destruct (List.length words <? s * 2); [exact IH|].
  rewrite (segment_loop_distinct words s N Hs) by lia. exact IH.
Qed.

Lemma remove_large_distinct (text : string) :
  NoDup (map lower (split text)) ->
  exists out, _remove_large_repetitions text = Some out
              /\ split out = split text.
Proof.
  intros N. unfold _remove_large_repetitions.
  destruct (List.length (split text) <? 10); [eauto|].
  rewrite (segment_sweep_distinct _ _ N).
  - eexists. split; [reflexivity|]. apply split_join, split_tokens.
  - apply Forall_forall. intros s Hs. apply segment_sizes_bounds in Hs. lia.
Qed.

Lemma remove_ngrams_distinct (text : string) (n : nat) :
  NoDup (map lower (split text)) -> (1 <= n)%nat ->
  exists out, _remove_repeated_ngrams text n = Some out
              /\ split out = split text.
Proof.
  intros N Hn. unfold _remove_repeated_ngrams.
  destruct (List.length (split text) <? n * 2); [eauto|].
  rewrite (ngram_loop_distinct _ n N Hn) by lia.
  eexists. split; [reflexivity|]. cbn [app skipn option_map].
  apply split_join, split_tokens.
Qed.

Lemma ngram_sweep_distinct (sizes : list Z) :
  Forall (fun n => 1 <= n)%Z sizes ->
  forall text,
    NoDup (map lower (split text)) ->
    exists out, ngram_sweep sizes text = Some out /\ split out = split text.
Proof.
  induction 1 as [|n sizes Hn _ IH]; intros text N; cbn; [eauto|].
  destruct (remove_ngrams_distinct text (Z.to_nat n) N ltac:(lia))
    as (t & -> & Et).
  destruct (IH t) as (out & E & Eo); [now rewrite Et|].
  exists out. split; [exact E | congruence].
Qed.

Lemma last_in (result : list string) :
  result <> [] -> In (last result EmptyString) result.
Proof.
  induction result as [|a [|b rest] IH]; intros H; [contradiction| |].
  - now left.
  - right. apply IH. discriminate.
Qed.

Lemma consecutive_fold_distinct (rest : list string) :
  forall result,
    result <> [] -> NoDup (map lower (result ++ rest)) ->
    fold_left
      (fun result word =>
         if negb (String.eqb (lower word) (lower (last result EmptyString)))
         then result ++ [word] else result)
      rest result
    = result ++ rest.
Proof.
  induction rest as [|w rest IH]; intros result Hne N; cbn [fold_left].
  - now rewrite app_nil_r.
  - assert (D : String.eqb (lower w) (lower (last result EmptyString))
                = false).
    { apply String.eqb_neq. intros E. rewrite map_app in N. cbn [map] in N.
      apply NoDup_remove_2 in N. apply N, in_or_app. left. rewrite E.
      apply in_map. now apply last_in. }
    rewrite D. cbn [negb]. rewrite IH.
    + now rewrite <- app_assoc.
    + now destruct result.
    + now rewrite <- app_assoc.
Qed.

Lemma remove_consecutive_distinct (text : string) :
  NoDup (map lower (split text)) ->
  split (_remove_consecutive_duplicates text) = split text.
Proof.
  intros N. unfold _remove_consecutive_duplicates.
  destruct (split text) as [|first rest] eqn:E; [exact E|].
  rewrite (consecutive_fold_distinct rest [first]);
    [|discriminate | exact N].
  apply split_join. rewrite <- E. apply split_tokens.
Qed.

(** X14: a text in which no word occurs twice, compared without case, goes
    through every pass untouched: [deduplicate_text] returns its words
    joined by single spaces (for a [min_n] that is not negative). *)
Theorem X14_distinct_words_preserved :
  forall (self : NGramDeduplicator) (text : string),
    (0 <= min_n self)%Z ->
    NoDup (map lower (split text)) ->
    deduplicate_text self text = Some (join " " (split text)).
Proof.
  intros self text Hmin N. unfold deduplicate_text.
  destruct (is_empty text || is_empty (strip text)) eqn:B;
    [now rewrite (blank_no_words text B)|].
  destruct (remove_large_distinct text N) as (t1 & -> & E1).
  destruct (ngram_sweep_distinct (z_range_down (Z.min (max_n self) 20) 4))
    with (text := t1) as (t2 & -> & E2).
  { apply Forall_forall. intros n Hn. apply z_range_down_bounds in Hn. lia. }
  { now rewrite E1. }
  destruct (ngram_sweep_distinct (z_range_down 4 (min_n self)))
    with (text := t2) as (t3 & -> & E3).
  { apply Forall_forall. intros n Hn. apply z_range_down_bounds in Hn. lia. }
  { now rewrite E2, E1. }
  f_equal. fold (collapse (_remove_consecutive_duplicates t3)).
  rewrite <- (collapse_joins_words (_remove_consecutive_duplicates t3)).
  f_equal. unfold collapse. rewrite split_strip, split_collapse.
  rewrite remove_consecutive_distinct by (now rewrite E3, E2, E1).
  now rewrite E3, E2, E1.
Qed.

Lemma X14_distinct_words_preserved_witness :
  deduplicate_text default "The  quick brown fox jumps over a lazy dog"
  = Some "The quick brown fox jumps over a lazy dog".
Proof.
  apply (X14_distinct_words_preserved default
           "The  quick brown fox jumps over a lazy dog").
  - cbn. lia.
  - vm_compute. repeat constructor; cbn; intuition discriminate.
Defined.

End DedupOutputFacts.

(** ** The large-segment pass *)

Module SegmentPassFacts.
Import PyStr SplitFacts SubseqFacts Deduplicator DeduplicatorFacts.
Import DedupOutputFacts.

(** The test of the scan on the lowercased windows [words[i:i+S]] and
    [words[j:j+S]]. *)
Abbreviation similar_at words size i j :=
  (_segments_similar (map lower (slice words i (i + size)))
                     (map lower (slice words j (j + size)))).

Lemma first_true (p : nat -> bool) (n : nat) :
  p n = true ->
  exists i, (i <= n)%nat /\ p i = true
            /\ forall j, (j < i)%nat -> p j = false.
Proof.
  intros H.
  assert (D : forall m,
             (exists i, (i < m)%nat /\ p i = true
                        /\ forall j, (j < i)%nat -> p j = false)
             \/ (forall j, (j < m)%nat -> p j = false)).
  { induction m as [|m IH].
    - right. intros j Hj. lia.
    - destruct IH as [(i & Hi & Hp & Hl)|IH].
      + left. exists i. repeat split; auto.
      + destruct (p m) eqn:E.
        * left. exists m. repeat split; auto.
        * right. intros j Hj.
          destruct (Nat.eq_dec j m) as [->|N]; [exact E | apply IH; lia]. }
  destruct (D n) as [(i & Hi & Hp & Hl)|N].
  - exists i. repeat split; auto. lia.
  - exists n. repeat split; auto.
Qed.

(** *** The inner loop *)

Lemma skip_similar_fuel (words : list string) (size : nat)
      (current : list string) :
  (1 <= size)%nat ->
  forall fuel fuel' i,
    (List.length words - i < fuel)%nat ->
    (List.length words - i < fuel')%nat ->
    skip_similar fuel words size current i
    = skip_similar fuel' words size current i.
Proof.
  intros Hs. induction fuel as [|fuel IH]; intros fuel' i H H'; [lia|].
  destruct fuel' as [|fuel']; [lia|]. cbn [skip_similar].
  destruct (i + size <=? List.length words) eqn:B; [|reflexivity].
  apply Nat.leb_le in B. destruct (_segments_similar _ _); [|reflexivity].
  apply IH; lia.
Qed.

(** The inner loop consumes the windows that are similar to
    [current_segment] and stops at the first that is not, or that does not
    fit. *)
Lemma skip_similar_spec (words : list string) (size : nat)
      (current : list string) :
  (1 <= size)%nat ->
  forall fuel b,
    (List.length words - b < fuel)%nat ->
    exists k,
      skip_similar fuel words size current b = Some (b + k * size)%nat
      /\ ((b <= List.length words)%nat ->
          (b + k * size <= List.length words)%nat)
      /\ (forall j, (j < k)%nat ->
            _segments_similar current
              (lowered words (b + j * size) (b + j * size + size)) = true)
      /\ ((b + k * size + size <= List.length words)%nat ->
          _segments_similar current
            (lowered words (b + k * size) (b + k * size + size)) = false).
Proof.
  intros Hs. induction fuel as [|fuel IH]; intros b H; [lia|].
  cbn [skip_similar].
  destruct (b + size <=? List.length words) eqn:B.
  - apply Nat.leb_le in B.
    destruct (_segments_similar current (lowered words b (b + size))) eqn:E.
    + assert (H' : (List.length words - (b + size) < fuel)%nat) by lia.
      destruct (IH (b + size)%nat H') as (k & Ek & Hk & Hall & Hend).
      exists (S k). cbn [Nat.mul].
      replace (b + (size + k * size))%nat with (b + size + k * size)%nat
        by lia.
      split; [exact Ek|]. split; [intros _; apply Hk; lia|].
      split; [|exact Hend].
      intros [|j] Hj; cbn [Nat.mul].
      * rewrite Nat.add_0_r. exact E.
      * replace (b + (size + j * size))%nat with (b + size + j * size)%nat
          by lia.
        apply Hall. lia.
    + exists 0%nat. cbn [Nat.mul]. rewrite Nat.add_0_r.
      split; [reflexivity|]. split; [auto|]. split; [intros j Hj; lia|].
      intros _. exact E.
  - apply Nat.leb_gt in B. exists 0%nat. cbn [Nat.mul]. rewrite Nat.add_0_r.
    split; [reflexivity|]. split; [auto|]. split; [intros j Hj; lia|].
    intros Hfit. lia.
Qed.

(** *** Scanning the rest of a list is scanning the list that is left *)

Lemma slice_skipn (words : list string) (a i j : nat) :
  slice (skipn a words) i j = slice words (a + i) (a + j).
Proof.
  unfold slice. rewrite skipn_skipn.
  replace (a + j - (a + i))%nat with (j - i)%nat by lia.
  now rewrite (Nat.add_comm i a).
Qed.

Lemma lowered_skipn (words : list string) (a i j : nat) :
  lowered (skipn a words) i j = lowered words (a + i) (a + j).
Proof. unfold lowered. now rewrite slice_skipn. Qed.

Lemma leb_shift (a x len : nat) :
  (a <= len)%nat -> (x <=? len - a) = (a + x <=? len).
Proof.
  intros H.
  destruct (Nat.leb_spec x (len - a)), (Nat.leb_spec (a + x) len);
    try reflexivity; lia.
Qed.

Lemma ltb_shift (a x len : nat) :
  (a <= len)%nat -> (x <? len - a) = (a + x <? len).
Proof.
  intros H.
  destruct (Nat.ltb_spec x (len - a)), (Nat.ltb_spec (a + x) len);
    try reflexivity; lia.
Qed.

Lemma skip_similar_shift (words : list string) (size : nat)
      (current : list string) (a : nat) :
  (a <= List.length words)%nat ->
  forall fuel j,
    skip_similar fuel words size current (a + j)
    = option_map (Nat.add a)
                 (skip_similar fuel (skipn a words) size current j).
Proof.
  intros Ha. induction fuel as [|fuel IH]; intros j; [reflexivity|].
  cbn [skip_similar]. rewrite length_skipn, (leb_shift a) by exact Ha.
  rewrite lowered_skipn, !Nat.add_assoc.
  destruct (a + j + size <=? List.length words); [|reflexivity].
  destruct (_segments_similar _ _); [|reflexivity].
  rewrite <- Nat.add_assoc. apply IH.
Qed.

Lemma segment_loop_shift (words : list string) (size a : nat) :
  (1 <= size)%nat -> (a <= List.length words)%nat ->
  forall fuel j result,
    segment_loop fuel words size (a + j) result
    = segment_loop fuel (skipn a words) size j result.
Proof.
  intros Hs Ha. induction fuel as [|fuel IH]; intros j result;
    [reflexivity|].
  cbn [segment_loop].
  rewrite length_skipn, (ltb_shift a), (leb_shift a) by exact Ha.
  rewrite !lowered_skipn, slice_skipn, nth_skipn, !Nat.add_assoc.
  destruct (a + j <? List.length words); [|reflexivity].
  assert (One : segment_loop fuel words size (a + j + 1)
                             (result ++ [nth (a + j) words EmptyString])
                = segment_loop fuel (skipn a words) size (j + 1)
                               (result ++ [nth (a + j) words EmptyString])).
  { rewrite <- Nat.add_assoc. apply IH. }
  destruct (a + j + size * 2 <=? List.length words); [|exact One].
  destruct (_segments_similar _ _); [|exact One].
  rewrite (skip_similar_fuel (skipn a words) size _ Hs
             (S (List.length words - a)) (S (List.length words)))
    by (rewrite length_skipn; lia).
  rewrite <- (Nat.add_assoc a j size), skip_similar_shift by exact Ha.
  destruct (skip_similar _ (skipn a words) _ _ _) as [i'|];
    [|reflexivity].
  cbn [option_map]. apply IH.
Qed.

(** *** The outer loop *)

Lemma segment_loop_acc (words : list string) (size : nat) :
  forall fuel i result,
    segment_loop fuel words size i result
    = option_map (app result) (segment_loop fuel words size i []).
Proof.
  induction fuel as [|fuel IH]; intros i result; [reflexivity|].
  cbn [segment_loop].
  destruct (i <? List.length words);
    [|cbn; now rewrite app_nil_r].
  assert (One : forall x j,
             segment_loop fuel words size j (result ++ x)
             = option_map (app result)
                          (segment_loop fuel words size j ([] ++ x))).
  { intros x j. rewrite (IH j (result ++ x)), (IH j ([] ++ x)).
    cbn [app]. destruct (segment_loop fuel words size j []); cbn;
      [now rewrite <- app_assoc | reflexivity]. }
  destruct (i + size * 2 <=? List.length words); [|apply One].
  destruct (_segments_similar _ _); [|apply One].
  destruct (skip_similar _ _ _ _ _); [apply One | reflexivity].
Qed.

Lemma segment_loop_fuel (words : list string) (size : nat) :
  (1 <= size)%nat ->
  forall fuel fuel' i result,
    (List.length words - i < fuel)%nat ->
    (List.length words - i < fuel')%nat ->
    segment_loop fuel words size i result
    = segment_loop fuel' words size i result.
Proof.
  intros Hs. induction fuel as [|fuel IH]; intros fuel' i result H H';
    [lia|].
  destruct fuel' as [|fuel']; [lia|]. cbn [segment_loop].
  destruct (i <? List.length words) eqn:L; [|reflexivity].
  apply Nat.ltb_lt in L.
  destruct (i + size * 2 <=? List.length words); [|apply IH; lia].
  destruct (_segments_similar _ _); [|apply IH; lia].
  destruct (skip_similar _ _ _ _ _) as [i'|] eqn:E; [|reflexivity].
  apply skip_similar_bounds in E. apply IH; lia.
Qed.

(** Where no two adjacent windows are similar the scan copies the words. *)
Lemma segment_loop_no_hit (words : list string) (size : nat) :
  forall fuel i result,
    (forall j, (i <= j)%nat -> (j + size * 2 <= List.length words)%nat ->
               similar_at words size j (j + size) = false) ->
    (List.length words - i < fuel)%nat ->
    segment_loop fuel words size i result = Some (result ++ skipn i words).
Proof.
  induction fuel as [|fuel IH]; intros i result N H; [lia|].
  cbn [segment_loop]. destruct (i <? List.length words) eqn:L.
  - apply Nat.ltb_lt in L.
    assert (One : segment_loop fuel words size (i + 1)
                    (result ++ [nth i words EmptyString])
                  = Some (result ++ skipn i words)).
    { rewrite IH; [|intros j Hj; apply N; lia|lia].
      rewrite (skipn_cons_nth words i L). now rewrite <- app_assoc. }
    destruct (i + size * 2 <=? List.length words) eqn:B; [|exact One].
    apply Nat.leb_le in B. unfold lowered.
    replace (i + size * 2)%nat with (i + size + size)%nat by lia.
    rewrite N by lia. exact One.
  - apply Nat.ltb_ge in L. rewrite skipn_all2 by exact L.
    now rewrite app_nil_r.
Qed.

(** The steps of the scan before the first similar pair. *)
Lemma segment_loop_steps (words : list string) (size : nat) :
  forall d fuel j result,
    (j + d <= List.length words)%nat ->
    (forall x, (j <= x < j + d)%nat ->
               (x + size * 2 <= List.length words)%nat ->
               similar_at words size x (x + size) = false) ->
    segment_loop (d + fuel) words size j result
    = segment_loop fuel words size (j + d)
                   (result ++ firstn d (skipn j words)).
Proof.
  induction d as [|d IH]; intros fuel j result Hd N.
  - cbn [Nat.add firstn]. now rewrite Nat.add_0_r, app_nil_r.
  - cbn [Nat.add segment_loop].
    rewrite (proj2 (Nat.ltb_lt j (List.length words))) by lia.
    assert (One : segment_loop (d + fuel) words size (j + 1)
                    (result ++ [nth j words EmptyString])
                  = segment_loop fuel words size (j + S d)
                      (result ++ firstn (S d) (skipn j words))).
    { rewrite IH; [|lia|intros x Hx; apply N; lia].
      rewrite (skipn_cons_nth words j) by lia. cbn [firstn].
      rewrite <- app_assoc. cbn [app]. f_equal. lia. }
    destruct (j + size * 2 <=? List.length words) eqn:B; [|exact One].
    apply Nat.leb_le in B. unfold lowered.
    replace (j + size * 2)%nat with (j + size + size)%nat by lia.
    rewrite N by lia. exact One.
Qed.

(** Resuming the scan at [a] is scanning the words from [a] on. *)
Lemma segment_loop_rest (words : list string) (size a : nat) :
  (1 <= size)%nat -> (a <= List.length words)%nat ->
  forall fuel,
    (List.length words - a < fuel)%nat ->
    segment_loop fuel words size a []
    = _remove_segment_repetitions (skipn a words) size.
Proof.
  intros Hs Ha fuel H.
  pose proof (segment_loop_shift words size a Hs Ha fuel 0 []) as E.
  rewrite Nat.add_0_r in E. rewrite E.
  unfold _remove_segment_repetitions.
  destruct (List.length (skipn a words) <? size * 2) eqn:B.
  - apply Nat.ltb_lt in B.
    rewrite segment_loop_no_hit;
      [reflexivity | intros j _ Hj; lia | rewrite length_skipn; lia].
  - apply segment_loop_fuel; [exact Hs | |]; rewrite length_skipn; lia.
Qed.

(** *** One scan *)

Lemma remove_segment_first_hit (words : list string) (size i : nat) :
  (1 <= size)%nat -> (i + size * 2 <= List.length words)%nat ->
  similar_at words size i (i + size) = true ->
  (forall j, (j < i)%nat -> similar_at words size j (j + size) = false) ->
  exists m,
    (2 <= m)%nat /\ (i + m * size <= List.length words)%nat
    /\ (forall j, (1 <= j < m)%nat ->
          similar_at words size i (i + j * size) = true)
    /\ ((i + m * size + size <= List.length words)%nat ->
        similar_at words size i (i + m * size) = false)
    /\ _remove_segment_repetitions words size
       = option_map (app (firstn (i + size) words))
           (_remove_segment_repetitions (skipn (i + m * size) words) size).
Proof.
  intros Hs Hi Hit Hbefore.
  assert (Hf : (List.length words - (i + size) < S (List.length words))%nat)
    by lia.
  destruct (skip_similar_spec words size (lowered words i (i + size)) Hs
              (S (List.length words)) (i + size)%nat Hf)
    as (k & Ek & Hk & Hall & Hend).
  unfold lowered in Hall, Hend.
  destruct k as [|k].
  { exfalso. cbn [Nat.mul] in Hend. rewrite Nat.add_0_r in Hend.
    rewrite Hend in Hit by lia. discriminate. }
  exists (S (S k)). cbn [Nat.mul] in *.
  replace (i + (size + (size + k * size)))%nat
    with (i + size + (size + k * size))%nat by lia.
  split; [lia|]. split; [apply Hk; lia|]. split; [|split; [exact Hend|]].
  - intros [|j] Hj; [lia|]. cbn [Nat.mul].
    replace (i + (size + j * size))%nat with (i + size + j * size)%nat
      by lia.
    apply Hall. lia.
  - unfold _remove_segment_repetitions.
    rewrite (proj2 (Nat.ltb_ge _ _)) by lia.
    replace (S (List.length words))
      with (i + S (List.length words - i))%nat at 1 by lia.
    rewrite segment_loop_steps;
      [|lia|intros x Hx _; apply Hbefore; lia].
    cbn [Nat.add skipn app segment_loop].
    rewrite (proj2 (Nat.ltb_lt i (List.length words))) by lia.
    rewrite (proj2 (Nat.leb_le _ _) Hi).
    unfold lowered at 1 2.
    replace (i + size * 2)%nat with (i + size + size)%nat by lia.
    rewrite Hit, Ek, segment_loop_acc.
    rewrite segment_loop_rest; [|exact Hs|apply Hk; lia|].
    + now rewrite <- firstn_slice by lia.
    + specialize (Hk ltac:(lia)). lia.
Qed.

(** A scan that finds a similar pair returns at least [size] words less. *)
Lemma remove_segment_hit_shorter (words out : list string) (size i : nat) :
  (1 <= size)%nat -> (i + size * 2 <= List.length words)%nat ->
  similar_at words size i (i + size) = true ->
  _remove_segment_repetitions words size = Some out ->
  (List.length out + size <= List.length words)%nat.
Proof.
  intros Hs Hi Hit E.
  set (p := fun x => (x + size * 2 <=? List.length words)
                     && similar_at words size x (x + size)).
  destruct (first_true p i) as (i0 & Hle & Hp & Hleast).
  { unfold p. now rewrite (proj2 (Nat.leb_le _ _) Hi), Hit. }
  unfold p in Hp. apply andb_prop in Hp as [H1 H2]. apply Nat.leb_le in H1.
  assert (Hbefore : forall j, (j < i0)%nat ->
                              similar_at words size j (j + size) = false).
  { intros j Hj. specialize (Hleast j Hj). unfold p in Hleast.
    now rewrite (proj2 (Nat.leb_le (j + size * 2) (List.length words)))
      in Hleast by lia. }
  destruct (remove_segment_first_hit words size i0 Hs H1 H2 Hbefore)
    as (m & Hm & Hfit & _ & _ & R).
  rewrite E in R.
  destruct (_remove_segment_repetitions (skipn (i0 + m * size) words) size)
    as [tail|] eqn:T; [|discriminate].
  cbn in R. injection R as ->.
  apply remove_segment_subseq, subseq_length in T.
  rewrite length_skipn in T. rewrite length_app, length_firstn.
  assert (size * 2 <= m * size)%nat by nia. lia.
Qed.

(** A scan returns the words as they are exactly when no two adjacent
    windows are similar. *)
Lemma remove_segment_unchanged (words : list string) (size : nat) :
  (1 <= size)%nat ->
  (_remove_segment_repetitions words size = Some words
   <-> forall i, (i + size * 2 <= List.length words)%nat ->
                 similar_at words size i (i + size) = false).
Proof.
  intros Hs. split.
  - intros E i Hi.
    destruct (similar_at words size i (i + size)) eqn:Hit; [|reflexivity].
    pose proof (remove_segment_hit_shorter words words size i Hs Hi Hit E).
    lia.
  - intros N. unfold _remove_segment_repetitions.
    destruct (List.length words <? size * 2); [reflexivity|].
    rewrite segment_loop_no_hit; [reflexivity | intros j _; apply N | lia].
Qed.

(** *** The sweep over the sizes *)

Lemma segment_sweep_app (a b : list nat) (words : list string) :
  segment_sweep (a ++ b) words
  = match segment_sweep a words with
    | Some words' => segment_sweep b words'
    | None => None
    end.
Proof.
  revert words. induction a as [|s a IH]; intros words; cbn; [reflexivity|].
  destruct (_remove_segment_repetitions words s); [apply IH|reflexivity].
Qed.

Lemma segment_sweep_unchanged (sizes : list nat) (words : list string) :
  (forall s, In s sizes -> (1 <= s)%nat) ->
  (forall s i, In s sizes -> (i + s * 2 <= List.length words)%nat ->
               similar_at words s i (i + s) = false) ->
  segment_sweep sizes words = Some words.
Proof.
  induction sizes as [|s sizes IH]; intros Hs N; cbn [segment_sweep];
    [reflexivity|].
  rewrite (proj2 (remove_segment_unchanged words s (Hs s (or_introl eq_refl))))
    by (intros i; apply N; now left).
  apply IH; [intros x Hx; apply Hs; now right|].
  intros x i Hx. apply N. now right.
Qed.

Lemma range_down_split (start stop s : nat) :
  (stop < s <= start)%nat ->
  range_down start stop
  = range_down start s ++ s :: range_down (s - 1) stop.
Proof.
  intros H. unfold range_down.
  replace (start - stop)%nat with ((s - 1 - stop) + S (start - s))%nat
    by lia.
  rewrite seq_app, rev_app_distr.
  replace (S stop + (s - 1 - stop))%nat with s by lia.
  cbn [seq rev]. now rewrite <- app_assoc.
Qed.

(** C3: the large-segment pass returns its input unchanged when the text
    has fewer than 10 words. Otherwise it scans once for each size of
    [segment_sizes], which lists [min(wordcount / 2, 25)], then one less,
    and so on down to 6 (nothing when that minimum is below 6). A scan at
    size [S] compares the lowercased windows [[i, i+S)] and [[i+S, i+2S)]:
    it returns the words as they are exactly when no such pair is similar;
    at the first similar pair it keeps the words up to the end of the first
    window, drops every following window that is similar to that first
    window, and goes on in the same way with the words after them, so that
    at least [S] words are lost. In the pass the sizes are tried from the
    largest down: when no size finds a similar pair the words are kept,
    and otherwise the largest size that finds one is the first to change
    the words, and the smaller sizes scan what it returned. Two windows of
    equal length (at most 25, as in this pass) are similar exactly when
    they are identical, or they have at least 10 words and at least 90% of
    the positions match. *)
Theorem C3_large_segment_pass :
  (forall text : string,
      (List.length (split text) < 10)%nat ->
      _remove_large_repetitions text = Some text)
  /\ (forall n : nat,
         List.length (segment_sizes n) = (Nat.min (n / 2) 25 - 5)%nat
         /\ (forall k, (k < Nat.min (n / 2) 25 - 5)%nat ->
               nth k (segment_sizes n) 0%nat = (Nat.min (n / 2) 25 - k)%nat)
         /\ (forall s, In s (segment_sizes n)
                       <-> (6 <= s <= Nat.min (n / 2) 25)%nat))
  /\ (forall (words : list string) (size : nat),
         (1 <= size)%nat ->
         (exists out, _remove_segment_repetitions words size = Some out)
         /\ (_remove_segment_repetitions words size = Some words
             <-> forall i, (i + size * 2 <= List.length words)%nat ->
                           similar_at words size i (i + size) = false))
  /\ (forall (words : list string) (size i : nat),
         (1 <= size)%nat -> (i + size * 2 <= List.length words)%nat ->
         similar_at words size i (i + size) = true ->
         (forall j, (j < i)%nat ->
                    similar_at words size j (j + size) = false) ->
         exists m,
           (2 <= m)%nat /\ (i + m * size <= List.length words)%nat
           /\ (forall j, (1 <= j < m)%nat ->
                 similar_at words size i (i + j * size) = true)
           /\ ((i + m * size + size <= List.length words)%nat ->
               similar_at words size i (i + m * size) = false)
           /\ _remove_segment_repetitions words size
              = option_map (app (firstn (i + size) words))
                  (_remove_segment_repetitions
                     (skipn (i + m * size) words) size))
  /\ (forall text : string,
         (10 <= List.length (split text))%nat ->
         (forall size i,
             In size (segment_sizes (List.length (split text))) ->
             (i + size * 2 <= List.length (split text))%nat ->
             similar_at (split text) size i (i + size) = false) ->
         _remove_large_repetitions text = Some (join " " (split text)))
  /\ (forall (text : string) (size : nat),
         (10 <= List.length (split text))%nat ->
         In size (segment_sizes (List.length (split text))) ->
         (exists i, (i + size * 2 <= List.length (split text))%nat
                    /\ similar_at (split text) size i (i + size) = true) ->
         (forall size' i,
             In size' (segment_sizes (List.length (split text))) ->
             (size < size')%nat ->
             (i + size' * 2 <= List.length (split text))%nat ->
             similar_at (split text) size' i (i + size') = false) ->
         exists words',
           _remove_segment_repetitions (split text) size = Some words'
           /\ (List.length words' + size <= List.length (split text))%nat
           /\ _remove_large_repetitions text
              = option_map (join " ")
                  (segment_sweep (range_down (size - 1) 5) words'))
  /\ (forall (words : list string) (i size : nat),
         (i + size <= List.length words)%nat ->
         List.length (map lower (slice words i (i + size))) = size)
  /\ (forall seg1 seg2 : list string,
         List.length seg1 = List.length seg2 ->
         (List.length seg1 <= 25)%nat ->
         (_segments_similar seg1 seg2 = true
          <-> seg1 = seg2
              \/ ((10 <= List.length seg1)%nat
                  /\ (9 * List.length seg1 <= 10 * matches seg1 seg2)%nat))).
Proof.
  split; [|split; [|split; [|split; [|split; [|split; [|split]]]]]].
  - intros text H. unfold _remove_large_repetitions.
    now rewrite (proj2 (Nat.ltb_lt _ _) H).
  - intros n. split; [|split].
    + unfold segment_sizes, range_down. now rewrite length_rev, length_seq.
    + apply segment_sizes_nth.
    + apply segment_sizes_bounds.
  - intros words size Hs. split.
    + now apply remove_segment_total.
    + now apply remove_segment_unchanged.
  - apply remove_segment_first_hit.
  - intros text H N. unfold _remove_large_repetitions.
    rewrite (proj2 (Nat.ltb_ge _ _) H).
    rewrite segment_sweep_unchanged; [reflexivity| |exact N].
    intros s Hs. apply segment_sizes_bounds in Hs. lia.
  - intros text size H Hin [i [Hi Hit]] N.
    pose proof (proj1 (segment_sizes_bounds _ _) Hin) as Hb.
    destruct (remove_segment_total (split text) size) as [words' E]; [lia|].
    exists words'. split; [exact E|]. split.
    + apply (remove_segment_hit_shorter _ _ size i); auto. lia.
    + unfold _remove_large_repetitions.
      rewrite (proj2 (Nat.ltb_ge _ _) H). f_equal.
      unfold segment_sizes in *.
      rewrite (range_down_split _ 5 size) by lia.
      rewrite segment_sweep_app, segment_sweep_unchanged.
      * cbn [segment_sweep]. now rewrite E.
      * intros s Hs. apply range_down_bounds in Hs. lia.
      * intros s j Hs. apply range_down_bounds in Hs.
        apply N; [apply range_down_bounds|]; lia.
  - apply lowered_length.
  - apply segments_similar_iff.
Qed.

(** An instance of C3: in a text of fourteen words the scan at size 7
    finds nothing and the scan at size 6 drops the second copy of the first
    six words; on ten-word windows nine matching positions are similar. *)
Lemma C3_large_segment_pass_witness :
  _remove_large_repetitions "one two three four five six One Two Three Four Five Six seven eight"
  = Some "one two three four five six seven eight"
  /\ _segments_similar
       ["a"; "b"; "c"; "d"; "e"; "f"; "g"; "h"; "i"; "j"]
       ["a"; "b"; "c"; "d"; "e"; "f"; "g"; "h"; "i"; "x"] = true.
Proof.
  split.
  - destruct (proj1 (proj2 (proj2 (proj2 (proj2 (proj2
                C3_large_segment_pass)))))
                "one two three four five six One Two Three Four Five Six seven eight"
                6%nat)
      as (words' & E & _ & P).
    + vm_compute. lia.
    + vm_compute. auto.
    + exists 0%nat. split; [vm_compute; lia | vm_compute; reflexivity].
    + intros size' i Hin Hlt Hi.
      assert (Hs : size' = 7%nat).
      { vm_compute in Hin. destruct Hin as [<-|[<-|[]]]; [reflexivity|lia]. }
      subst size'.
      assert (L : List.length (split "one two three four five six One Two Three Four Five Six seven eight")
                  = 14%nat) by (vm_compute; reflexivity).
      rewrite L in Hi. assert (i = 0%nat) as -> by lia.
      vm_compute. reflexivity.
    + rewrite P. vm_compute in E. injection E as <-.
      vm_compute. reflexivity.
  - apply (proj2 (proj2 (proj2 (proj2 (proj2 (proj2 (proj2
             C3_large_segment_pass))))))
             ["a"; "b"; "c"; "d"; "e"; "f"; "g"; "h"; "i"; "j"]
             ["a"; "b"; "c"; "d"; "e"; "f"; "g"; "h"; "i"; "x"]
             eq_refl); [cbn; lia|].
    right. cbn. lia.
Defined.

End SegmentPassFacts.

(** ** Deduplicating transcripts *)

Module TranscriptFacts.
Import PyStr SplitFacts SubseqFacts Deduplicator Transcripts.
Import DeduplicatorFacts.

Lemma deduplicate_transcript_total (self : NGramDeduplicator)
      (now : string) (t : Transcript) :
  (0 <= min_n self)%Z ->
  exists t', deduplicate_transcript self now t = Some t'.
Proof.
  intros Hmin. unfold deduplicate_transcript.
  destruct (deduplicate_total self (text t) Hmin) as [out ->]. eauto.
Qed.

(** X15: the transcript that [deduplicate_transcript] returns is marked
    [deduplicated], carries the cleaned text, keeps the model name, chunk
    index, confidence, language and processing time, and has as [raw_text]
    the text of the input (whatever the [raw_text] of the input was); its
    words are a subsequence of the input's words, so its word count does not
    exceed the input's. It is returned for every transcript when [min_n] is
    not negative. *)
Theorem X15_deduplicate_transcript :
  (forall (self : NGramDeduplicator) (now : string) (t t' : Transcript),
      deduplicate_transcript self now t = Some t' ->
      deduplicated t' = true
      /\ raw_text t' = Some (text t)
      /\ deduplicate_text self (text t) = Some (text t')
      /\ model_name t' = model_name t
      /\ chunk_index t' = chunk_index t
      /\ confidence t' = confidence t
      /\ language t' = language t
      /\ processing_time t' = processing_time t
      /\ created_at t' = now
      /\ subseq (split (text t')) (split (text t))
      /\ (word_count t' <= word_count t)%nat)
  /\ (forall (self : NGramDeduplicator) (now : string) (t : Transcript),
         (0 <= min_n self)%Z ->
         exists t', deduplicate_transcript self now t = Some t').
Proof.
  split.
  - intros self now t t'. unfold deduplicate_transcript.
    destruct (deduplicate_text self (text t)) as [cleaned|] eqn:E;
      [|discriminate].
    intros [= <-]. cbn. repeat split; try reflexivity.
    + now apply deduplicate_subseq in E.
    + unfold word_count. cbn. apply subseq_length.
      now apply deduplicate_subseq in E.
  - apply deduplicate_transcript_total.
Qed.

Lemma X15_deduplicate_transcript_witness :
  exists t',
    deduplicate_transcript default "t1"
      (mkTranscript "hello hello world world" "test" 0 0 None 0
                    (Some "the first raw text") false "t0") = Some t'
    /\ raw_text t' = Some "hello hello world world".
Proof.
  destruct (proj2 X15_deduplicate_transcript default "t1"
              (mkTranscript "hello hello world world" "test" 0 0 None 0
                            (Some "the first raw text") false "t0"))
    as [t' E]; [cbn; lia|].
  exists t'. split; [exact E|].
  apply (proj1 X15_deduplicate_transcript default "t1" _ t' E).
Defined.

Lemma deduplicate_from_spec (self : NGramDeduplicator)
      (clock : nat -> string) :
  forall (ts : list Transcript) (i : nat) (ts' : list Transcript),
    deduplicate_from self clock i ts = Some ts' ->
    List.length ts' = List.length ts
    /\ forall k t, nth_error ts k = Some t ->
         exists t', nth_error ts' k = Some t'
                    /\ deduplicate_transcript self (clock (i + k)) t
                       = Some t'.
Proof.
  induction ts as [|t ts IH]; intros i ts' E; cbn in E.
  - injection E as <-. split; [reflexivity|]. intros [|k] t H; discriminate.
  - destruct (deduplicate_transcript self (clock i) t) as [t1|] eqn:E1;
      [|discriminate].
    destruct (deduplicate_from self clock (S i) ts) as [rest|] eqn:E2;
      [|discriminate].
    injection E as <-. destruct (IH _ _ E2) as [Hlen Hnth].
    split; [cbn; now rewrite Hlen|].
    intros [|k] t0 H; cbn in H.
    + injection H as <-. exists t1. rewrite Nat.add_0_r. now split.
    + destruct (Hnth k t0 H) as (t' & H1 & H2). exists t'.
      split; [exact H1|]. now rewrite <- Nat.add_succ_comm.
Qed.

Lemma deduplicate_from_total (self : NGramDeduplicator)
      (clock : nat -> string) :
  (0 <= min_n self)%Z ->
  forall (ts : list Transcript) (i : nat),
    exists ts', deduplicate_from self clock i ts = Some ts'.
Proof.
  intros Hmin. induction ts as [|t ts IH]; intros i; cbn; [eauto|].
  destruct (deduplicate_transcript_total self (clock i) t Hmin) as [t1 ->].
  destruct (IH (S i)) as [rest ->]. eauto.
Qed.

(** X16: [deduplicate_transcripts] returns one transcript per input, in
    the same order, the one at position [k] being what
    [deduplicate_transcript] returns for the input at position [k]; it
    returns for every list when [min_n] is not negative. *)
Theorem X16_deduplicate_transcripts :
  (forall (self : NGramDeduplicator) (clock : nat -> string)
          (ts ts' : list Transcript),
      deduplicate_transcripts self clock ts = Some ts' ->
      List.length ts' = List.length ts
      /\ forall k t, nth_error ts k = Some t ->
           exists t', nth_error ts' k = Some t'
                      /\ deduplicate_transcript self (clock k) t = Some t'
                      /\ chunk_index t' = chunk_index t
                      /\ raw_text t' = Some (text t))
  /\ (forall (self : NGramDeduplicator) (clock : nat -> string)
             (ts : list Transcript),
         (0 <= min_n self)%Z ->
         exists ts', deduplicate_transcripts self clock ts = Some ts').
Proof.
  split.
  - intros self clock ts ts' E.
    destruct (deduplicate_from_spec self clock ts 0 ts' E) as [Hlen Hnth].
    split; [exact Hlen|]. intros k t H.
    destruct (Hnth k t H) as (t' & H1 & H2). exists t'.
    split; [exact H1|]. split; [exact H2|].
    unfold deduplicate_transcript in H2.
    destruct (deduplicate_text self (text t)); [|discriminate].
    injection H2 as <-. split; reflexivity.
  - intros self clock ts Hmin. now apply deduplicate_from_total.
Qed.

Lemma X16_deduplicate_transcripts_witness :
  exists ts',
    deduplicate_transcripts default (fun _ => "t1")
      [mkTranscript "one one two" "test" 0 0 None 0 None false "t0";
       mkTranscript "three three four" "test" 1 0 None 0 None false "t0"]
    = Some ts'
    /\ List.length ts' = 2%nat.
Proof.
  destruct (proj2 X16_deduplicate_transcripts default (fun _ => "t1")
              [mkTranscript "one one two" "test" 0 0 None 0 None false "t0";
               mkTranscript "three three four" "test" 1 0 None 0 None false
                            "t0"]) as [ts' E]; [cbn; lia|].
  exists ts'. split; [exact E|].
  apply (proj1 X16_deduplicate_transcripts default _ _ ts' E).
Defined.

End TranscriptFacts.

(** ** The metrics stay between 0 and 1 *)

Module RangeFacts.
Import PyStr PyFloat Normalizer Comparison Scorer Range.
Import PyFloatFacts ScorerFacts.
Local Open Scope float_scope.

Lemma ltb_leb (x y : float) : (x <? y) = true -> (x <=? y) = true.
Proof.
  rewrite FloatAxioms.ltb_spec, FloatAxioms.leb_spec. unfold SFltb, SFleb.
  destruct (SFcompare (Prim2SF x) (Prim2SF y)) as [[]|];
    congruence.
Qed.

Lemma in_unit_cases (c x : float) :
  c = 0.0 \/ c = 1.0 \/ (c = x /\ (0.0 <? x) = true /\ (x <? 1.0) = true) ->
  in_unit_interval c = true.
Proof.
  intros [-> | [-> | (-> & L & U)]]; try reflexivity.
  unfold in_unit_interval. now rewrite (ltb_leb _ _ L), (ltb_leb _ _ U).
Qed.

Lemma wer_in_unit (w : WERCalculator) (reference hypothesis : string) :
  in_unit_interval (wer_calculate w reference hypothesis) = true.
Proof.
  unfold wer_calculate. destruct (apply_normalizer _ _ _) as [r h].
  destruct (blank r); [destruct (blank h); reflexivity|].
  destruct (blank h); [reflexivity|].
  eapply in_unit_cases, clamp_rate_cases.
Qed.

Lemma cer_in_unit (c : CERCalculator) (reference hypothesis : string) :
  in_unit_interval (cer_calculate c reference hypothesis) = true.
Proof.
  unfold cer_calculate. destruct (apply_normalizer _ _ _) as [r h].
  destruct (blank r); [destruct (blank h); reflexivity|].
  destruct (blank h); [reflexivity|].
  eapply in_unit_cases, clamp_rate_cases.
Qed.

Lemma sem_value_in_unit (cos_sim : string -> string -> option float)
      (self : SemanticSimilarity) (text1 text2 : string) :
  in_unit_interval (sem_value cos_sim self text1 text2) = true.
Proof.
  unfold sem_value. destruct (apply_normalizer _ _ _) as [n1 n2].
  destruct (blank n1 || blank n2).
  - destruct (String.eqb _ _); reflexivity.
  - unfold clamp_similarity. destruct (cos_sim n1 n2) as [s|]; [|reflexivity].
    eapply in_unit_cases, clamp_similarity_cases.
Qed.

(** X17: whatever the texts are and whatever the embedding backend returns
    (a cosine above 1, below 0, or NaN), the word error rate, the character
    error rate and the semantic similarity are numbers between 0.0 and 1.0,
    never NaN; so are the three fields of every record that [compare]
    returns. *)
Theorem X17_metrics_in_unit_interval :
  (forall (w : WERCalculator) (c : CERCalculator)
          (reference hypothesis : string),
      in_unit_interval (wer_calculate w reference hypothesis) = true
      /\ in_unit_interval (cer_calculate c reference hypothesis) = true)
  /\ (forall (backend_loads : bool)
             (cos_sim : string -> string -> option float)
             (self : SemanticSimilarity) (text1 text2 : string) (w : World),
         match sem_calculate backend_loads cos_sim self text1 text2 w with
         | (Ok v, _) => in_unit_interval v = true
         | (Raise _, _) => model_loaded w || backend_loads = false
         end)
  /\ (forall (backend_loads : bool)
             (cos_sim : string -> string -> option float)
             (timestamp : nat -> string) (self : HybridScore)
             (reference hypothesis : string) (index : Z) (w : World),
         match compare backend_loads cos_sim timestamp self reference
                       hypothesis index w with
         | (Ok r, _) =>
             in_unit_interval (wer r) = true
             /\ in_unit_interval (cer r) = true
             /\ in_unit_interval (semantic_similarity r) = true
         | (Raise _, _) => model_loaded w || backend_loads = false
         end).
Proof.
  split; [|split].
  - intros. split; [apply wer_in_unit | apply cer_in_unit].
  - intros backend_loads cos_sim self text1 text2 w.
    destruct (model_loaded w || backend_loads) eqn:A.
    + destruct (sem_calculate_value backend_loads cos_sim self text1 text2
                  w A) as (w' & -> & _).
      apply sem_value_in_unit.
    + rewrite sem_calculate_spec, A. reflexivity.
  - intros backend_loads cos_sim timestamp self reference hypothesis index w.
    destruct (compare_spec backend_loads cos_sim timestamp self reference
                hypothesis index w) as [(_ & w' & E & _) | (A & E)];
      rewrite E; [|exact A].
    destruct (scored_fields cos_sim self reference hypothesis index
                (timestamp (ticks w))) as (_ & -> & -> & -> & _).
    split; [apply wer_in_unit|]. split; [apply cer_in_unit|].
    apply sem_value_in_unit.
Qed.

End RangeFacts.

(** ** What a batch comparison does to the world *)

Module EffectFacts.
Import PyStr PyFloat Normalizer Comparison Scorer Batch.
Import ScorerFacts.
Local Open Scope float_scope.

Lemma sem_calculate_available (backend_loads : bool)
      (cos_sim : string -> string -> option float)
      (self : SemanticSimilarity) (text1 text2 : string) (w : World) :
  model_loaded w || backend_loads = true ->
  sem_calculate backend_loads cos_sim self text1 text2 w
  = (Ok (sem_value cos_sim self text1 text2),
     mkWorld true (encode_calls w ++ encoded_pair self (text1, text2))
             (ticks w)).
Proof.
  intros A. rewrite sem_calculate_spec, A.
  unfold sem_value, encoded_pair, loaded. cbn [fst snd].
  destruct (apply_normalizer _ _ _) as [n1 n2].
  destruct (blank n1 || blank n2) eqn:B.
  - rewrite (stripped_equal_when_blank _ _ B), app_nil_r.
    destruct w as [[] calls t]; reflexivity.
  - reflexivity.
Qed.

Lemma compare_available (backend_loads : bool)
      (cos_sim : string -> string -> option float)
      (timestamp : nat -> string) (self : HybridScore)
      (reference hypothesis : string) (index : Z) (w : World) :
  model_loaded w || backend_loads = true ->
  compare backend_loads cos_sim timestamp self reference hypothesis index w
  = (Ok (scored cos_sim self reference hypothesis index
                (timestamp (ticks w))),
     mkWorld true
             (encode_calls w
              ++ encoded_pair (semantic_calc self) (reference, hypothesis))
             (S (ticks w))).
Proof.
  intros A. unfold compare, calculate, bind.
  rewrite (sem_calculate_available _ _ _ _ _ _ A). unfold ret, scored.
  destruct (apply_normalizer _ _ _) as [norm_ref norm_hyp]. reflexivity.
Qed.

Lemma compare_loop_world (backend_loads : bool)
      (cos_sim : string -> string -> option float)
      (timestamp : nat -> string) (self : HybridScore) :
  forall (pairs : list (string * string)) (i : nat)
         (acc : list ComparisonResult) (w : World),
    model_loaded w || backend_loads = true ->
    pairs <> [] ->
    snd (compare_loop backend_loads cos_sim timestamp self i pairs acc w)
    = mkWorld true
              (encode_calls w
               ++ flat_map (encoded_pair (semantic_calc self)) pairs)
              (ticks w + List.length pairs).
Proof.
  induction pairs as [|[ref hyp] rest IH]; intros i acc w A Hne;
    [contradiction|].
  cbn [compare_loop]. unfold bind at 1.
  rewrite (compare_available _ _ _ _ _ _ _ _ A).
  destruct rest as [|p rest].
  - cbn. rewrite app_nil_r. f_equal. lia.
  - rewrite IH; [|reflexivity|discriminate].
    cbn [encode_calls ticks flat_map List.length fst snd].
    rewrite <- !app_assoc. f_equal. lia.
Qed.

(** X18: with lists of equal length and a model that can be loaded,
    [compare_all] sends to [encode] exactly the normalized pairs that have
    no blank side, in input order and once each, and reads the clock once
    per pair; on two empty lists it leaves the world as it is, without
    loading the model. *)
Theorem X18_compare_all_effects :
  forall (backend_loads : bool) (cos_sim : string -> string -> option float)
         (timestamp : nat -> string) (self : HybridScore)
         (references hypotheses : list string) (w : World),
    List.length references = List.length hypotheses ->
    model_loaded w || backend_loads = true ->
    let w' := snd (compare_all backend_loads cos_sim timestamp self
                               references hypotheses w) in
    encode_calls w'
    = encode_calls w
      ++ flat_map (encoded_pair (semantic_calc self))
                  (combine references hypotheses)
    /\ ticks w' = (ticks w + List.length references)%nat
    /\ (List.length (encode_calls w')
        <= List.length (encode_calls w) + List.length references)%nat
    /\ (references = [] -> w' = w).
Proof.
  intros backend_loads cos_sim timestamp self references hypotheses w E A.
  cbv zeta. unfold compare_all. rewrite (proj2 (Nat.eqb_eq _ _) E).
  cbn [negb].
  assert (F : forall pairs : list (string * string),
             (List.length (flat_map (encoded_pair (semantic_calc self)) pairs)
              <= List.length pairs)%nat).
  { induction pairs as [|[a b] pairs IH]; [cbn; lia|].
    cbn [flat_map]. rewrite length_app. unfold encoded_pair at 1.
    destruct (apply_normalizer _ _ _) as [n1 n2].
    destruct (blank n1 || blank n2); cbn [List.length]; lia. }
  destruct references as [|r rs].
  - destruct hypotheses; [|discriminate]. cbn. rewrite app_nil_r.
    repeat split; lia.
  - destruct hypotheses as [|h hs]; [discriminate|].
    rewrite compare_loop_world; [|exact A|discriminate].
    cbn [encode_calls ticks]. rewrite length_combine, <- E, Nat.min_id.
    repeat split.
    + rewrite length_app. specialize (F (combine (r :: rs) (h :: hs))).
      rewrite length_combine, <- E, Nat.min_id in F. lia.
    + discriminate.
Qed.

Lemma X18_compare_all_effects_witness :
  let w' := snd (compare_all true (fun _ _ => Some 0.75%float)
                             (fun _ => "t") default_hybrid
                             ["hello"; ""] ["hello there"; ""]
                             (mkWorld false [] 0)) in
  encode_calls w' = [("hello", "hello there")] /\ ticks w' = 2%nat.
Proof.
  cbv zeta.
  destruct (X18_compare_all_effects true (fun _ _ => Some 0.75%float)
              (fun _ => "t") default_hybrid ["hello"; ""]
              ["hello there"; ""] (mkWorld false [] 0) eq_refl eq_refl)
    as (Hc & Ht & _).
  split; [rewrite Hc; reflexivity | rewrite Ht; reflexivity].
Defined.

End EffectFacts.

(** ** A phrase said several times in a row *)

Module RepeatFacts.
Import PyStr SplitFacts Deduplicator DeduplicatorFacts.

Lemma window_at (pre c rest : list string) :
  lowered (pre ++ c ++ rest) (List.length pre)
          (List.length pre + List.length c)
  = map lower c.
Proof.
  unfold lowered, slice. f_equal.
  replace (List.length pre + List.length c - List.length pre)%nat
    with (List.length c) by lia.
  rewrite skipn_app, skipn_all, Nat.sub_diag. cbn [skipn app].
  rewrite firstn_app, firstn_all, Nat.sub_diag. cbn [firstn].
  apply app_nil_r.
Qed.

Lemma skip_all_copies (n : nat) (cur : list string) :
  (1 <= n)%nat -> List.length cur = n ->
  forall (copies : list (list string)) (pre : list string) (fuel : nat),
    Forall (fun c => map lower c = cur) copies ->
    (List.length copies < fuel)%nat ->
    skip_repeats fuel (pre ++ List.concat copies) n cur (List.length pre)
    = Some (List.length (pre ++ List.concat copies)).
Proof.
  intros Hn Hcur. induction copies as [|c copies IH]; intros pre fuel F Hf;
    (destruct fuel as [|fuel]; [cbn in Hf; lia|]); cbn [skip_repeats List.concat].
  - rewrite app_nil_r.
    now rewrite (proj2 (Nat.leb_gt _ _)) by lia.
  - inversion F as [|? ? Hc F']; subst.
    assert (Lc : List.length c = List.length (map lower c))
      by now rewrite length_map.
    set (n := List.length (map lower c)) in *.
    rewrite (proj2 (Nat.leb_le _ _)) by (rewrite !length_app; lia).
    replace (lowered (pre ++ c ++ List.concat copies) (List.length pre)
                     (List.length pre + n))
      with (map lower c) by (rewrite <- Lc; symmetry; apply window_at).
    rewrite (proj2 (tuple_eqb_eq _ _) eq_refl).
    rewrite app_assoc.
    replace (List.length pre + n)%nat with (List.length (pre ++ c))
      by (rewrite length_app; lia).
    apply IH; [exact F' | cbn in Hf; lia].
Qed.

(** X19: when the words of a text are a phrase of [n] words followed only
    by one or more repetitions of it (the same words up to case), the
    n-gram pass for [n] returns the first occurrence alone, in its own
    spelling. *)
Theorem X19_repeated_phrase_collapses :
  forall (text : string) (n : nat) (phrase : list string)
         (copies : list (list string)),
    (1 <= n)%nat -> List.length phrase = n -> copies <> [] ->
    Forall (fun c => map lower c = map lower phrase) copies ->
    split text = phrase ++ List.concat copies ->
    _remove_repeated_ngrams text n = Some (join " " phrase).
Proof.
  intros text n phrase copies Hn Hp Hne F E.
  unfold _remove_repeated_ngrams. rewrite E.
  destruct copies as [|c copies]; [contradiction|].
  inversion F as [|? ? Hc F']; subst.
  assert (Lc : List.length c = List.length phrase).
  { rewrite <- (length_map lower c), Hc. apply length_map. }
  set (n := List.length phrase) in *. set (words := phrase ++ List.concat (c :: copies)).
  assert (Lw : (n * 2 <= List.length words)%nat).
  { subst words. cbn [List.concat]. rewrite !length_app. lia. }
  rewrite (proj2 (Nat.ltb_ge _ _) Lw). cbn [ngram_loop].
  rewrite (proj2 (Nat.ltb_lt 0 (List.length words))) by lia.
  rewrite (proj2 (Nat.leb_le (0 + n * 2) (List.length words))) by lia.
  assert (W0 : lowered words 0 (0 + n) = map lower phrase).
  { subst words. apply (window_at [] phrase). }
  assert (W1 : lowered words (0 + n) (0 + n * 2) = map lower phrase).
  { subst words. cbn [List.concat].
    replace (0 + n * 2)%nat with (n + List.length c)%nat by lia.
    cbn [Nat.add]. rewrite <- Hc. apply (window_at phrase c). }
  rewrite W0, W1. rewrite (proj2 (tuple_eqb_eq _ _) eq_refl).
  assert (K : skip_repeats (S (List.length words)) words n
                           (map lower phrase) (0 + n * 2)
              = Some (List.length words)).
  { subst words. cbn [List.concat]. rewrite app_assoc.
    replace (0 + n * 2)%nat with (List.length (phrase ++ c))
      by (rewrite length_app; lia).
    apply skip_all_copies; [exact Hn | apply length_map | exact F'|].
    rewrite !length_app.
    assert (List.length copies <= List.length (List.concat copies))%nat.
    { clear - F' Hn. induction F' as [|x l Hx _ IH]; [cbn; lia|].
      cbn [List.concat List.length]. rewrite length_app.
      assert (List.length x = List.length phrase).
      { rewrite <- (length_map lower x), Hx. apply length_map. }
      lia. }
    lia. }
  rewrite K.
  destruct (List.length words) as [|m] eqn:Lm; [lia|].
  cbn [ngram_loop]. rewrite Lm, Nat.ltb_irrefl. cbn [option_map app].
  f_equal. f_equal. unfold slice. subst words.
  cbn [skipn Nat.add]. rewrite Nat.sub_0_r, firstn_app. subst n.
  now rewrite firstn_all, Nat.sub_diag, app_nil_r.
Qed.

Lemma X19_repeated_phrase_collapses_witness :
  _remove_repeated_ngrams "thank you Thank You thank you" 2
  = Some "thank you".
Proof.
  apply (X19_repeated_phrase_collapses _ 2 ["thank"; "you"]
           [["Thank"; "You"]; ["thank"; "you"]]).
  - lia.
  - reflexivity.
  - discriminate.
  - repeat constructor.
  - reflexivity.
Defined.

End RepeatFacts.
